(** * osgrep: retrieval and ranking core

    A shallow embedding of the search pipeline ([Searcher.search]), the
    meta store ([MetaStore]), the embedding worker manager
    ([WorkerManager]) and the file-system traversal ([NodeFileSystem]),
    with the properties the specification states about them.

    Conventions of the embedding:
    - A finite JavaScript number is the rational it stands for
      ([JS.number], with [NaN] and the infinities apart; zero has no
      sign). What the sources read from a string or write as a literal
      is rounded to binary64 ([JS.toNumber]); the sums and products of
      the scoring are exact, and the statements about scores say which
      of them hold of the rounded products as well.
    - An [await]ed call of an external collaborator is a function that
      answers with an [outcome]: a value, or a thrown error.
    - A JavaScript [Map] whose iteration order is observed is an
      association list in insertion order ([JS.Map]); maps that are only
      looked up are [gmap]s, sets are [gset]s. *)

From Stdlib Require Import QArith Qround ZArith Lia Lqa Ascii String.
From stdpp Require Import base option list gmap sets strings pretty sorting.

Local Open Scope string_scope.
Local Open Scope Z_scope.

(** ** JavaScript values and built-ins used by the sources *)
Module JS.

(** A settled promise or a call that may throw. *)
Inductive outcome (A : Type) : Type :=
| Returned (a : A)
| Thrown (e : string).
Arguments Returned {A} a.
Arguments Thrown {A} e.

Definition returned {A} (o : outcome A) : bool :=
  match o with Returned _ => true | Thrown _ => false end.

(** Numbers that may be [NaN] or infinite. *)
Inductive number : Type :=
| NaN
| Infinity (negative : bool)
| Finite (q : Q).

Definition Qltb (x y : Q) : bool := negb (Qle_bool y x).

(** ToBoolean on a number: [0] and [NaN] are falsy. *)
Definition truthy (x : number) : bool :=
  match x with
  | NaN => false
  | Infinity _ => true
  | Finite q => negb (Qeq_bool q 0)
  end.

(** [x || d] on numbers. *)
Definition or_else (x d : number) : number := if truthy x then x else d.

Definition isFinite (x : number) : bool :=
  match x with Finite _ => true | _ => false end.

Definition mul (x y : number) : number :=
  match x, y with
  | NaN, _ | _, NaN => NaN
  | Infinity s, Infinity t => Infinity (xorb s t)
  | Infinity s, Finite q | Finite q, Infinity s =>
      if Qeq_bool q 0 then NaN else Infinity (xorb s (Qltb q 0))
  | Finite p, Finite q => Finite (p * q)
  end.

Definition sub (x y : number) : number :=
  match x, y with
  | NaN, _ | _, NaN => NaN
  | Infinity s, Infinity t => if Bool.eqb s t then NaN else Infinity s
  | Infinity s, Finite _ => Infinity s
  | Finite _, Infinity t => Infinity (negb t)
  | Finite p, Finite q => Finite (p - q)
  end.

(** [x > 0]. *)
Definition positive (x : number) : bool :=
  match x with
  | NaN => false
  | Infinity neg => negb neg
  | Finite q => Qltb 0 q
  end.

(** *** Strings

    Strings are sequences of bytes; white space and letters are the
    ASCII ones. *)

Definition is_whitespace (c : ascii) : bool :=
  let n := nat_of_ascii c in
  ((9 <=? n) && (n <=? 13))%nat || (n =? 32)%nat.

Fixpoint trimStart (s : string) : string :=
  match s with
  | String c s' => if is_whitespace c then trimStart s' else s
  | EmptyString => s
  end.

Definition digit_of (c : ascii) : option Z :=
  let n := nat_of_ascii c in
  if ((48 <=? n) && (n <=? 57))%nat then Some (Z.of_nat (n - 48)) else None.

(** Longest run of decimal digits at the head of [s]: its value on top of
    [acc], the number of digits read, and the rest of the string. *)
Fixpoint digits (s : string) (acc : Z) (count : nat) : Z * nat * string :=
  match s with
  | String c s' =>
      match digit_of c with
      | Some d => digits s' (10 * acc + d) (S count)
      | None => (acc, count, s)
      end
  | EmptyString => (acc, count, s)
  end.

(** An optional sign: [true] for a minus. *)
Definition sign (s : string) : bool * string :=
  match s with
  | String "-" s' => (true, s')
  | String "+" s' => (false, s')
  | _ => (false, s)
  end.

(** *** Number values

    [toNumber q] is the Number value for the real [q]: the binary64
    value nearest to it, a tie going to the even significand, and an
    infinity from [2^1024 - 2^970] on. *)

(** [n / d] rounded to the nearest integer, ties to even, for [0 <= n]
    and [0 < d]. *)
Definition round_half_even (n d : Z) : Z :=
  let q := n / d in
  match 2 * (n mod d) ?= d with
  | Lt => q
  | Gt => q + 1
  | Eq => if Z.even q then q else q + 1
  end.

(** The exponent [e] with [2^e <= n / d < 2^(e+1)], for [0 < n] and
    [0 < d]. *)
Definition binade (n d : Z) : Z :=
  let e := Z.log2 n - Z.log2 d in
  if n * 2 ^ Z.max 0 (- e) <? d * 2 ^ Z.max 0 e then e - 1 else e.

Definition pow2 (e : Z) : Q :=
  if 0 <=? e then inject_Z (2 ^ e) else / inject_Z (2 ^ (- e)).

(** The significand has 53 bits; below [2^-1022] the spacing stays
    [2^-1074]. *)
Definition toNumber (q : Q) : number :=
  let n := Z.abs (Qnum q) in
  let d := Z.pos (Qden q) in
  if n =? 0 then Finite 0
  else
    let p := Z.max (binade n d) (-1022) - 52 in
    let m := round_half_even (n * 2 ^ Z.max 0 (- p)) (d * 2 ^ Z.max 0 p) in
    if 2 ^ (1024 - p) <=? m then Infinity (Qnum q <? 0)
    else Finite (Qred (inject_Z (if Qnum q <? 0 then - m else m) * pow2 p)).

(** [toNumber] on an integer; a finite value is again an integer. *)
Definition integerValue (v : Z) : number :=
  let a := Z.abs v in
  let p := Z.max (Z.log2 a - 52) 0 in
  let m := round_half_even a (2 ^ p) in
  if 2 ^ (1024 - p) <=? m then Infinity (v <? 0)
  else Finite (inject_Z (Z.sgn v * (m * 2 ^ p))).

(** [Number.parseInt(s, 10)]: the digits after white space and a sign,
    [NaN] without a digit. *)
Definition parseInt (s : string) : number :=
  let '(neg, s1) := sign (trimStart s) in
  let '(v, n, _) := digits s1 0 0%nat in
  match n with
  | O => NaN
  | _ => integerValue (if neg then - v else v)
  end.

(** The exponent part of a decimal literal, [0] when there is none. *)
Definition exponent (s : string) : Z :=
  match s with
  | String c s' =>
      if (Ascii.eqb c "e" || Ascii.eqb c "E")%bool then
        let '(neg, s2) := sign s' in
        let '(v, n, _) := digits s2 0 0%nat in
        match n with
        | O => 0
        | _ => if neg then - v else v
        end
      else 0
  | EmptyString => 0
  end.

Definition pow10 (e : Z) : Q :=
  if 0 <=? e then inject_Z (10 ^ e) else / inject_Z (10 ^ (- e)).

(** [Number.parseFloat(s)]: the Number value of the longest prefix that
    is a decimal literal. *)
Definition parseFloat (s : string) : number :=
  let '(neg, s1) := sign (trimStart s) in
  if String.prefix "Infinity" s1 then Infinity neg
  else
    let '(ip, n1, s2) := digits s1 0 0%nat in
    let '(fp, n2, s3) :=
      match s2 with
      | String "." s2' =>
          let '(v, n, r) := digits s2' ip 0%nat in
          match n1, n with
          | O, O => (ip, 0%nat, s2)
          | _, _ => (v, n, r)
          end
      | _ => (ip, 0%nat, s2)
      end in
    match n1, n2 with
    | O, O => NaN
    | _, _ =>
        let m := (inject_Z fp * pow10 (- Z.of_nat n2) * pow10 (exponent s3))%Q in
        toNumber (if neg then - m else m)
    end.

Definition toLowerCase_ascii (c : ascii) : ascii :=
  let n := nat_of_ascii c in
  if ((65 <=? n) && (n <=? 90))%nat then ascii_of_nat (n + 32) else c.

Fixpoint toLowerCase (s : string) : string :=
  match s with
  | String c s' => String (toLowerCase_ascii c) (toLowerCase s')
  | EmptyString => EmptyString
  end.

Definition endsWith (s suffix : string) : bool :=
  let n := String.length s in
  let k := String.length suffix in
  (k <=? n)%nat && String.eqb (substring (n - k) k s) suffix.

Fixpoint includes (s sub : string) : bool :=
  String.prefix sub s ||
  match s with
  | String _ s' => includes s' sub
  | EmptyString => false
  end.

(** [s.split(sep)] for a one-character separator. *)
Fixpoint split (sep : ascii) (s : string) : list string :=
  match s with
  | EmptyString => [EmptyString]
  | String c s' =>
      if Ascii.eqb c sep then EmptyString :: split sep s'
      else
        match split sep s' with
        | seg :: segs => String c seg :: segs
        | [] => [String c EmptyString]
        end
  end.

(** ToBoolean on a string. *)
Definition nonempty (s : string) : bool :=
  match s with EmptyString => false | _ => true end.

(** *** Arrays *)

(** [Array.prototype.sort(compare)]. The sort is stable, so for a
    consistent comparator the result is the one stable arrangement;
    [swap a b] says [compare(a, b) > 0], that is, [b] goes first. *)
Section sort.
Context {A : Type} (swap : A → A → bool).

Fixpoint insert_sorted (x : A) (l : list A) : list A :=
    match l with
    | [] => [x]
    | y :: l' => if swap x y then y :: insert_sorted x l' else x :: l
    end.

Definition sort (l : list A) : list A := foldr insert_sorted [] l.

(** [stays x y]: the comparator does not ask for [y] before [x]. *)
Definition stays (x y : A) : Prop := swap x y = false.
End sort.

(** [array.forEach((x, i) => ...)] threading the state the callback
    mutates. *)
Fixpoint forEach_at {A St : Type} (f : A → nat → St → St) (i : nat) (l : list A) (s : St) : St :=
  match l with
  | [] => s
  | x :: l' => forEach_at f (S i) l' (f x i s)
  end.

Definition forEach {A St : Type} (f : A → nat → St → St) (l : list A) (s : St) : St :=
  forEach_at f 0%nat l s.

(** [array.slice(0, n)] for an integer [n >= 0]. *)
Definition slice0 {A : Type} (n : Z) (l : list A) : list A := take (Z.to_nat n) l.

(** *** Map, in insertion order *)
Module Map.
Section map.
Context {V : Type}.

Fixpoint get (m : list (string * V)) (k : string) : option V :=
  match m with
  | [] => None
  | (k', v) :: m' => if String.eqb k k' then Some v else get m' k
  end.

Definition has (m : list (string * V)) (k : string) : bool :=
  match get m k with Some _ => true | None => false end.

Fixpoint set (m : list (string * V)) (k : string) (v : V) : list (string * V) :=
  match m with
  | [] => [(k, v)]
  | (k', v') :: m' =>
      if String.eqb k k' then (k, v) :: m' else (k', v') :: set m' k v
  end.

Definition entries (m : list (string * V)) : list (string * V) := m.
End map.
End Map.

End JS.

(** ** The searcher: hybrid retrieval, fusion, rerank and score shaping *)
Module Searcher.
Import JS.

(** A row of the vector table. A field the code reads through [||] keeps
    the falsy value (the empty string, [0]) for an absent one. *)
Record VectorRecord : Type := {
  id : string;
  path : string;
  chunk_index : nat;
  content : string;
  display_text : string;
  context_prev : string;
  context_next : string;
  start_line : Z;
  end_line : Z;
  chunk_type : string;
  is_anchor : bool;
  hash : string;
  pooled_colbert_48d : option (list Q);
  colbert : option (list Z);
  colbert_scale : option Q;
  doc_token_ids : option (list Z)
}.

(** The public chunk shape. *)
Record ChunkType : Type := {
  text : string;
  score : number;
  metadata_path : string;
  metadata_hash : string;
  metadata_is_anchor : bool;
  generated_start_line : Z;
  generated_num_lines : Z;
  generated_type : string
}.

Record SearchResponse : Type := { data : list ChunkType }.

Definition mapRecordToChunk (record : VectorRecord) (score : number) : ChunkType :=
  let fullText :=
    context_prev record ++
    (if nonempty (display_text record) then display_text record else content record) ++
    context_next record ++ " " in
  let startLine := start_line record in
  let endLine := if end_line record =? 0 then startLine else end_line record in
  {| text := fullText;
     score := score;
     metadata_path := path record;
     metadata_hash := hash record;
     metadata_is_anchor := is_anchor record;
     generated_start_line := startLine;
     generated_num_lines := Z.max 1 (endLine - startLine + 1);
     generated_type := chunk_type record |}.

(** [process.env]. *)
Abbreviation Env := (gmap string string).

(** [process.env.NAME], the empty string when it is not set. *)
Definition env_get (env : Env) (name : string) : string := default EmptyString (env !! name).

(** [Number.parseFloat(value) || dflt] on the value of [process.env.NAME],
    [dflt] being the literal as it is written. *)
Definition env_multiplier (env : Env) (name : string) (dflt : Q) : number :=
  or_else (parseFloat (env_get env name)) (toNumber dflt).

(** [const v = Number.parseInt(value, 10);
     Number.isFinite(v) && v > 0 ? v : dflt] on the value of
    [process.env.NAME]. *)
Definition env_count (env : Env) (name : string) (dflt : Z) : Z :=
  let v := parseInt (env_get env name) in
  if isFinite v && positive v then
    match v with Finite q => Qfloor q | _ => dflt end
  else dflt.

Definition boosted : list string :=
  ["function"; "class"; "method"; "interface"; "type_alias"].

(** [/(^|\/)(__tests__|tests?|specs?)(\/|$)/]: some segment of the path
    is one of the five names. *)
Definition test_segment (pathStr : string) : bool :=
  existsb (λ seg, existsb (String.eqb seg) ["__tests__"; "test"; "tests"; "spec"; "specs"])
    (split "/" pathStr).

(** [/\.(test|spec)\.[cm]?[jt]sx?$/]: the path ends in one of the
    suffixes the pattern spells. *)
Definition test_suffixes : list string :=
  w ← [".test"; ".spec"];
  m ← [EmptyString; "c"; "m"];
  l ← ["j"; "t"];
  x ← [EmptyString; "x"];
  [w ++ "." ++ m ++ l ++ "s" ++ x].

Definition test_filename (pathStr : string) : bool :=
  existsb (endsWith pathStr) test_suffixes.

Definition isTestPath (pathStr : string) : bool :=
  test_segment pathStr || test_filename pathStr.

Definition isDocPath (pathStr : string) : bool :=
  endsWith pathStr ".md" || endsWith pathStr ".mdx" || endsWith pathStr ".txt" ||
  endsWith pathStr ".json" || endsWith pathStr ".lock" || includes pathStr "/docs/".

Definition anchorPenalty (env : Env) : number := env_multiplier env "OSGREP_ANCHOR_PENALTY" 0.99.
Definition boostFactor (env : Env) : number := env_multiplier env "OSGREP_CODE_BOOST" 1.05.
Definition testPenalty (env : Env) : number := env_multiplier env "OSGREP_TEST_PENALTY" 0.9.
Definition docPenalty (env : Env) : number := env_multiplier env "OSGREP_DOC_PENALTY" 0.85.

Definition applyStructureBoost (env : Env) (record : VectorRecord) (score : number) : number :=
  let adjusted := score in
  let adjusted :=
    if is_anchor record then mul adjusted (anchorPenalty env)
    else if existsb (String.eqb (chunk_type record)) boosted then mul adjusted (boostFactor env)
    else adjusted in
  let pathStr := toLowerCase (path record) in
  let adjusted := if isTestPath pathStr then mul adjusted (testPenalty env) else adjusted in
  let adjusted := if isDocPath pathStr then mul adjusted (docPenalty env) else adjusted in
  adjusted.

(** No multiplier is an infinity. *)
Definition finiteMultipliers (env : Env) : bool :=
  isFinite (anchorPenalty env) && isFinite (boostFactor env) &&
  isFinite (testPenalty env) && isFinite (docPenalty env).

(** *** Reciprocal rank fusion *)

Definition RRF_K : Z := 60.

(** [doc.id || `${doc.path}:${doc.chunk_index}`]. *)
Definition key (doc : VectorRecord) : string :=
  if nonempty (id doc) then id doc
  else path doc ++ ":" ++ pretty (chunk_index doc).

(** [1.0 / (RRF_K + rank + 1)]. *)
Definition rrfScore (rank : nat) : Q := 1 / inject_Z (RRF_K + Z.of_nat rank + 1).

Record Fusion : Type := {
  candidateScores : list (string * Q);
  docMap : list (string * VectorRecord)
}.

Definition accumulate (scores : list (string * Q)) (k : string) (rank : nat) : list (string * Q) :=
  Map.set scores k (default 0%Q (Map.get scores k) + rrfScore rank)%Q.

Definition fuseVector (doc : VectorRecord) (rank : nat) (f : Fusion) : Fusion :=
  let k := key doc in
  {| docMap := Map.set (docMap f) k doc;
     candidateScores := accumulate (candidateScores f) k rank |}.

Definition fuseFts (doc : VectorRecord) (rank : nat) (f : Fusion) : Fusion :=
  let k := key doc in
  {| docMap := if Map.has (docMap f) k then docMap f else Map.set (docMap f) k doc;
     candidateScores := accumulate (candidateScores f) k rank |}.

Definition fusion (vectorResults ftsResults : list VectorRecord) : Fusion :=
  forEach fuseFts ftsResults
    (forEach fuseVector vectorResults {| candidateScores := []; docMap := [] |}).

(** [(a, b) => b[1] - a[1]] is positive when [a] scores less. *)
Definition byScoreDesc {A : Type} (a b : A * Q) : bool := Qltb a.2 b.2.

Definition fused (f : Fusion) : list VectorRecord :=
  omap (λ e, Map.get (docMap f) e.1) (sort byScoreDesc (Map.entries (candidateScores f))).

(** [candidateScores.get(key) ?? 0]. *)
Definition scoreOf (f : Fusion) (k : string) : Q := default 0%Q (Map.get (candidateScores f) k).

Definition fusedScore (f : Fusion) (doc : VectorRecord) : Q := scoreOf f (key doc).

(** What the two passes keep true of the maps they fill: a key is held
    once, every score is positive, and a document is stored under its
    own key. *)
Definition fusion_ok (f : Fusion) : Prop :=
  NoDup (candidateScores f).*1 ∧
  (∀ k v, Map.get (candidateScores f) k = Some v → (0 < v)%Q) ∧
  (∀ k d, Map.get (docMap f) k = Some d → key d = k).

(** The fused score in the words of the specification: over the ranks at
    which a list holds the candidate, the sum of [1/(RRF_K + rank + 1)];
    [rank] is the rank of the head of [docs]. *)
Fixpoint rankSum (k : string) (rank : nat) (docs : list VectorRecord) : Q :=
  match docs with
  | [] => 0
  | doc :: rest =>
      ((if String.eqb (key doc) k then 1 / inject_Z (60 + Z.of_nat rank + 1) else 0)
       + rankSum k (S rank) rest)%Q
  end.

(** *** Candidate stages *)

Definition PRE_RERANK_K (env : Env) (finalLimit : Z) : Z :=
  env_count env "OSGREP_PRE_K" (Z.max (finalLimit * 5) 500).

Definition STAGE1_K (env : Env) : Z := env_count env "OSGREP_STAGE1_K" 200.
Definition STAGE2_K (env : Env) : Z := env_count env "OSGREP_STAGE2_K" 40.
Definition RERANK_TOP (env : Env) : Z := env_count env "OSGREP_RERANK_TOP" 20.
Definition MAX_PER_FILE (env : Env) : Z := env_count env "OSGREP_MAX_PER_FILE" 3.

(** [Number.isFinite(envBlend) && envBlend >= 0 ? envBlend : 0.5]. *)
Definition FUSED_WEIGHT (env : Env) : Q :=
  match parseFloat (env_get env "OSGREP_RERANK_BLEND") with
  | Finite q => if Qle_bool 0 q then q else 0.5%Q
  | _ => 0.5%Q
  end.

(** The values the guards turn away: for a count, what does not parse, is
    infinite or is not positive; for the blend, what does not parse, is
    infinite or is negative; for a multiplier, what does not parse or is
    zero. *)
Definition invalid_count (v : string) : Prop :=
  match parseInt v with Finite n => (n <= 0)%Q | _ => True end.

Definition invalid_blend (v : string) : Prop :=
  match parseFloat v with Finite q => (q < 0)%Q | _ => True end.

Definition invalid_multiplier (v : string) : Prop :=
  match parseFloat v with NaN => True | Finite q => (q == 0)%Q | Infinity _ => False end.

Definition topCandidates (env : Env) (f : Fusion) : list VectorRecord :=
  slice0 (STAGE1_K env) (fused f).

(** The pooled dot product of stage 1; [-1] without a pooled vector. *)
Definition cosineScore (queryPooled : list Q) (doc : VectorRecord) : Q :=
  match pooled_colbert_48d doc with
  | None => (-1)%Q
  | Some docVec =>
      forEach (λ q i dot, dot + q * default 0%Q (docVec !! i))%Q queryPooled 0%Q
  end.

(** The dot product in the words of the specification. *)
Fixpoint dot (u v : list Q) : Q :=
  match u, v with
  | x :: u', y :: v' => (x * y + dot u' v')%Q
  | _, _ => 0
  end.

Definition stage1 (env : Env) (queryPooled : list Q) (top : list VectorRecord) : list VectorRecord :=
  let withScore := map (λ doc, (doc, cosineScore queryPooled doc)) top in
  map fst (slice0 (STAGE2_K env) (sort byScoreDesc withScore)).

Definition stage1_runs (env : Env) (queryPooled : option (list Q)) (top : list VectorRecord) : bool :=
  match queryPooled with
  | Some _ => STAGE2_K env <? Z.of_nat (length top)
  | None => false
  end.

Definition stage2Candidates (env : Env) (queryPooled : option (list Q)) (top : list VectorRecord)
    : list VectorRecord :=
  match queryPooled with
  | Some qp => if STAGE2_K env <? Z.of_nat (length top) then stage1 env qp top else top
  | None => top
  end.

Definition rerankCandidates (env : Env) (stage2 : list VectorRecord) : list VectorRecord :=
  slice0 (RERANK_TOP env) stage2.

(** The scores used when [rerank] is disabled. *)
Definition fusionScores (f : Fusion) (candidates : list VectorRecord) : list Q :=
  imap (λ idx doc,
          let fusedScore := fusedScore f doc in
          if Qeq_bool fusedScore 0 then (1 / inject_Z (Z.of_nat idx + 1))%Q else fusedScore)
       candidates.

Record ScoredItem : Type := { record : VectorRecord; item_score : number }.

Definition scoreItem (env : Env) (f : Fusion) (scores : list Q) (idx : nat) (doc : VectorRecord)
    : ScoredItem :=
  let base := default 0%Q (scores !! idx) in
  let blended := (base + FUSED_WEIGHT env * fusedScore f doc)%Q in
  {| record := doc; item_score := applyStructureBoost env doc (Finite blended) |}.

(** The item of a candidate whose base score is its fused score. *)
Definition fusedItem (env : Env) (f : Fusion) (doc : VectorRecord) : ScoredItem :=
  {| record := doc;
     item_score :=
       applyStructureBoost env doc
         (Finite (fusedScore f doc + FUSED_WEIGHT env * fusedScore f doc)) |}.

(** [(a, b) => b.score - a.score]. *)
Definition byItemScoreDesc (a b : ScoredItem) : bool :=
  positive (sub (item_score b) (item_score a)).

Definition scored (env : Env) (f : Fusion) (scores : list Q) (candidates : list VectorRecord)
    : list ScoredItem :=
  sort byItemScoreDesc (imap (scoreItem env f scores) candidates).

(** *** Per-file diversification *)

(** The loop over [scored]; [seenFiles] and [diversified] are its
    mutable locals. *)
Fixpoint diversify_loop (maxPerFile finalLimit : Z) (items : list ScoredItem)
    (seenFiles : gmap string Z) (diversified : list ScoredItem) : list ScoredItem :=
  match items with
  | [] => diversified
  | item :: rest =>
      let p := path (record item) in
      let count := default 0 (seenFiles !! p) in
      let '(diversified, seenFiles) :=
        if count <? maxPerFile
        then ((diversified ++ [item])%list, <[p := count + 1]> seenFiles)
        else (diversified, seenFiles) in
      if finalLimit <=? Z.of_nat (length diversified) then diversified
      else diversify_loop maxPerFile finalLimit rest seenFiles diversified
  end.

Definition diversify (env : Env) (finalLimit : Z) (items : list ScoredItem) : list ScoredItem :=
  diversify_loop (MAX_PER_FILE env) finalLimit items ∅ [].

(** The records of [path] among [items]. *)
Definition fromFile (p : string) (items : list ScoredItem) : list ScoredItem :=
  List.filter (λ item, String.eqb (path (record item)) p) items.

Definition finalResults (items : list ScoredItem) : list ChunkType :=
  map (λ item, mapRecordToChunk (record item) (or_else (item_score item) (Finite 0))) items.

(** *** The collaborators of [search] *)

Record Table : Type := {
  vectorSearch : list Q → Z → option string → outcome (list VectorRecord);
  ftsSearch : string → Z → option string → outcome (list VectorRecord)
}.

Record QueryEncoding : Type := {
  dense : list Q;
  query_colbert : list Z;
  colbertDim : Z;
  query_pooled : option (list Q)
}.

Record RerankDoc : Type := {
  doc_colbert : list Z;
  scale : Q;
  token_ids : option (list Z)
}.

Record RerankInput : Type := {
  rerank_query : list Z;
  docs : list RerankDoc;
  rerank_colbertDim : Z
}.

(** What [search] reaches outside itself: the environment, the
    configuration, the filter helpers, the worker pool and the store. *)
Record Host : Type := {
  process_env : Env;
  COLBERT_DIM : Z;
  escapeSqlString : string → string;
  normalizePath : string → string;
  encodeQuery : string → outcome QueryEncoding;
  ensureTable : outcome Table;
  createFTSIndex : outcome unit;
  rerank : RerankInput → outcome (list Q)
}.

(** The host whose worker pool answers [rerank] with [answer]. *)
Definition with_rerank (h : Host) (answer : RerankInput → outcome (list Q)) : Host :=
  {| process_env := process_env h;
     COLBERT_DIM := COLBERT_DIM h;
     escapeSqlString := escapeSqlString h;
     normalizePath := normalizePath h;
     encodeQuery := encodeQuery h;
     ensureTable := ensureTable h;
     createFTSIndex := createFTSIndex h;
     rerank := answer |}.

(** The host whose store answers [createFTSIndex] with [answer]. *)
Definition with_createFTSIndex (h : Host) (answer : outcome unit) : Host :=
  {| process_env := process_env h;
     COLBERT_DIM := COLBERT_DIM h;
     escapeSqlString := escapeSqlString h;
     normalizePath := normalizePath h;
     encodeQuery := encodeQuery h;
     ensureTable := ensureTable h;
     createFTSIndex := answer;
     rerank := rerank h |}.

(** The searcher's own flag, and what it wrote to the console. *)
Record State : Type := {
  ftsIndexChecked : bool;
  console : list string
}.

Definition warn (msg : string) (s : State) : State :=
  {| ftsIndexChecked := ftsIndexChecked s; console := (console s ++ [msg])%list |}.

Definition rerankDoc (doc : VectorRecord) : RerankDoc :=
  {| doc_colbert := default [] (colbert doc);
     scale := default 1%Q (colbert_scale doc);
     token_ids := doc_token_ids doc |}.

(** Everything after the two retrievals. *)
Definition rank (h : Host) (enc : QueryEncoding) (finalLimit : Z) (doRerank : bool)
    (vectorResults ftsResults : list VectorRecord) : outcome SearchResponse :=
  let env := process_env h in
  let f := fusion vectorResults ftsResults in
  let stage2 := stage2Candidates env (query_pooled enc) (topCandidates env f) in
  match stage2 with
  | [] => Returned {| data := [] |}
  | _ =>
      let candidates := rerankCandidates env stage2 in
      let scores :=
        if doRerank
        then rerank h {| rerank_query := query_colbert enc;
                         docs := map rerankDoc candidates;
                         rerank_colbertDim := colbertDim enc |}
        else Returned (fusionScores f candidates) in
      match scores with
      | Thrown e => Thrown e
      | Returned scores =>
          Returned {| data := finalResults (diversify env finalLimit (scored env f scores candidates)) |}
      end
  end.

(** The lazy full-text index: tried once, a failure only logged. *)
Definition ensureFts (h : Host) (s : State) : State :=
  if ftsIndexChecked s then s
  else
    let s := {| ftsIndexChecked := true; console := console s |} in
    match createFTSIndex h with
    | Returned _ => s
    | Thrown e => warn ("[Searcher] Failed to ensure FTS index: " ++ e) s
    end.

Definition whereClause (h : Host) (pathPrefix : option string) : option string :=
  match pathPrefix with
  | Some prefix =>
      if nonempty prefix
      then Some ("path LIKE '" ++ escapeSqlString h (normalizePath h prefix) ++ "%'")
      else None
  | None => None
  end.

(** [search(query, top_k, { rerank }, _filters, pathPrefix)]. *)
Definition search (h : Host) (s : State) (query : string) (top_k : option Z)
    (rerankOption : option bool) (pathPrefix : option string)
    : outcome SearchResponse * State :=
  let finalLimit := default 10 top_k in
  let doRerank := default true rerankOption in
  match encodeQuery h query with
  | Thrown e => (Thrown e, s)
  | Returned enc =>
      let s :=
        if colbertDim enc =? COLBERT_DIM h then s
        else warn ("[Searcher] Warning: Query ColBERT dim (" ++ pretty (colbertDim enc)
                   ++ ") != Config (" ++ pretty (COLBERT_DIM h) ++ ")") s in
      let clause := whereClause h pathPrefix in
      let preK := PRE_RERANK_K (process_env h) finalLimit in
      match ensureTable h with
      | Thrown _ => (Returned {| data := [] |}, s)
      | Returned table =>
          let s := ensureFts h s in
          match vectorSearch table (dense enc) preK clause with
          | Thrown e => (Thrown e, s)
          | Returned vectorResults =>
              let '(ftsResults, s) :=
                match ftsSearch table query preK clause with
                | Returned rows => (rows, s)
                | Thrown msg => ([], warn ("[Searcher] FTS search failed: " ++ msg) s)
                end in
              (rank h enc finalLimit doRerank vectorResults ftsResults, s)
          end
      end
  end.

End Searcher.

(** ** The meta store: a JSON file written through a sibling [.tmp] *)
Module MetaStore.
Import JS.

(** The files the store can see, and the paths that refuse a write. *)
Record Disk : Type := {
  files : gmap string string;
  denied : gset string
}.

(** An operation on the disk that may throw; the disk it leaves behind is
    kept in both cases. *)
Definition IO (A : Type) : Type := Disk → outcome A * Disk.

Definition io_ret {A : Type} (a : A) : IO A := λ d, (Returned a, d).

Definition io_bind {A B : Type} (m : IO A) (k : A → IO B) : IO B :=
  λ d, match m d with
       | (Returned a, d') => k a d'
       | (Thrown e, d') => (Thrown e, d')
       end.

(** [try { body } catch (err) { handler(err) }]. *)
Definition io_try {A : Type} (body : IO A) (handler : string → IO A) : IO A :=
  λ d, match body d with
       | (Returned a, d') => (Returned a, d')
       | (Thrown e, d') => handler e d'
       end.

Definition io_throw {A : Type} (e : string) : IO A := λ d, (Thrown e, d).

#[global] Instance io_mret : MRet IO := @io_ret.
#[global] Instance io_mbind : MBind IO := λ A B k m, io_bind m k.

Definition with_files (d : Disk) (fs : gmap string string) : Disk :=
  {| files := fs; denied := denied d |}.

Definition readFile (p : string) : IO string :=
  λ d, match files d !! p with
       | Some c => (Returned c, d)
       | None => (Thrown ("ENOENT: " ++ p), d)
       end.

Definition writeFile (p content : string) : IO unit :=
  λ d, if decide (p ∈ denied d) then (Thrown ("EACCES: " ++ p), d)
       else (Returned (), with_files d (<[p := content]> (files d))).

Definition rename (from to : string) : IO unit :=
  λ d, match files d !! from with
       | None => (Thrown ("ENOENT: " ++ from), d)
       | Some c =>
           if decide (to ∈ denied d) then (Thrown ("EACCES: " ++ to), d)
           else (Returned (), with_files d (<[to := c]> (delete from (files d))))
       end.

Definition copyFile (from to : string) : IO unit :=
  c ← readFile from; writeFile to c.

Definition existsSync (p : string) : IO bool :=
  λ d, (Returned (bool_decide (is_Some (files d !! p))), d).

(** [mkdir(dir, { recursive: true })]; directories are not part of the
    disk. *)
Definition mkdir (dir : string) : IO unit := mret ().

(** What [JSON.parse] builds. *)
#[warnings="-register-all"]
Inductive json : Type :=
| JNull
| JBool (b : bool)
| JNumber (n : number)
| JString (s : string)
| JArray (items : list json)
| JObject (props : list (string * json)).

Record MetaEntry : Type := {
  hash : string;
  mtimeMs : Q;
  size : Q
}.

(** [value.name] on a parsed value other than [null]. *)
Definition property (value : json) (name : string) : option json :=
  match value with
  | JObject props => Map.get props name
  | _ => None
  end.

Definition finiteOrZero (v : option json) : Q :=
  match v with
  | Some (JNumber (Finite q)) => q
  | _ => 0%Q
  end.

Definition normalizeEntry (value : json) : outcome MetaEntry :=
  match value with
  | JString s => Returned {| hash := s; mtimeMs := 0; size := 0 |}
  | JNull => Thrown "TypeError: Cannot read properties of null (reading 'hash')"
  | _ =>
      Returned
        {| hash :=
             match property value "hash" with Some (JString s) => s | _ => EmptyString end;
           mtimeMs := finiteOrZero (property value "mtimeMs");
           size := finiteOrZero (property value "size") |}
  end.

Fixpoint characters (s : string) : list json :=
  match s with
  | EmptyString => []
  | String c s' => JString (String c EmptyString) :: characters s'
  end.

Definition Object_entries (raw : json) : outcome (list (string * json)) :=
  match raw with
  | JNull => Thrown "TypeError: Cannot convert undefined or null to object"
  | JObject props => Returned props
  | JArray items => Returned (imap (λ i x, (pretty i, x)) items)
  | JString s => Returned (imap (λ i x, (pretty i, x)) (characters s))
  | JBool _ | JNumber _ => Returned []
  end.

(** [entries.map(([filePath, value]) => [filePath, normalizeEntry(value)])]. *)
Fixpoint normalizeEntries (entries : list (string * json)) : outcome (list (string * MetaEntry)) :=
  match entries with
  | [] => Returned []
  | (filePath, value) :: rest =>
      match normalizeEntry value with
      | Thrown e => Thrown e
      | Returned entry =>
          match normalizeEntries rest with
          | Thrown e => Thrown e
          | Returned rest' => Returned ((filePath, entry) :: rest')
          end
      end
  end.

Definition Object_fromEntries (entries : list (string * MetaEntry)) : gmap string MetaEntry :=
  foldl (λ m e, <[e.1 := e.2]> m) ∅ entries.

Record Store : Type := {
  data : gmap string MetaEntry;
  loaded : bool;
  saveQueue : outcome unit;
  console : list string
}.

(** [new MetaStore()]. *)
Definition fresh : Store :=
  {| data := ∅; loaded := false; saveQueue := Returned (); console := [] |}.

Section store.
Context (META_FILE : string).
Context (JSON_parse : string → outcome json).
Context (JSON_stringify : gmap string MetaEntry → string).

Definition tmpFile : string := META_FILE ++ ".tmp".

Definition lift {A : Type} (o : outcome A) : IO A := λ d, (o, d).

Definition loadFile (p : string) : IO json :=
  content ← readFile p; lift (JSON_parse content).

(** Read one file into the shape of [this.data]. *)
Definition readData (p : string) : IO (gmap string MetaEntry) :=
  raw ← loadFile p;
  entries ← lift (Object_entries raw);
  normalized ← lift (normalizeEntries entries);
  mret (Object_fromEntries normalized).

Definition log (msg : string) (st : Store) : Store :=
  {| data := data st; loaded := loaded st; saveQueue := saveQueue st;
     console := (console st ++ [msg])%list |}.

Definition set_data (st : Store) (m : gmap string MetaEntry) : Store :=
  {| data := m; loaded := loaded st; saveQueue := saveQueue st; console := console st |}.

Definition set_loaded (st : Store) : Store :=
  {| data := data st; loaded := true; saveQueue := saveQueue st; console := console st |}.

Definition load (st : Store) : IO Store :=
  if loaded st then mret st
  else
    st ←
      io_try (m ← readData META_FILE; mret (set_data st m))
        (λ err,
           let warned :=
             log "[MetaStore] Main meta file corrupt/missing, recovering from tmp..." st in
           io_try
             (found ← existsSync tmpFile;
              if found : bool then
                m ← readData tmpFile;
                _ ← copyFile tmpFile META_FILE;
                mret (set_data warned m)
              else mret (set_data st ∅))
             (λ _, mret (set_data warned ∅)));
    mret (set_loaded st).

(** The body chained on the queue. *)
Definition writeSnapshot (st : Store) : IO unit :=
  _ ← mkdir META_FILE;
  _ ← writeFile tmpFile (JSON_stringify (data st));
  rename tmpFile META_FILE.

(** [save()]: [saveQueue.catch(log).then(writeSnapshot)], run to its end. *)
Definition save (st : Store) (d : Disk) : Store * Disk :=
  let st :=
    match saveQueue st with
    | Thrown err => log ("MetaStore save failed (previous): " ++ err) st
    | Returned _ => st
    end in
  let '(result, d') := writeSnapshot st d in
  ({| data := data st; loaded := loaded st; saveQueue := result; console := console st |}, d').

(** [this.data[filePath]], for a path that names no property of
    [Object.prototype]. *)
Definition get (st : Store) (filePath : string) : option MetaEntry := data st !! filePath.

Definition set (st : Store) (filePath : string) (entry : MetaEntry) : Store :=
  set_data st (<[filePath := entry]> (data st)).

(** What the body of [load] makes of the content of a file:
    [JSON.parse], then [Object.entries], [normalizeEntry] on each and
    [Object.fromEntries]. *)
Definition parseData (content : string) : outcome (gmap string MetaEntry) :=
  match JSON_parse content with
  | Thrown e => Thrown e
  | Returned raw =>
      match Object_entries raw with
      | Thrown e => Thrown e
      | Returned entries =>
          match normalizeEntries entries with
          | Thrown e => Thrown e
          | Returned normalized => Returned (Object_fromEntries normalized)
          end
      end
  end.

(** The file [p] is there and its content gives entries. *)
Definition readable (p : string) (d : Disk) : bool :=
  match files d !! p with
  | Some content => returned (parseData content)
  | None => false
  end.

(** *** The save queue, one [await] at a time

    [save] only chains its body on [saveQueue]; the body runs later, from
    one [await] to the next, and calls of [save] and [set] come in
    between. A [Run] is the store and the disk with the bodies chained
    so far; [snapshots] keeps the entries they handed to [writeFile]. *)

(** Where a chained body stands: its turn has not come, it is about to
    make one of its three calls, or its promise has settled. *)
Inductive Task : Type :=
| Chained
| AtMkdir
| AtWriteFile
| AtRename
| Settled (result : outcome unit).

Record Run : Type := {
  store : Store;
  disk : Disk;
  tasks : list Task;
  snapshots : list (gmap string MetaEntry)
}.

Definition start (st : Store) (d : Disk) : Run :=
  {| store := st; disk := d; tasks := []; snapshots := [] |}.

(** The promise the body [i] is chained on: that of the body before it,
    and for the first [saveQueue] as the run found it. *)
Definition chainedOn (r : Run) (i : nat) : option Task :=
  match i with
  | O => Some (Settled (saveQueue (store r)))
  | S j => tasks r !! j
  end.

Definition with_task (r : Run) (i : nat) (t : Task) (d : Disk) : Run :=
  {| store := store r; disk := d; tasks := <[i := t]> (tasks r); snapshots := snapshots r |}.

(** The body [i] makes the call [io]: it goes on to [next], or its
    promise is rejected. *)
Definition await (r : Run) (i : nat) (io : IO unit) (next : Task) : Run :=
  match io (disk r) with
  | (Returned _, d) => with_task r i next d
  | (Thrown e, d) => with_task r i (Settled (Thrown e)) d
  end.

(** The event loop turns to the body [i]. A chained body starts when the
    promise it is chained on has settled, after the [catch] has logged a
    rejection; a body that has started makes its next call. *)
Definition resume (i : nat) (r : Run) : Run :=
  match tasks r !! i with
  | Some Chained =>
      match chainedOn r i with
      | Some (Settled previous) =>
          let st :=
            match previous with
            | Thrown err => log ("MetaStore save failed (previous): " ++ err) (store r)
            | Returned _ => store r
            end in
          {| store := st; disk := disk r; tasks := <[i := AtMkdir]> (tasks r);
             snapshots := snapshots r |}
      | _ => r
      end
  | Some AtMkdir => await r i (mkdir META_FILE) AtWriteFile
  | Some AtWriteFile =>
      await {| store := store r; disk := disk r; tasks := tasks r;
               snapshots := (snapshots r ++ [data (store r)])%list |}
        i (writeFile tmpFile (JSON_stringify (data (store r)))) AtRename
  | Some AtRename => await r i (rename tmpFile META_FILE) (Settled (Returned ()))
  | Some (Settled _) | None => r
  end.

Inductive Event : Type :=
| CallSave
| CallSet (filePath : string) (entry : MetaEntry)
| Resume (i : nat).

Definition step (e : Event) (r : Run) : Run :=
  match e with
  | CallSave =>
      {| store := store r; disk := disk r; tasks := (tasks r ++ [Chained])%list;
         snapshots := snapshots r |}
  | CallSet filePath entry =>
      {| store := set (store r) filePath entry; disk := disk r; tasks := tasks r;
         snapshots := snapshots r |}
  | Resume i => resume i r
  end.

Definition run (events : list Event) (r : Run) : Run := foldl (λ r e, step e r) r events.

Definition is_chained (t : Task) : bool :=
  match t with Chained => true | _ => false end.

(** The bodies run one after the other: those that have settled, then
    at most one that has started, then those whose turn has not come. *)
Fixpoint serialized (ts : list Task) : bool :=
  match ts with
  | [] => true
  | Settled _ :: ts' => serialized ts'
  | _ :: ts' => forallb is_chained ts'
  end.

(** The body at [i] has the turn: it has started, or it is chained on a
    promise that has settled. *)
Definition has_turn (ts : list Task) (i : nat) (t : Task) : Prop :=
  match t with
  | AtMkdir | AtWriteFile | AtRename => True
  | Chained =>
      match i with
      | O => True
      | S j => ∃ result, ts !! j = Some (Settled result)
      end
  | Settled _ => False
  end.

(** The disk a process leaves when it dies during the run: the disk as
    it is, or, when it dies inside [writeFile], the [.tmp] file cut short
    after [n] characters. *)
Definition crashed (r : Run) (torn : option nat) : Disk :=
  match torn with
  | Some n =>
      if existsb (λ t, match t with AtWriteFile => true | _ => false end) (tasks r)
      then (writeFile tmpFile (substring 0 n (JSON_stringify (data (store r)))) (disk r)).2
      else disk r
  | None => disk r
  end.

(** What every run keeps true: the bodies are in order; the main file
    is what it was at the start or the whole text of a snapshot; and
    while a body stands before its [rename], the [.tmp] file is the
    whole text of a snapshot. *)
Definition run_ok (d0 : Disk) (r : Run) : Prop :=
  serialized (tasks r) = true ∧
  (files (disk r) !! META_FILE = files d0 !! META_FILE ∨
   ∃ m, m ∈ snapshots r ∧ files (disk r) !! META_FILE = Some (JSON_stringify m)) ∧
  (AtRename ∈ tasks r →
   ∃ m, m ∈ snapshots r ∧ files (disk r) !! tmpFile = Some (JSON_stringify m)).

End store.
End MetaStore.

(** ** The meta store: removing entries *)
Module MetaStoreEntries.
Import JS MetaStore.

(** [key.startsWith(prefix)]. *)
Definition startsWith (s prefix : string) : bool := String.prefix prefix s.

(** [delete(filePath)]. *)
Definition delete (st : Store) (filePath : string) : Store :=
  set_data st (delete filePath (data st)).

(** [deleteByPrefix(prefix)]; [sep] is [path.sep]. The loop runs over the
    keys the object had when it started. *)
Definition deleteByPrefix (sep : string) (st : Store) (prefix : string) : Store :=
  let normalizedPrefix := if endsWith prefix sep then prefix else prefix ++ sep in
  set_data st
    (foldl (λ data key, if startsWith key normalizedPrefix then base.delete key data else data)
       (data st) (map_to_list (data st)).*1).

(** What [JSON.stringify] writes for an entry, and for the entries of a
    store, once parsed again: an object of one property per path, each an
    object of the three fields. *)
Definition entry_json (entry : MetaEntry) : json :=
  JObject [("hash", JString (hash entry));
           ("mtimeMs", JNumber (Finite (mtimeMs entry)));
           ("size", JNumber (Finite (size entry)))].

Definition data_json (data : gmap string MetaEntry) : json :=
  JObject (prod_map id entry_json <$> map_to_list data).

End MetaStoreEntries.

(** ** The worker manager: restart of a slot and the embedding cache *)
Module WorkerManager.
Import JS.

Abbreviation vector := (list Q).

(** A worker thread and a promise are known by a handle. *)
Abbreviation Worker := nat.
Abbreviation Promise := nat.

(** Modelled from the spec: the class [LRUCache] of "./lru" is not among
    the sources. §4.3: a bounded mapping from input text to embedding
    vector with a configured capacity; on overflow the least recently
    used entry is evicted. The entries are kept most recently used first;
    the key [None] is JavaScript's [undefined]. *)
Record LRUCache : Type := {
  capacity : nat;
  entries : list (option string * vector)
}.

Definition same_key (k : option string) (e : option string * vector) : bool :=
  bool_decide (e.1 = k).

Definition lru_find (c : LRUCache) (k : option string) : option vector :=
  snd <$> List.find (same_key k) (entries c).

Definition lru_without (c : LRUCache) (k : option string) : list (option string * vector) :=
  List.filter (λ e, negb (same_key k e)) (entries c).

(** [cache.get(key)]: a hit becomes the most recently used entry. *)
Definition lru_get (c : LRUCache) (k : option string) : option vector * LRUCache :=
  match lru_find c k with
  | Some v => (Some v, {| capacity := capacity c; entries := (k, v) :: lru_without c k |})
  | None => (None, c)
  end.

(** [cache.set(key, value)]. *)
Definition lru_set (c : LRUCache) (k : option string) (v : vector) : LRUCache :=
  {| capacity := capacity c; entries := take (capacity c) ((k, v) :: lru_without c k) |}.

Inductive WorkerRequest : Type :=
| EmbedSingle (id : string) (text : string)
| EmbedBatch (id : string) (texts : list string)
| Rerank (id : string) (query : string) (documents : list string).

Record PendingRequest : Type := {
  payload : WorkerRequest;
  workerIndex : nat
}.

(** What the manager does to the world outside its fields. *)
Inductive Effect : Type :=
| Spawned (slot : nat) (w : Worker)
| TerminateCalled (w : Worker)
| Rejected (id : string) (error : string)
| Warned (msg : string).

Record Manager : Type := {
  workers : list (option Worker);
  vectorCache : LRUCache;
  pendingRequests : list (string * PendingRequest);
  restartInFlight : gmap nat Promise;
  (** restarts suspended at [await worker.terminate()]: their promise and
      the reason they were started with *)
  terminating : gmap nat (Promise * option string);
  isClosing : bool;
  nextWorkerIndex : nat;
  (** restart promises that have resolved *)
  settled : gset Promise;
  (** the next unused handle *)
  next_handle : nat;
  effects : list Effect
}.

(** [array[i] = x]: a write past the end extends the array with holes. *)
Definition array_set {A : Type} (l : list (option A)) (i : nat) (x : option A) : list (option A) :=
  if (i <? length l)%nat then <[i := x]> l
  else (l ++ replicate (i - length l) None ++ [x])%list.

Definition with_workers (m : Manager) (ws : list (option Worker)) : Manager :=
  {| workers := ws; vectorCache := vectorCache m; pendingRequests := pendingRequests m;
     restartInFlight := restartInFlight m; terminating := terminating m;
     isClosing := isClosing m;
     nextWorkerIndex := nextWorkerIndex m; settled := settled m;
     next_handle := next_handle m; effects := effects m |}.

Definition with_cache (m : Manager) (c : LRUCache) : Manager :=
  {| workers := workers m; vectorCache := c; pendingRequests := pendingRequests m;
     restartInFlight := restartInFlight m; terminating := terminating m;
     isClosing := isClosing m;
     nextWorkerIndex := nextWorkerIndex m; settled := settled m;
     next_handle := next_handle m; effects := effects m |}.

Definition with_pending (m : Manager) (ps : list (string * PendingRequest)) : Manager :=
  {| workers := workers m; vectorCache := vectorCache m; pendingRequests := ps;
     restartInFlight := restartInFlight m; terminating := terminating m;
     isClosing := isClosing m;
     nextWorkerIndex := nextWorkerIndex m; settled := settled m;
     next_handle := next_handle m; effects := effects m |}.

Definition with_inFlight (m : Manager) (r : gmap nat Promise) : Manager :=
  {| workers := workers m; vectorCache := vectorCache m; pendingRequests := pendingRequests m;
     restartInFlight := r; terminating := terminating m; isClosing := isClosing m;
     nextWorkerIndex := nextWorkerIndex m; settled := settled m;
     next_handle := next_handle m; effects := effects m |}.

Definition settle (p : Promise) (m : Manager) : Manager :=
  {| workers := workers m; vectorCache := vectorCache m; pendingRequests := pendingRequests m;
     restartInFlight := restartInFlight m; terminating := terminating m;
     isClosing := isClosing m;
     nextWorkerIndex := nextWorkerIndex m; settled := {[p]} ∪ settled m;
     next_handle := next_handle m; effects := effects m |}.

Definition emit (e : Effect) (m : Manager) : Manager :=
  {| workers := workers m; vectorCache := vectorCache m; pendingRequests := pendingRequests m;
     restartInFlight := restartInFlight m; terminating := terminating m;
     isClosing := isClosing m;
     nextWorkerIndex := nextWorkerIndex m; settled := settled m;
     next_handle := next_handle m; effects := (effects m ++ [e])%list |}.

(** A handle nobody holds yet. *)
Definition new_handle (m : Manager) : nat * Manager :=
  (next_handle m,
   {| workers := workers m; vectorCache := vectorCache m; pendingRequests := pendingRequests m;
      restartInFlight := restartInFlight m; terminating := terminating m;
      isClosing := isClosing m;
      nextWorkerIndex := nextWorkerIndex m; settled := settled m;
      next_handle := S (next_handle m); effects := effects m |}).

(** [createWorker(index)]: a new thread in the slot; its handlers are the
    steps below. *)
Definition createWorker (index : nat) (m : Manager) : Manager :=
  let '(w, m) := new_handle m in
  emit (Spawned index w) (with_workers m (array_set (workers m) index (Some w))).

Definition rejectPendingForWorker (index : nat) (error : string) (m : Manager) : Manager :=
  foldl (λ m e,
           if (workerIndex e.2 =? index)%nat
           then emit (Rejected e.1 error)
                  (with_pending m (List.filter (λ e', negb (String.eqb e'.1 e.1)) (pendingRequests m)))
           else m)
        m (pendingRequests m).

(** The rest of the restart once [worker.terminate()] has settled, or at
    once when the slot holds no worker. *)
Definition replaceWorker (index : nat) (reason : option string) (p : Promise) (m : Manager)
    : Manager :=
  let m := with_workers m (array_set (workers m) index None) in
  let m := createWorker index m in
  let m :=
    match reason with
    | Some r =>
        if nonempty r
        then emit (Warned ("Worker " ++ pretty index ++ " restarted due to " ++ r)) m
        else m
    | None => m
    end in
  settle p m.

Definition reasonText (reason : option string) : string :=
  match reason with
  | Some r => if nonempty r then r else "unknown reason"
  | None => "unknown reason"
  end.

Definition with_terminating (m : Manager) (t : gmap nat (Promise * option string)) : Manager :=
  {| workers := workers m; vectorCache := vectorCache m; pendingRequests := pendingRequests m;
     restartInFlight := restartInFlight m; terminating := t; isClosing := isClosing m;
     nextWorkerIndex := nextWorkerIndex m; settled := settled m;
     next_handle := next_handle m; effects := effects m |}.

(** [restartWorker(workerIndex, reason)] up to its first suspension; the
    promise is the restart the caller now waits for. *)
Definition restartWorker (index : nat) (reason : option string) (m : Manager)
    : Promise * Manager :=
  match restartInFlight m !! index with
  | Some inFlight => (inFlight, m)
  | None =>
      let m := rejectPendingForWorker index ("Worker restarting: " ++ reasonText reason) m in
      let '(restartPromise, m) := new_handle m in
      let m :=
        match mjoin (workers m !! index) with
        | Some worker =>
            with_terminating (emit (TerminateCalled worker) m)
              (<[index := (restartPromise, reason)]> (terminating m))
        | None => replaceWorker index reason restartPromise m
        end in
      (restartPromise, with_inFlight m (<[index := restartPromise]> (restartInFlight m)))
  end.

(** [await worker.terminate()] has settled inside the restart of the
    slot; a rejection is only logged. *)
Definition terminateSettled (index : nat) (failure : option string) (m : Manager) : Manager :=
  match terminating m !! index with
  | Some (p, reason) =>
      let m := with_terminating m (delete index (terminating m)) in
      let m :=
        match failure with
        | Some err => emit (Warned ("Failed to terminate worker cleanly: " ++ err)) m
        | None => m
        end in
      replaceWorker index reason p m
  | None => m
  end.

(** The first caller resumes after [await restartPromise]. *)
Definition restartResumed (index : nat) (m : Manager) : Manager :=
  match restartInFlight m !! index with
  | Some p =>
      if decide (p ∈ settled m) then with_inFlight m (delete index (restartInFlight m)) else m
  | None => m
  end.

(** [getWorkerCount()] on a machine with [cpus] logical processors. *)
Definition getWorkerCount (cpus : Z) : Z := Z.max 1 (Z.min (cpus - 1) 4).

(** [new WorkerManager()]. *)
Definition create (cpus : Z) (cacheSize : nat) : Manager :=
  foldl (λ m i, createWorker i m)
    {| workers := []; vectorCache := {| capacity := cacheSize; entries := [] |};
       pendingRequests := []; restartInFlight := ∅; terminating := ∅;
       isClosing := false; nextWorkerIndex := 0%nat; settled := ∅;
       next_handle := 0%nat; effects := [] |}
    (seq 0 (Z.to_nat (getWorkerCount cpus))).

(** How many threads were started in a slot, and how many were asked to
    stop. *)
Definition spawns (index : nat) (es : list Effect) : nat :=
  length (List.filter (λ e, match e with Spawned i _ => (i =? index)%nat | _ => false end) es).

Definition terminations (es : list Effect) : nat :=
  length (List.filter (λ e, match e with TerminateCalled _ => true | _ => false end) es).

(** The requests waiting on a slot. *)
Definition pendingOn (index : nat) (m : Manager) : list (string * PendingRequest) :=
  List.filter (λ e, (workerIndex e.2 =? index)%nat) (pendingRequests m).

(** What the restart bookkeeping keeps true: a suspended restart is the
    one in flight for its slot and has not resolved; restart promises are
    handles already handed out, one per slot. *)
Definition consistent (m : Manager) : Prop :=
  (∀ i p r, terminating m !! i = Some (p, r) →
     restartInFlight m !! i = Some p ∧ p ∉ settled m) ∧
  (∀ i p, restartInFlight m !! i = Some p → (p < next_handle m)%nat) ∧
  (∀ i j p, restartInFlight m !! i = Some p → restartInFlight m !! j = Some p → i = j) ∧
  (∀ p, p ∈ settled m → (p < next_handle m)%nat).

(** *** getEmbeddings *)

(** The locals of [getEmbeddings]; a hole of [results] is [None]. *)
Record Embedding : Type := {
  neededIndices : list nat;
  neededTexts : list string;
  results : list (option vector)
}.

(** The first loop: every text is looked up in the cache. *)
Definition lookupText (text : string) (i : nat) (st : Embedding * LRUCache) : Embedding * LRUCache :=
  let '(e, cache) := st in
  match lru_get cache (Some text) with
  | (Some cached, cache) =>
      ({| neededIndices := neededIndices e; neededTexts := neededTexts e;
          results := <[i := Some cached]> (results e) |}, cache)
  | (None, cache) =>
      ({| neededIndices := (neededIndices e ++ [i])%list;
          neededTexts := (neededTexts e ++ [text])%list;
          results := results e |}, cache)
  end.

(** The second loop: the computed vectors are cached and put in place. *)
Definition storeVector (e : Embedding) (v : vector) (i : nat) (st : list (option vector) * LRUCache)
    : list (option vector) * LRUCache :=
  let '(results, cache) := st in
  let cache := lru_set cache (neededTexts e !! i) v in
  match neededIndices e !! i with
  | Some originalIndex => (<[originalIndex := Some v]> results, cache)
  | None => (results, cache)
  end.

(** Where [getEmbeddings] stands at its one [await]. *)
Inductive Progress : Type :=
| Done (results : list (option vector))
| SendToWorker (texts : list string) (e : Embedding).

Definition getEmbeddings_begin (texts : list string) (m : Manager) : Progress * Manager :=
  let start :=
    {| neededIndices := []; neededTexts := []; results := replicate (length texts) None |} in
  let '(e, cache) := forEach lookupText texts (start, vectorCache m) in
  let m := with_cache m cache in
  match neededTexts e with
  | [] => (Done (results e), m)
  | _ => (SendToWorker (neededTexts e) e, m)
  end.

Definition getEmbeddings_resume (e : Embedding) (reply : outcome (list vector)) (m : Manager)
    : outcome (list (option vector)) * Manager :=
  match reply with
  | Thrown err => (Thrown err, m)
  | Returned computedVectors =>
      let '(results, cache) :=
        forEach (storeVector e) computedVectors (results e, vectorCache m) in
      (Returned results, with_cache m cache)
  end.

(** [getEmbeddings(texts)] against a pool that answers a batch with
    [sendToWorker]. *)
Definition getEmbeddings (sendToWorker : list string → outcome (list vector))
    (texts : list string) (m : Manager) : outcome (list (option vector)) * Manager :=
  match getEmbeddings_begin texts m with
  | (Done results, m) => (Returned results, m)
  | (SendToWorker needed e, m) => getEmbeddings_resume e (sendToWorker needed) m
  end.

(** In the words of the specification: the vector the cache holds for a
    text, the texts it holds none for, and one vector for each text in
    its place, from the cache or else the next one computed. *)
Definition cached (c : LRUCache) (text : string) : option vector := lru_find c (Some text).

Definition uncached (c : LRUCache) (texts : list string) : list string :=
  List.filter (λ text, match cached c text with Some _ => false | None => true end) texts.

Fixpoint served (c : LRUCache) (texts : list string) (computed : list vector)
    : list (option vector) :=
  match texts with
  | [] => []
  | text :: rest =>
      match cached c text with
      | Some v => Some v :: served c rest computed
      | None => head computed :: served c rest (tail computed)
      end
  end.

(** The places of the texts the cache holds no vector for, counted from
    [first]. *)
Fixpoint holes (c : LRUCache) (first : nat) (texts : list string) : list nat :=
  match texts with
  | [] => []
  | text :: rest =>
      match cached c text with
      | Some _ => holes c (S first) rest
      | None => first :: holes c (S first) rest
      end
  end.

(** The second loop as far as [results] goes. *)
Definition place (indices : list nat) (v : vector) (i : nat) (results : list (option vector))
    : list (option vector) :=
  match indices !! i with
  | Some originalIndex => <[originalIndex := Some v]> results
  | None => results
  end.

End WorkerManager.

(** ** The worker manager: routing, replies and shutdown *)
Module WorkerEvents.
Import JS WorkerManager.

(** [MAX_WORKER_RSS], in bytes. *)
Definition MAX_WORKER_RSS : Z := 6 * 1024 * 1024 * 1024.

(** A message of a worker, [{ id, vector, vectors, scores, error, memory }];
    a field it does not carry is [None], and [memory] is its [rss]. *)
Record Message : Type := {
  msg_id : string;
  msg_vector : option vector;
  msg_vectors : option (list vector);
  msg_scores : option (list Q);
  msg_error : option string;
  msg_memory : option Z
}.

(** What a caller's promise is resolved with. *)
Inductive Reply : Type :=
| Vectors (vectors : list vector)
| Scores (scores : list Q)
| Vector (v : option vector).

(** How the promise of a request was settled by a reply or by its timer;
    the rejections of a restart are effects of the manager. *)
Inductive Settlement : Type :=
| Resolved (id : string) (value : Reply)
| Failed (id : string) (error : string).

(** What [postMessage] hands to a worker. *)
Inductive Post : Type :=
| Request (payload : WorkerRequest)
| Shutdown.

(** The manager together with what its callers and workers have seen. *)
Record Pool : Type := {
  manager : Manager;
  settlements : list Settlement;
  posted : list (Worker * Post)
}.

Definition with_manager (p : Pool) (m : Manager) : Pool :=
  {| manager := m; settlements := settlements p; posted := posted p |}.

Definition settled_with (s : Settlement) (p : Pool) : Pool :=
  {| manager := manager p; settlements := (settlements p ++ [s])%list; posted := posted p |}.

Definition post (w : Worker) (msg : Post) (p : Pool) : Pool :=
  {| manager := manager p; settlements := settlements p;
     posted := (posted p ++ [(w, msg)])%list |}.

Definition with_next (m : Manager) (next : nat) : Manager :=
  {| workers := workers m; vectorCache := vectorCache m; pendingRequests := pendingRequests m;
     restartInFlight := restartInFlight m; terminating := terminating m;
     isClosing := isClosing m;
     nextWorkerIndex := next; settled := settled m;
     next_handle := next_handle m; effects := effects m |}.

Definition with_isClosing (m : Manager) (closing : bool) : Manager :=
  {| workers := workers m; vectorCache := vectorCache m; pendingRequests := pendingRequests m;
     restartInFlight := restartInFlight m; terminating := terminating m;
     isClosing := closing;
     nextWorkerIndex := nextWorkerIndex m; settled := settled m;
     next_handle := next_handle m; effects := effects m |}.

(** [pendingRequests.delete(id)]. *)
Definition forget (id : string) (m : Manager) : Manager :=
  with_pending m (List.filter (λ e, negb (String.eqb e.1 id)) (pendingRequests m)).

(** *** getNextWorker *)

(** Where [getNextWorker] stands: it returned a worker, it waits for the
    restart of the slot [index] in iteration [i], or it threw. *)
Inductive Routing : Type :=
| Routed (worker : Worker) (index : nat)
| AwaitRestart (restart : Promise) (i index : nat)
| NoWorker (error : string).

(** The loop from iteration [i], of which [fuel] are left; [resumed] is
    the index of an iteration that has waited for its restart. *)
Fixpoint getNextWorker_loop (total fuel i : nat) (resumed : option nat) (m : Manager)
    : Routing * Manager :=
  match fuel with
  | O => (NoWorker "No available workers", m)
  | S fuel =>
      let index := default ((nextWorkerIndex m + i) mod total)%nat resumed in
      match (match resumed with Some _ => None | None => restartInFlight m !! index end) with
      | Some restartPromise => (AwaitRestart restartPromise i index, m)
      | None =>
          match mjoin (workers m !! index) with
          | Some worker => (Routed worker index, with_next m ((index + 1) mod total)%nat)
          | None => getNextWorker_loop total fuel (S i) None m
          end
      end
  end.

Definition getNextWorker (m : Manager) : Routing * Manager :=
  let total := length (workers m) in
  if (total =? 0)%nat then (NoWorker "No workers available", m)
  else getNextWorker_loop total total 0 None m.

(** The call goes on after [await restartPromise]. *)
Definition getNextWorker_resume (total i index : nat) (m : Manager) : Routing * Manager :=
  getNextWorker_loop total (total - i) i (Some index) m.

(** [n] calls one after the other, none of which has to wait: the slots
    they were given. *)
Fixpoint routes (n : nat) (m : Manager) : list nat :=
  match n with
  | O => []
  | S n =>
      match getNextWorker m with
      | (Routed _ index, m) => index :: routes n m
      | _ => []
      end
  end.

(** *** sendToWorker *)

(** The body of the promise in [sendToWorker], once [getNextWorker] has
    given [worker] and [index]; [id] is the fresh [uuidv4()]. *)
Definition dispatch (id : string) (buildPayload : string → WorkerRequest)
    (worker : Worker) (index : nat) (p : Pool) : Pool :=
  let payload := buildPayload id in
  let m := manager p in
  post worker (Request payload)
    (with_manager p
       (with_pending m
          (Map.set (pendingRequests m) id {| payload := payload; workerIndex := index |}))).

(** The timer of the request [id] fires. *)
Definition onTimeout (WORKER_TIMEOUT_MS : Z) (id : string) (p : Pool) : Pool :=
  match Map.get (pendingRequests (manager p)) id with
  | Some _ =>
      settled_with
        (Failed id ("Worker request timed out after " ++ pretty WORKER_TIMEOUT_MS ++ "ms"))
        (with_manager p (forget id (manager p)))
  | None => p
  end.

(** *** The handlers of a worker *)

(** [Math.round(rss / 1024 / 1024)]. *)
Definition megabytes (rss : Z) : Z := (2 * rss + 1048576) `div` 2097152.

(** What the message handler settles the promise with: [error] when it
    is truthy, or else [vectors], [scores] or [vector], the first that is
    not [undefined]. *)
Definition resolution (msg : Message) : Settlement :=
  let id := msg_id msg in
  let value :=
    match msg_vectors msg, msg_scores msg with
    | Some vectors, _ => Vectors vectors
    | None, Some scores => Scores scores
    | None, None => Vector (msg_vector msg)
    end in
  match msg_error msg with
  | Some error => if nonempty error then Failed id error else Resolved id value
  | None => Resolved id value
  end.

(** [worker.on("message", ...)] of the worker in slot [index]. *)
Definition onMessage (index : nat) (msg : Message) (p : Pool) : Pool :=
  let id := msg_id msg in
  let p :=
    match Map.get (pendingRequests (manager p)) id with
    | Some pending =>
        if (workerIndex pending =? index)%nat
        then settled_with (resolution msg) (with_manager p (forget id (manager p)))
        else p
    | None => p
    end in
  match msg_memory msg with
  | Some rss =>
      if MAX_WORKER_RSS <? rss then
        let m :=
          emit (Warned ("Worker " ++ pretty index ++ " memory usage high ("
                        ++ pretty (megabytes rss) ++ "MB). Restarting...")) (manager p) in
        with_manager p (restartWorker index (Some "memory limit exceeded") m).2
      else p
  | None => p
  end.

(** [worker.on("error", ...)]. *)
Definition onError (index : nat) (message : string) (p : Pool) : Pool :=
  let m := emit (Warned ("Worker " ++ pretty index ++ " error: " ++ message)) (manager p) in
  with_manager p (restartWorker index (Some ("worker error: " ++ message)) m).2.

(** [worker.on("exit", ...)]. *)
Definition onExit (index : nat) (code : Z) (p : Pool) : Pool :=
  if negb (code =? 0) && negb (isClosing (manager p)) then
    let m :=
      emit (Warned ("Worker " ++ pretty index ++ " exited with code " ++ pretty code))
        (manager p) in
    with_manager p (restartWorker index (Some ("worker exit: code " ++ pretty code)) m).2
  else p.

(** *** close *)

(** [close()] up to its wait of 100 ms: the flag is set and every worker
    is told to shut down. *)
Definition close_begin (p : Pool) : Pool :=
  let p := with_manager p (with_isClosing (manager p) true) in
  foldl (λ p slot, match slot with Some w => post w Shutdown p | None => p end)
    p (workers (manager p)).

(** [close()] after the wait: every worker is terminated; a failure is
    swallowed. *)
Definition close_finish (p : Pool) : Pool :=
  foldl (λ p slot,
           match slot with
           | Some w => with_manager p (emit (TerminateCalled w) (manager p))
           | None => p
           end)
    p (workers (manager p)).

(** How often the promise of the request [id] was settled, by a reply,
    by its timer or by a restart. *)
Definition settlementsOf (id : string) (p : Pool) : nat :=
  (length (List.filter (λ s, match s with
                             | Resolved i _ | Failed i _ => String.eqb i id
                             end) (settlements p)) +
   length (List.filter (λ e, match e with
                             | Rejected i _ => String.eqb i id
                             | _ => false
                             end) (effects (manager p))))%nat.

(** *** The event loop *)

(** What can happen to the manager between two turns of the event loop:
    a handler of a worker runs, a timer fires, a call of [sendToWorker]
    picks its worker or registers its request, a restart goes on after
    one of its waits, [close] runs one of its halves. *)
Inductive Event : Type :=
| MessageFrom (index : nat) (msg : Message)
| ErrorFrom (index : nat) (message : string)
| ExitFrom (index : nat) (code : Z)
| TimerFired (id : string)
| NextWorker
| Dispatched (id : string) (buildPayload : string → WorkerRequest) (worker : Worker)
    (index : nat)
| TerminateSettled (index : nat) (failure : option string)
| RestartResumed (index : nat)
| CloseBegun
| CloseFinished.

Definition handle (WORKER_TIMEOUT_MS : Z) (e : Event) (p : Pool) : Pool :=
  match e with
  | MessageFrom index msg => onMessage index msg p
  | ErrorFrom index message => onError index message p
  | ExitFrom index code => onExit index code p
  | TimerFired id => onTimeout WORKER_TIMEOUT_MS id p
  | NextWorker => with_manager p (getNextWorker (manager p)).2
  | Dispatched id buildPayload worker index => dispatch id buildPayload worker index p
  | TerminateSettled index failure => with_manager p (terminateSettled index failure (manager p))
  | RestartResumed index => with_manager p (restartResumed index (manager p))
  | CloseBegun => close_begin p
  | CloseFinished => close_finish p
  end.

Definition run (WORKER_TIMEOUT_MS : Z) (events : list Event) (p : Pool) : Pool :=
  foldl (λ p e, handle WORKER_TIMEOUT_MS e p) p events.

(** No event of the list registers a request under [id]. *)
Definition unused (id : string) (events : list Event) : Prop :=
  Forall (λ e, match e with Dispatched id' _ _ _ => id' ≠ id | _ => True end) events.

(** *** getWorkerConfig *)

(** [getWorkerConfig()]: [dirname] is [__dirname], [runningTs] says that
    this file has the extension [.ts]; the result is the path of the
    worker and the [execArgv] it is started with. *)
Definition getWorkerConfig (existsSync : string → bool) (dirname : string) (runningTs : bool)
    : string * list string :=
  let tsWorkerPath := dirname ++ "/worker.ts" in
  let jsWorkerPath := dirname ++ "/worker.js" in
  let hasTsWorker := existsSync tsWorkerPath in
  let hasJsWorker := existsSync jsWorkerPath in
  let isDev := (runningTs && hasTsWorker) || (hasTsWorker && negb hasJsWorker) in
  if isDev then (tsWorkerPath, ["-r"; "ts-node/register"]) else (jsWorkerPath, []).

End WorkerEvents.

(** ** The file-system traversal *)
Module NodeFileSystem.
Import JS.

Record Dirent : Type := {
  name : string;
  isDirectory : bool;
  isFile : bool;
  isSymbolicLink : bool
}.

Record Stats : Type := {
  stat_isDirectory : bool;
  stat_isFile : bool
}.

(** The file system and the [Git] collaborator as the traversal sees
    them; [None] is a call that throws. *)
Record World : Type := {
  realpathSync : string → option string;
  statSync : string → option Stats;
  readdir : string → option (list Dirent);
  isGitRepository : string → bool;
  getGitFiles : string → list string
}.

(** [path.join(dir, name)] for a directory path and an entry name;
    nothing is normalised, for [readdir] gives names. *)
Definition join (dir name : string) : string := dir ++ "/" ++ name.

Fixpoint strip_prefix (prefix s : string) : option string :=
  match prefix, s with
  | EmptyString, _ => Some s
  | String a prefix', String b s' => if Ascii.eqb a b then strip_prefix prefix' s' else None
  | String _ _, EmptyString => None
  end.

(** [path.relative(root, filePath)] where [filePath] is [root] or [root]
    joined with names: what stands after the root. Nothing is
    normalised, so it is the library's answer only when no segment
    after the root is empty, [.] or [..] ([IgnoreRules.normalized]). *)
Definition relative (root filePath : string) : string :=
  if String.eqb root filePath then EmptyString
  else default filePath (strip_prefix (root ++ "/") filePath).

Definition hidden_part (part : string) : bool :=
  String.prefix "." part && negb (String.eqb part ".") && negb (String.eqb part "..").

Definition isHiddenFile (filePath root : string) : bool :=
  existsb hidden_part (split "/" (relative root filePath)).

Record Resolved : Type := {
  isDir : bool;
  isFile_ : bool;
  realPath : string
}.

Definition resolveEntry (w : World) (fullPath : string) (entry : Dirent) : option Resolved :=
  if isSymbolicLink entry then
    match realpathSync w fullPath, statSync w fullPath with
    | Some real, Some stat =>
        Some {| isDir := stat_isDirectory stat; isFile_ := stat_isFile stat; realPath := real |}
    | _, _ => None
    end
  else Some {| isDir := isDirectory entry; isFile_ := isFile entry; realPath := fullPath |}.

(** What a generator has yielded, and the shared [visited] set after it. *)
Abbreviation Walk := (option (list string * gset string)).

(** The loop over the entries of [dir]; [recurse] is the traversal of a
    subdirectory. *)
Fixpoint forEntries (w : World) (recurse : string → gset string → Walk) (dir root : string)
    (entries : list Dirent) (visited : gset string) : Walk :=
  match entries with
  | [] => Some ([], visited)
  | entry :: rest =>
      let fullPath := join dir (name entry) in
      let continue := forEntries w recurse dir root rest in
      let yielding (here : Walk) : Walk :=
        match here with
        | None => None
        | Some (files, visited) =>
            match continue visited with
            | None => None
            | Some (more, visited) => Some ((files ++ more)%list, visited)
            end
        end in
      if isHiddenFile fullPath root then continue visited
      else
        match resolveEntry w fullPath entry with
        | None => continue visited
        | Some resolved =>
            if isDir resolved then
              if decide (realPath resolved ∈ visited) then continue visited
              else if isGitRepository w fullPath then
                match getGitFiles w fullPath with
                | [] => yielding (recurse fullPath visited)
                | files => yielding (Some (files, visited))
                end
              else yielding (recurse fullPath visited)
            else if isFile_ resolved then yielding (Some ([fullPath], visited))
            else continue visited
        end
  end.

(** [getAllFilesRecursive(dir, root, visited)], run to the end of the
    generator; [None] when [fuel] nested directories were not enough. *)
Fixpoint getAllFilesRecursive (fuel : nat) (w : World) (dir root : string)
    (visited : gset string) : Walk :=
  match fuel with
  | O => None
  | S fuel =>
      match realpathSync w dir with
      | None => Some ([], visited)
      | Some realDir =>
          if decide (realDir ∈ visited) then Some ([], visited)
          else
            let visited := {[realDir]} ∪ visited in
            match readdir w dir with
            | None => Some ([], visited)
            | Some entries =>
                forEntries w (λ sub seen, getAllFilesRecursive fuel w sub root seen)
                  dir root entries visited
            end
      end
  end.

(** [getFiles(dirRoot)], all of it. The ignore file it loads first bears
    on [isIgnored] only, not on what is yielded here. *)
Definition getFiles (fuel : nat) (w : World) (dirRoot : string) : option (list string) :=
  let traversal := fst <$> getAllFilesRecursive fuel w dirRoot dirRoot ∅ in
  if isGitRepository w dirRoot then
    match getGitFiles w dirRoot with
    | [] => traversal
    | files => Some files
    end
  else traversal.

End NodeFileSystem.

(** ** The file system: what is ignored *)
Module IgnoreRules.
Import JS NodeFileSystem.

(** What [isIgnored] asks of the [ignore] library, filled from the
    configured patterns and the [.osgrepignore] file, and of the filter
    that [Git] builds from the [.gitignore] files. *)
Record Filters : Type := {
  customIgnores : string → bool;
  gitIgnored : string → string → bool
}.

(** [path.isAbsolute(p)] on POSIX. *)
Definition isAbsolute (p : string) : bool := String.prefix "/" p.

(** [p.replace(/^[/\\]+/, EmptyString)]. *)
Fixpoint stripSeparators (p : string) : string :=
  match p with
  | String c p' =>
      if (Ascii.eqb c "/" || Ascii.eqb c "\")%char then stripSeparators p' else p
  | EmptyString => EmptyString
  end.

(** [p.replace(/\\/g, "/")]. *)
Fixpoint forwardSlashes (p : string) : string :=
  match p with
  | String c p' => String (if Ascii.eqb c "\"%char then "/"%char else c) (forwardSlashes p')
  | EmptyString => EmptyString
  end.

(** A relative path as [path.relative] gives it for a file below the
    root: every segment is a name, none is empty, [.] or [..]. *)
Definition normalized (rest : string) : bool :=
  forallb (λ seg, nonempty seg && negb (String.eqb seg ".") && negb (String.eqb seg ".."))
    (split "/" rest).

(** [isIgnored(filePath, root)] for a path at or below [root], where
    [relative] is [path.relative]. *)
Definition isIgnored (w : World) (filters : Filters) (filePath root : string) : bool :=
  if isHiddenFile filePath root then true
  else
    let relativePath := relative root filePath in
    let relativePath :=
      if isAbsolute relativePath then stripSeparators relativePath else relativePath in
    if String.prefix ".." relativePath then true
    else
      let normalizedPath := forwardSlashes relativePath in
      if negb (nonempty normalizedPath) then false
      else
        let isDirectory :=
          match statSync w filePath with
          | Some stat => stat_isDirectory stat
          | None => false
          end in
        let pathToCheck := if isDirectory then normalizedPath ++ "/" else normalizedPath in
        if customIgnores filters pathToCheck then true
        else if isGitRepository w root then gitIgnored filters filePath root
        else false.

End IgnoreRules.

(** ** Concrete inputs used by the examples below *)
Module Scenarios.
Import JS.

Definition chunk (i p ty : string) : Searcher.VectorRecord :=
  {| Searcher.id := i; Searcher.path := p; Searcher.chunk_index := 0;
     Searcher.content := "code"; Searcher.display_text := EmptyString;
     Searcher.context_prev := EmptyString; Searcher.context_next := EmptyString;
     Searcher.start_line := 1; Searcher.end_line := 2;
     Searcher.chunk_type := ty; Searcher.is_anchor := false; Searcher.hash := "h";
     Searcher.pooled_colbert_48d := None; Searcher.colbert := None;
     Searcher.colbert_scale := None; Searcher.doc_token_ids := None |}.

Definition readme : Searcher.VectorRecord := chunk "a" "README.md" "block".
Definition source : Searcher.VectorRecord := chunk "b" "src/a.ts" "function".
Definition helper : Searcher.VectorRecord := chunk "c" "src/b.ts" "function".

Definition encoding : Searcher.QueryEncoding :=
  {| Searcher.dense := []; Searcher.query_colbert := []; Searcher.colbertDim := 48;
     Searcher.query_pooled := None |}.

(** A table whose dense search answers [rows] and whose full-text search
    throws. *)
Definition table (rows : list Searcher.VectorRecord) : Searcher.Table :=
  {| Searcher.vectorSearch := λ _ _ _, Returned rows;
     Searcher.ftsSearch := λ _ _ _, Thrown "no FTS index" |}.

(** A host over that table; the pool encodes the query, and rejects a
    rerank because the worker is restarted under it. *)
Definition host (env : gmap string string) (rows : list Searcher.VectorRecord) : Searcher.Host :=
  {| Searcher.process_env := env;
     Searcher.COLBERT_DIM := 48;
     Searcher.escapeSqlString := λ s, s;
     Searcher.normalizePath := λ s, s;
     Searcher.encodeQuery := λ _, Returned encoding;
     Searcher.ensureTable := Returned (table rows);
     Searcher.createFTSIndex := Returned ();
     Searcher.rerank := λ _, Thrown "Worker restarting: memory limit exceeded" |}.

(** The same host when the table cannot be opened. *)
Definition host_without_table : Searcher.Host :=
  {| Searcher.process_env := ∅;
     Searcher.COLBERT_DIM := 48;
     Searcher.escapeSqlString := λ s, s;
     Searcher.normalizePath := λ s, s;
     Searcher.encodeQuery := λ _, Returned encoding;
     Searcher.ensureTable := Thrown "table not found";
     Searcher.createFTSIndex := Returned ();
     Searcher.rerank := λ _, Returned [] |}.

(** A host whose pool rejects the encoding of the query. *)
Definition host_without_worker : Searcher.Host :=
  {| Searcher.process_env := ∅;
     Searcher.COLBERT_DIM := 48;
     Searcher.escapeSqlString := λ s, s;
     Searcher.normalizePath := λ s, s;
     Searcher.encodeQuery := λ _, Thrown "Worker restarting: worker exit: code 1";
     Searcher.ensureTable := Thrown "table not found";
     Searcher.createFTSIndex := Returned ();
     Searcher.rerank := λ _, Returned [] |}.

(** A host over a table whose dense search throws. *)
Definition host_without_vectors : Searcher.Host :=
  {| Searcher.process_env := ∅;
     Searcher.COLBERT_DIM := 48;
     Searcher.escapeSqlString := λ s, s;
     Searcher.normalizePath := λ s, s;
     Searcher.encodeQuery := λ _, Returned encoding;
     Searcher.ensureTable :=
       Returned {| Searcher.vectorSearch := λ _ _ _, Thrown "vector index is corrupt";
                   Searcher.ftsSearch := λ _ _ _, Returned [] |};
     Searcher.createFTSIndex := Returned ();
     Searcher.rerank := λ _, Returned [] |}.

(** A count too large for any finite number. *)
Definition huge_count : string := "1" ++ string_of_list_ascii (replicate 309 "0"%char).

(** An environment in which every tuning variable is turned away. *)
Definition rejected_env : gmap string string :=
  list_to_map
    [("OSGREP_PRE_K", "many"); ("OSGREP_STAGE1_K", "0"); ("OSGREP_STAGE2_K", "-40");
     ("OSGREP_RERANK_TOP", EmptyString); ("OSGREP_MAX_PER_FILE", "-1");
     ("OSGREP_RERANK_BLEND", "-0.5"); ("OSGREP_ANCHOR_PENALTY", "none");
     ("OSGREP_CODE_BOOST", "0"); ("OSGREP_TEST_PENALTY", "0.0");
     ("OSGREP_DOC_PENALTY", "x0.85")].

(** The same host with a pool that answers every rerank with [scores]. *)
Definition host_with_rerank (rows : list Searcher.VectorRecord) (scores : list Q) : Searcher.Host :=
  {| Searcher.process_env := ∅;
     Searcher.COLBERT_DIM := 48;
     Searcher.escapeSqlString := λ s, s;
     Searcher.normalizePath := λ s, s;
     Searcher.encodeQuery := λ _, Returned encoding;
     Searcher.ensureTable := Returned (table rows);
     Searcher.createFTSIndex := Returned ();
     Searcher.rerank := λ _, Returned scores |}.

(** A file-level anchor of [src/a.ts], and a test of it. *)
Definition anchor : Searcher.VectorRecord :=
  {| Searcher.id := "anchor"; Searcher.path := "src/a.ts"; Searcher.chunk_index := 0;
     Searcher.content := "code"; Searcher.display_text := EmptyString;
     Searcher.context_prev := EmptyString; Searcher.context_next := EmptyString;
     Searcher.start_line := 1; Searcher.end_line := 2;
     Searcher.chunk_type := "block"; Searcher.is_anchor := true; Searcher.hash := "h";
     Searcher.pooled_colbert_48d := None; Searcher.colbert := None;
     Searcher.colbert_scale := None; Searcher.doc_token_ids := None |}.

Definition block : Searcher.VectorRecord := chunk "block" "src/a.ts" "block".
Definition test : Searcher.VectorRecord := chunk "test" "src/__tests__/foo.test.ts" "block".

Definition idle : Searcher.State :=
  {| Searcher.ftsIndexChecked := false; Searcher.console := [] |}.

(** A disk with an old meta file, a store whose last save failed, and
    the one JSON text the examples need. *)
Definition disk : MetaStore.Disk :=
  {| MetaStore.files := {["/home/u/.osgrep/meta.json" := "{"]}; MetaStore.denied := ∅ |}.

Definition failed_store : MetaStore.Store :=
  {| MetaStore.data := ∅; MetaStore.loaded := true;
     MetaStore.saveQueue := Thrown "ENOSPC"; MetaStore.console := [] |}.

Definition parse (text : string) : outcome MetaStore.json :=
  if String.eqb text "{}" then Returned (MetaStore.JObject [])
  else Thrown "SyntaxError: Unexpected end of JSON input".

Definition stringify (data : gmap string MetaStore.MetaEntry) : string := "{}".

(** A manager of three workers whose cache knows one text. *)
Definition manager : WorkerManager.Manager :=
  WorkerManager.with_cache (WorkerManager.create 4 16)
    {| WorkerManager.capacity := 16;
       WorkerManager.entries := [(Some "let x = 1", [1%Q; 0%Q])] |}.

(** The tree [/r] with a nested git repository [/r/repo], which tracks
    one file, and a symlink [/r/link] to it. *)
Definition directory (p : string) : bool :=
  bool_decide (p ∈ ["/r"; "/r/link"; "/r/repo"]).

Definition nested_repository : NodeFileSystem.World :=
  {| NodeFileSystem.realpathSync := λ p,
       if bool_decide (p = "/r") then Some "/r"
       else if bool_decide (p ∈ ["/r/link"; "/r/repo"]) then Some "/r/repo"
       else if bool_decide (p ∈ ["/r/link/x.ts"; "/r/repo/x.ts"]) then Some "/r/repo/x.ts"
       else None;
     NodeFileSystem.statSync := λ p,
       if directory p
       then Some {| NodeFileSystem.stat_isDirectory := true; NodeFileSystem.stat_isFile := false |}
       else if bool_decide (p ∈ ["/r/link/x.ts"; "/r/repo/x.ts"])
       then Some {| NodeFileSystem.stat_isDirectory := false; NodeFileSystem.stat_isFile := true |}
       else None;
     NodeFileSystem.readdir := λ p,
       if bool_decide (p = "/r") then
         Some [ {| NodeFileSystem.name := "link"; NodeFileSystem.isDirectory := false;
                   NodeFileSystem.isFile := false; NodeFileSystem.isSymbolicLink := true |};
                {| NodeFileSystem.name := "repo"; NodeFileSystem.isDirectory := true;
                   NodeFileSystem.isFile := false; NodeFileSystem.isSymbolicLink := false |} ]
       else if bool_decide (p ∈ ["/r/link"; "/r/repo"]) then
         Some [ {| NodeFileSystem.name := "x.ts"; NodeFileSystem.isDirectory := false;
                   NodeFileSystem.isFile := true; NodeFileSystem.isSymbolicLink := false |} ]
       else None;
     NodeFileSystem.isGitRepository := λ p, bool_decide (p ∈ ["/r/link"; "/r/repo"]);
     NodeFileSystem.getGitFiles := λ p,
       if bool_decide (p ∈ ["/r/link"; "/r/repo"]) then [p ++ "/x.ts"] else [] |}.

(** The same tree without git: the directory and the symlink to it. *)
Definition plain_tree : NodeFileSystem.World :=
  {| NodeFileSystem.realpathSync := NodeFileSystem.realpathSync nested_repository;
     NodeFileSystem.statSync := NodeFileSystem.statSync nested_repository;
     NodeFileSystem.readdir := NodeFileSystem.readdir nested_repository;
     NodeFileSystem.isGitRepository := λ _, false;
     NodeFileSystem.getGitFiles := λ _, [] |}.

(** The tree [/r] whose directory [circular] holds a file and a symlink
    to the directory itself. *)
Definition circular_tree : NodeFileSystem.World :=
  {| NodeFileSystem.realpathSync := λ p,
       if bool_decide (p = "/r") then Some "/r"
       else if bool_decide (p ∈ ["/r/circular"; "/r/circular/link-to-parent"])
       then Some "/r/circular"
       else if bool_decide (p = "/r/circular/file.txt") then Some p
       else None;
     NodeFileSystem.statSync := λ p,
       if bool_decide (p ∈ ["/r"; "/r/circular"; "/r/circular/link-to-parent"])
       then Some {| NodeFileSystem.stat_isDirectory := true; NodeFileSystem.stat_isFile := false |}
       else None;
     NodeFileSystem.readdir := λ p,
       if bool_decide (p = "/r") then
         Some [ {| NodeFileSystem.name := "circular"; NodeFileSystem.isDirectory := true;
                   NodeFileSystem.isFile := false; NodeFileSystem.isSymbolicLink := false |} ]
       else if bool_decide (p ∈ ["/r/circular"; "/r/circular/link-to-parent"]) then
         Some [ {| NodeFileSystem.name := "file.txt"; NodeFileSystem.isDirectory := false;
                   NodeFileSystem.isFile := true; NodeFileSystem.isSymbolicLink := false |};
                {| NodeFileSystem.name := "link-to-parent"; NodeFileSystem.isDirectory := false;
                   NodeFileSystem.isFile := false; NodeFileSystem.isSymbolicLink := true |} ]
       else None;
     NodeFileSystem.isGitRepository := λ _, false;
     NodeFileSystem.getGitFiles := λ _, [] |}.

(** A store that knows one file, the JSON text of its entries, and a
    disk on which the [.tmp] sibling of the meta file cannot be
    written. *)
Definition entry : MetaStore.MetaEntry :=
  {| MetaStore.hash := "9f2c"; MetaStore.mtimeMs := 1700000000000; MetaStore.size := 42 |}.

Definition indexed : MetaStore.Store := MetaStore.set MetaStore.fresh "src/a.ts" entry.

Definition stringify_entries (data : gmap string MetaStore.MetaEntry) : string :=
  if decide (data = ∅) then "{}" else "{ src/a.ts: 9f2c, 1700000000000, 42 }".

Definition parse_entries (text : string) : outcome MetaStore.json :=
  if String.eqb text "{}" then Returned (MetaStore.JObject [])
  else if String.eqb text "{ src/a.ts: 9f2c, 1700000000000, 42 }"
  then Returned (MetaStoreEntries.data_json (MetaStore.data indexed))
  else Thrown "SyntaxError: Unexpected token".

Definition read_only_disk : MetaStore.Disk :=
  {| MetaStore.files := {["/home/u/.osgrep/meta.json" := "{}"]};
     MetaStore.denied := {["/home/u/.osgrep/meta.json.tmp"]} |}.

(** A disk whose meta file holds the snapshot of an empty store. *)
Definition old_disk : MetaStore.Disk :=
  {| MetaStore.files := {["/home/u/.osgrep/meta.json" := "{}"]}; MetaStore.denied := ∅ |}.

(** A parser for a meta file one of whose entries is [null]. *)
Definition parse_null (text : string) : outcome MetaStore.json :=
  Returned (MetaStore.JObject [("src/a.ts", MetaStore.JString "9f2c");
                               ("src/b.ts", MetaStore.JNull)]).

(** A pool over [manager] with a batch sent to slot 0 and a rerank sent
    to slot 1, and the reply of a worker that reports its memory. *)
Definition pool : WorkerEvents.Pool :=
  WorkerEvents.dispatch "r2" (λ id, WorkerManager.Rerank id "q" ["doc"]) 1 1
    (WorkerEvents.dispatch "r1" (λ id, WorkerManager.EmbedBatch id ["let y = 2"]) 0 0
       {| WorkerEvents.manager := manager;
          WorkerEvents.settlements := [];
          WorkerEvents.posted := [] |}).

Definition reply (id : string) (rss : option Z) : WorkerEvents.Message :=
  {| WorkerEvents.msg_id := id;
     WorkerEvents.msg_vector := None;
     WorkerEvents.msg_vectors := Some [[0%Q; 1%Q]];
     WorkerEvents.msg_scores := None;
     WorkerEvents.msg_error := None;
     WorkerEvents.msg_memory := rss |}.

End Scenarios.

(** * Properties *)

(** ** Facts about the JavaScript built-ins *)
Module JSFacts.
Import JS.

Section sort_facts.
Context {A : Type} (swap : A → A → bool).

Lemma insert_sorted_perm x l : insert_sorted swap x l ≡ₚ x :: l.
Proof.
  induction l as [|y l IH]; simpl; [done|].
  destruct (swap x y); [|done].
  rewrite IH. apply Permutation_swap.
Qed.

Lemma sort_perm l : sort swap l ≡ₚ l.
Proof.
  induction l as [|x l IH]; simpl; [done|].
  rewrite insert_sorted_perm. by rewrite IH.
Qed.

Lemma sort_length l : length (sort swap l) = length l.
Proof. by rewrite sort_perm. Qed.

Lemma insert_sorted_stays x l :
  Forall (stays swap x) l → insert_sorted swap x l = x :: l.
Proof.
  destruct l as [|y l]; [done|].
  intros H. apply Forall_cons in H as [Hy _]. simpl. by rewrite Hy.
Qed.

(** A list that is already in order is left as it is. *)
Lemma sort_sorted l : StronglySorted (stays swap) l → sort swap l = l.
Proof.
  induction 1 as [|x l Hs IH Hx]; simpl; [done|].
  rewrite IH. by apply insert_sorted_stays.
Qed.

Hypothesis asym : ∀ x y, swap x y = true → swap y x = false.
Hypothesis trans : ∀ x y z, stays swap x y → stays swap y z → stays swap x z.

Lemma insert_sorted_sorted x l :
  StronglySorted (stays swap) l → StronglySorted (stays swap) (insert_sorted swap x l).
Proof.
  induction 1 as [|y l Hs IH Hy]; simpl.
  - repeat constructor.
  - destruct (swap x y) eqn:Hxy.
    + constructor; [done|].
      rewrite insert_sorted_perm. constructor; [by apply asym|done].
    + constructor; [by constructor|].
      constructor; [done|].
      eapply Forall_impl; [exact Hy|]. intros z Hz. by eapply trans.
Qed.

Lemma sort_is_sorted l : StronglySorted (stays swap) (sort swap l).
Proof.
  induction l as [|x l IH]; simpl; [constructor|].
  by apply insert_sorted_sorted.
Qed.

End sort_facts.

(** The same for a comparator that is an order on the elements with [P]
    only. *)
Section sort_on.
Context {A : Type} (swap : A → A → bool) (P : A → Prop).
Hypothesis asym : ∀ x y, P x → P y → swap x y = true → swap y x = false.
Hypothesis trans :
  ∀ x y z, P x → P y → P z → stays swap x y → stays swap y z → stays swap x z.

Lemma insert_sorted_sorted_on x l :
  P x → Forall P l →
  StronglySorted (stays swap) l → StronglySorted (stays swap) (insert_sorted swap x l).
Proof.
  intros Hx HP Hs. induction Hs as [|y l Hs IH Hy]; simpl.
  - repeat constructor.
  - apply Forall_cons in HP as [HPy HPl].
    destruct (swap x y) eqn:Hxy.
    + constructor; [by apply IH|].
      rewrite insert_sorted_perm. constructor; [by apply asym|done].
    + constructor; [by constructor|].
      constructor; [done|].
      apply Forall_forall. intros z Hz.
      apply (trans x y z); [done|done| |done|].
      * by eapply Forall_forall in HPl.
      * by eapply Forall_forall in Hy.
Qed.

Lemma sort_is_sorted_on l : Forall P l → StronglySorted (stays swap) (sort swap l).
Proof.
  induction l as [|x l IH]; simpl; [constructor|].
  intros [Hx Hl]%Forall_cons. apply insert_sorted_sorted_on; [done| |by apply IH].
  by rewrite sort_perm.
Qed.

End sort_on.

Lemma StronglySorted_sublist {A} (R : relation A) k l :
  k `sublist_of` l → StronglySorted R l → StronglySorted R k.
Proof.
  intros Hsub Hs. revert k Hsub.
  induction Hs as [|x l Hs IH Hx]; intros k Hsub.
  - apply sublist_nil_r in Hsub as ->. constructor.
  - apply sublist_cons_r in Hsub as [Hsub|(k' & -> & Hsub)]; [by apply IH|].
    constructor; [by apply IH|].
    apply Forall_forall. intros y Hy.
    eapply Forall_forall in Hx; [done|]. by eapply elem_of_sublist.
Qed.

Lemma Qltb_lt x y : Qltb x y = true ↔ (x < y)%Q.
Proof.
  unfold Qltb. rewrite negb_true_iff, <- not_true_iff_false, Qle_bool_iff.
  split; [apply Qnot_le_lt | apply Qlt_not_le].
Qed.

Lemma Qltb_ge x y : Qltb x y = false ↔ (y <= x)%Q.
Proof. unfold Qltb. by rewrite negb_false_iff, Qle_bool_iff. Qed.

Section map_facts.
Context {V : Type}.
Implicit Types (m : list (string * V)) (k : string) (v : V).

Lemma get_set m k v k' :
  Map.get (Map.set m k v) k' = if String.eqb k' k then Some v else Map.get m k'.
Proof.
  induction m as [|[k0 v0] m IH]; simpl.
  - done.
  - destruct (String.eqb_spec k k0) as [->|Hne]; simpl.
    + by destruct (String.eqb k' k0).
    + rewrite IH. destruct (String.eqb_spec k' k0) as [->|Hne'].
      * destruct (String.eqb_spec k0 k); [congruence|done].
      * done.
Qed.

Lemma get_Some_elem m k v : Map.get m k = Some v → (k, v) ∈ m.
Proof.
  induction m as [|[k0 v0] m IH]; simpl; [done|].
  destruct (String.eqb_spec k k0) as [->|Hne].
  - intros [= ->]. left.
  - intros H. right. by apply IH.
Qed.

Lemma get_elem m k v : NoDup m.*1 → (k, v) ∈ m → Map.get m k = Some v.
Proof.
  induction m as [|[k0 v0] m IH]; simpl; [by intros _ ?%elem_of_nil|].
  intros [Hk0 Hnd]%NoDup_cons [[= -> ->]|Hin]%elem_of_cons.
  - by rewrite String.eqb_refl.
  - destruct (String.eqb_spec k k0) as [->|Hne]; [|by apply IH].
    exfalso. apply Hk0. apply list_elem_of_fmap. by exists (k0, v).
Qed.

Lemma set_keys m k v :
  (Map.set m k v).*1 = if Map.has m k then m.*1 else (m.*1 ++ [k])%list.
Proof.
  unfold Map.has. induction m as [|[k0 v0] m IH]; csimpl; [done|].
  destruct (String.eqb_spec k k0) as [->|Hne]; csimpl; [done|].
  rewrite IH. by destruct (Map.get m k).
Qed.

Lemma has_keys m k : Map.has m k = true ↔ k ∈ m.*1.
Proof.
  unfold Map.has. induction m as [|[k0 v0] m IH]; simpl.
  - split; [done|by intros ?%elem_of_nil].
  - destruct (String.eqb_spec k k0) as [->|Hne].
    + split; [intros _; left|done].
    + rewrite IH. split; [by right|]. by intros [?|?]%elem_of_cons.
Qed.

Lemma set_NoDup m k v : NoDup m.*1 → NoDup (Map.set m k v).*1.
Proof.
  intros Hnd. rewrite set_keys. destruct (Map.has m k) eqn:Hhas; [done|].
  apply NoDup_app. split_and!; [done| |apply NoDup_singleton].
  intros x Hx ->%list_elem_of_singleton.
  apply has_keys in Hx. congruence.
Qed.

End map_facts.

Lemma StronglySorted_omap {A B} (R : relation A) (R' : relation B) (g : A → option B) l :
  (∀ x y x' y', x ∈ l → y ∈ l → g x = Some x' → g y = Some y' → R x y → R' x' y') →
  StronglySorted R l → StronglySorted R' (omap g l).
Proof.
  intros HR Hs. induction Hs as [|x l Hs IH Hx]; simpl; [constructor|].
  assert (StronglySorted R' (omap g l)) as IH'.
  { apply IH. intros ???? Hx0 Hy0. apply HR; by right. }
  destruct (g x) as [x'|] eqn:Hgx; [|done].
  constructor; [done|].
  apply Forall_forall. intros y' [y [Hy Hgy]]%list_elem_of_omap.
  eapply (HR x y); [left|by right|done|done|].
  by eapply Forall_forall in Hx.
Qed.

Lemma StronglySorted_fmap_elem {A B} (R : relation A) (R' : relation B) (g : A → B) l :
  (∀ x y, x ∈ l → y ∈ l → R x y → R' (g x) (g y)) →
  StronglySorted R l → StronglySorted R' (g <$> l).
Proof.
  intros HR Hs. induction Hs as [|x l Hs IH Hx]; csimpl; constructor.
  - apply IH. intros ?? Hx0 Hy0. apply HR; by right.
  - apply Forall_fmap, Forall_forall. intros y Hy.
    apply HR; [left|by right|]. by eapply Forall_forall in Hx.
Qed.

Lemma StronglySorted_take {A} (R : relation A) n l :
  StronglySorted R l → StronglySorted R (take n l).
Proof.
  intros Hs. rewrite <- (take_drop n l) in Hs. by apply StronglySorted_app_1_l in Hs.
Qed.

End JSFacts.

(** ** The searcher *)
Module SearcherFacts.
Import JS Searcher JSFacts.

(** *** Reciprocal rank fusion *)

Lemma rrfScore_pos rank : (0 < rrfScore rank)%Q.
Proof.
  unfold rrfScore, RRF_K. apply Qlt_shift_div_l.
  - rewrite <- (Zlt_Qlt 0). lia.
  - rewrite Qmult_0_l. reflexivity.
Qed.

Lemma rrfScore_anti i i' : (i < i')%nat → (rrfScore i' < rrfScore i)%Q.
Proof.
  intros Hlt. unfold rrfScore, RRF_K, Qdiv. rewrite !Qmult_1_l.
  apply -> Qinv_lt_contravar.
  - rewrite <- Zlt_Qlt. lia.
  - rewrite <- (Zlt_Qlt 0). lia.
  - rewrite <- (Zlt_Qlt 0). lia.
Qed.

Lemma scoreOf_accumulate scores k kd rank :
  (default 0 (Map.get (accumulate scores kd rank) k) ==
   default 0 (Map.get scores k) + (if String.eqb kd k then rrfScore rank else 0))%Q.
Proof.
  unfold accumulate. rewrite get_set.
  destruct (String.eqb_spec k kd) as [->|Hne].
  - rewrite String.eqb_refl. simpl. reflexivity.
  - destruct (String.eqb_spec kd k); [congruence|]. ring.
Qed.

Lemma rankSum_nonneg k rank docs : (0 <= rankSum k rank docs)%Q.
Proof.
  revert rank. induction docs as [|d docs IH]; intros rank; simpl; [apply Qle_refl|].
  specialize (IH (S rank)). pose proof (rrfScore_pos rank) as Hpos.
  unfold rrfScore, RRF_K in Hpos.
  destruct (String.eqb (key d) k); lra.
Qed.

Lemma scoreOf_fuseVector docs rank f k :
  (scoreOf (forEach_at fuseVector rank docs f) k == scoreOf f k + rankSum k rank docs)%Q.
Proof.
  revert rank f. induction docs as [|d docs IH]; intros rank f; simpl; [ring|].
  rewrite IH. unfold scoreOf at 1. simpl.
  rewrite scoreOf_accumulate. unfold scoreOf, rrfScore, RRF_K. ring.
Qed.

Lemma scoreOf_fuseFts docs rank f k :
  (scoreOf (forEach_at fuseFts rank docs f) k == scoreOf f k + rankSum k rank docs)%Q.
Proof.
  revert rank f. induction docs as [|d docs IH]; intros rank f; simpl; [ring|].
  rewrite IH. unfold scoreOf at 1. simpl.
  rewrite scoreOf_accumulate. unfold scoreOf, rrfScore, RRF_K. ring.
Qed.

Lemma scoreOf_fusion dense fts k :
  (scoreOf (fusion dense fts) k == rankSum k 0 dense + rankSum k 0 fts)%Q.
Proof.
  unfold fusion, forEach. rewrite scoreOf_fuseFts, scoreOf_fuseVector.
  unfold scoreOf. simpl. ring.
Qed.

(** A list that holds the candidate at some rank gives it at least the
    share of that rank. *)
Lemma rankSum_ge k rank docs n :
  (key <$> docs) !! n = Some k → (rrfScore (rank + n) <= rankSum k rank docs)%Q.
Proof.
  revert rank n. induction docs as [|d docs IH]; intros rank n; [done|].
  destruct n as [|n]; simpl.
  - intros [= <-]. rewrite String.eqb_refl, Nat.add_0_r.
    pose proof (rankSum_nonneg (key d) (S rank) docs). unfold rrfScore, RRF_K. lra.
  - intros Hn. specialize (IH (S rank) n Hn).
    replace (rank + S n)%nat with (S rank + n)%nat by lia.
    pose proof (rrfScore_pos rank) as Hpos. unfold rrfScore, RRF_K in Hpos.
    destruct (String.eqb (key d) k); lra.
Qed.

Lemma rankSum_absent k rank docs :
  k ∉ key <$> docs → (rankSum k rank docs == 0)%Q.
Proof.
  revert rank. induction docs as [|d docs IH]; intros rank Hk; simpl; [reflexivity|].
  csimpl in Hk. apply not_elem_of_cons in Hk as [Hne Hk].
  destruct (String.eqb_spec (key d) k); [congruence|].
  rewrite IH by done. ring.
Qed.

(** A list that holds the candidate at one rank only gives it exactly the
    share of that rank. *)
Lemma rankSum_once k rank docs n :
  (∀ m, (key <$> docs) !! m = Some k ↔ m = n) →
  (rankSum k rank docs == rrfScore (rank + n))%Q.
Proof.
  revert rank n. induction docs as [|d docs IH]; intros rank n Hn.
  - by pose proof (proj2 (Hn n) eq_refl).
  - simpl. destruct (String.eqb_spec (key d) k) as [Hk|Hne].
    + assert (n = 0%nat) as -> by (symmetry; apply Hn; simpl; by rewrite Hk).
      rewrite rankSum_absent, Nat.add_0_r; [unfold rrfScore, RRF_K; ring|].
      intros [m Hm]%list_elem_of_lookup.
      by pose proof (proj1 (Hn (S m)) Hm).
    + destruct n as [|n].
      { pose proof (proj2 (Hn 0%nat) eq_refl) as H0. simpl in H0. congruence. }
      rewrite (IH (S rank) n).
      * replace (rank + S n)%nat with (S rank + n)%nat by lia. ring.
      * intros m. specialize (Hn (S m)). simpl in Hn. rewrite Hn. lia.
Qed.

(** C3. Reciprocal rank fusion gives a candidate, for every rank at which
    the dense or the full-text list holds its key ([id], or
    [path:chunk_index] without one), [1/(RRF_K + rank + 1)] with
    [RRF_K = 60]; and when [a] stands above [b] in both lists, [b] being
    held once by each, the fused score of [a] is strictly greater. *)
Theorem rrf_accumulates_and_is_monotone
    (dense fts : list VectorRecord) (a b : VectorRecord) (i i' j j' : nat) :
  (key <$> dense) !! i = Some (key a) →
  (key <$> fts) !! j = Some (key a) →
  (∀ m, (key <$> dense) !! m = Some (key b) ↔ m = i') →
  (∀ m, (key <$> fts) !! m = Some (key b) ↔ m = j') →
  (i < i')%nat → (j < j')%nat →
  let f := fusion dense fts in
  RRF_K = 60 ∧
  (∀ doc, key doc = if nonempty (id doc) then id doc
                    else path doc ++ ":" ++ pretty (chunk_index doc)) ∧
  (∀ k, scoreOf f k == rankSum k 0 dense + rankSum k 0 fts)%Q ∧
  (fusedScore f b < fusedScore f a)%Q.
Proof.
  intros Hai Haj Hbi Hbj Hi Hj f. split_and!; [done|done|apply scoreOf_fusion|].
  unfold fusedScore, f. rewrite !scoreOf_fusion.
  rewrite (rankSum_once _ _ _ _ Hbi), (rankSum_once _ _ _ _ Hbj).
  pose proof (rankSum_ge _ 0 _ _ Hai). pose proof (rankSum_ge _ 0 _ _ Haj).
  pose proof (rrfScore_anti _ _ Hi). pose proof (rrfScore_anti _ _ Hj).
  simpl in *. lra.
Qed.

Lemma rrf_monotone_example :
  (fusedScore (fusion [Scenarios.readme; Scenarios.source] [Scenarios.readme; Scenarios.source])
     Scenarios.source
   < fusedScore (fusion [Scenarios.readme; Scenarios.source] [Scenarios.readme; Scenarios.source])
       Scenarios.readme)%Q.
Proof.
  refine (proj2 (proj2 (proj2
    (rrf_accumulates_and_is_monotone
       [Scenarios.readme; Scenarios.source] [Scenarios.readme; Scenarios.source]
       Scenarios.readme Scenarios.source 0 1 0 1 _ _ _ _ _ _)))).
  - reflexivity.
  - reflexivity.
  - intros [|[|m]]; simpl; split; intros H; try reflexivity; try discriminate H.
  - intros [|[|m]]; simpl; split; intros H; try reflexivity; try discriminate H.
  - lia.
  - lia.
Defined.

(** *** What the fusion builds *)

Lemma accumulate_ok scores k rank :
  NoDup scores.*1 →
  (∀ k' v, Map.get scores k' = Some v → (0 < v)%Q) →
  NoDup (accumulate scores k rank).*1 ∧
  (∀ k' v, Map.get (accumulate scores k rank) k' = Some v → (0 < v)%Q).
Proof.
  intros Hnd Hpos. split; [by apply set_NoDup|].
  intros k' v. unfold accumulate. rewrite get_set.
  destruct (String.eqb k' k); [|by apply Hpos].
  intros [= <-]. pose proof (rrfScore_pos rank).
  destruct (Map.get scores k) as [v0|] eqn:Hv0; simpl; [|lra].
  apply Hpos in Hv0. lra.
Qed.

Lemma fuseVector_ok doc rank f : fusion_ok f → fusion_ok (fuseVector doc rank f).
Proof.
  intros (Hnd & Hpos & Hdoc).
  destruct (accumulate_ok _ (key doc) rank Hnd Hpos) as [Hnd' Hpos'].
  split_and!; simpl; [done|done|].
  intros k d. rewrite get_set.
  destruct (String.eqb_spec k (key doc)) as [->|Hne]; [by intros [= <-]|by apply Hdoc].
Qed.

Lemma fuseFts_ok doc rank f : fusion_ok f → fusion_ok (fuseFts doc rank f).
Proof.
  intros (Hnd & Hpos & Hdoc).
  destruct (accumulate_ok _ (key doc) rank Hnd Hpos) as [Hnd' Hpos'].
  split_and!; simpl; [done|done|].
  intros k d. destruct (Map.has (docMap f) (key doc)); [by apply Hdoc|].
  rewrite get_set.
  destruct (String.eqb_spec k (key doc)) as [->|Hne]; [by intros [= <-]|by apply Hdoc].
Qed.

Lemma forEach_at_ok (step : VectorRecord → nat → Fusion → Fusion) docs rank f :
  (∀ doc rank f, fusion_ok f → fusion_ok (step doc rank f)) →
  fusion_ok f → fusion_ok (forEach_at step rank docs f).
Proof.
  intros Hstep. revert rank f.
  induction docs as [|d docs IH]; intros rank f Hf; simpl; [done|].
  apply IH. by apply Hstep.
Qed.

Lemma fusion_is_ok dense fts : fusion_ok (fusion dense fts).
Proof.
  unfold fusion, forEach.
  apply forEach_at_ok; [apply fuseFts_ok|].
  apply forEach_at_ok; [apply fuseVector_ok|].
  split_and!; simpl; [constructor|done|done].
Qed.

(** A fused document carries the score of the entry it was fetched
    for. *)
Lemma fused_entry f e doc :
  fusion_ok f → e ∈ candidateScores f → Map.get (docMap f) e.1 = Some doc →
  fusedScore f doc = e.2 ∧ (0 < e.2)%Q.
Proof.
  intros (Hnd & Hpos & Hdoc) He Hget. destruct e as [k v]. simpl in *.
  apply Hdoc in Hget. unfold fusedScore, scoreOf. rewrite Hget.
  rewrite (get_elem _ _ _ Hnd He). split; [done|].
  eapply Hpos. by apply get_elem.
Qed.

Lemma fused_positive f doc : fusion_ok f → doc ∈ fused f → (0 < fusedScore f doc)%Q.
Proof.
  intros Hok [e [He Hget]]%list_elem_of_omap.
  unfold Map.entries in He. rewrite sort_perm in He.
  destruct (fused_entry f e doc Hok He Hget) as [-> ?]. done.
Qed.

Lemma byScoreDesc_asym {A} (x y : A * Q) : byScoreDesc x y = true → byScoreDesc y x = false.
Proof. unfold byScoreDesc. rewrite Qltb_lt, Qltb_ge. apply Qlt_le_weak. Qed.

Lemma byScoreDesc_trans {A} (x y z : A * Q) :
  stays byScoreDesc x y → stays byScoreDesc y z → stays byScoreDesc x z.
Proof. unfold stays, byScoreDesc. rewrite !Qltb_ge. intros. by eapply Qle_trans. Qed.

(** The fused list is in descending order of fused score. *)
Lemma fused_sorted f :
  fusion_ok f →
  StronglySorted (λ x y, fusedScore f y <= fusedScore f x)%Q (fused f).
Proof.
  intros Hok. unfold fused.
  eapply StronglySorted_omap;
    [|apply sort_is_sorted; [apply byScoreDesc_asym|apply byScoreDesc_trans]].
  intros x y x' y' Hx Hy Hgx Hgy Hxy.
  unfold Map.entries in Hx, Hy. rewrite sort_perm in Hx, Hy.
  destruct (fused_entry f x x' Hok Hx Hgx) as [-> _].
  destruct (fused_entry f y y' Hok Hy Hgy) as [-> _].
  by apply Qltb_ge.
Qed.

(** *** Stage 1 *)

Lemma dot_nil_r u : dot u [] = 0%Q.
Proof. by destruct u. Qed.

Lemma cosine_loop (v : list Q) qs i acc :
  (forEach_at (λ q i dot, dot + q * default 0 (v !! i))%Q i qs acc == acc + dot qs (drop i v))%Q.
Proof.
  revert i acc. induction qs as [|q qs IH]; intros i acc; simpl; [ring|].
  rewrite IH. destruct (v !! i) as [y|] eqn:Hy.
  - rewrite (drop_S _ _ _ Hy). simpl. ring.
  - apply lookup_ge_None in Hy.
    rewrite !drop_ge by lia. rewrite dot_nil_r. simpl. ring.
Qed.

Lemma cosineScore_dot qp doc :
  (cosineScore qp doc ==
   match pooled_colbert_48d doc with Some v => dot qp v | None => -1 end)%Q.
Proof.
  unfold cosineScore. destruct (pooled_colbert_48d doc) as [v|]; [|reflexivity].
  unfold forEach. rewrite cosine_loop. rewrite drop_0. ring.
Qed.

Lemma integerValue_integer v q : integerValue v = Finite q → ∃ k, q = inject_Z k.
Proof.
  unfold integerValue. destruct (_ <=? _); [done|]. intros [= <-]. by eexists.
Qed.

Lemma parseInt_integer s q : parseInt s = Finite q → ∃ k, q = inject_Z k.
Proof.
  unfold parseInt. destruct (sign _) as [neg s1].
  destruct (digits _ _ _) as [[v n] rest]. destruct n; [done|].
  apply integerValue_integer.
Qed.

(** An integer no binary64 value has to round is its own value. *)
Lemma integerValue_exact v : Z.abs v < 2 ^ 53 → integerValue v = Finite (inject_Z v).
Proof.
  intros Hv. unfold integerValue.
  assert (Z.log2 (Z.abs v) < 53) as Hlog.
  { destruct (decide (Z.abs v = 0)) as [->|Hne]; [done|].
    apply Z.log2_lt_pow2; lia. }
  replace (Z.max (Z.log2 (Z.abs v) - 52) 0) with 0 by lia.
  assert (round_half_even (Z.abs v) (2 ^ 0) = Z.abs v) as ->.
  { unfold round_half_even. change (2 ^ 0) with 1.
    rewrite Z.mod_1_r, Z.div_1_r. done. }
  destruct (2 ^ (1024 - 0) <=? Z.abs v) eqn:Hbig.
  - apply Z.leb_le in Hbig.
    assert (2 ^ 53 ≤ 2 ^ (1024 - 0)) by (apply Z.pow_le_mono_r; lia). lia.
  - f_equal. f_equal. change (2 ^ 0) with 1. lia.
Qed.

Lemma env_count_pos env name dflt : 0 < dflt → 0 < env_count env name dflt.
Proof.
  intros Hd. unfold env_count.
  destruct (parseInt _) as [| |q] eqn:Hparse; [done|done|].
  simpl. unfold Qltb. destruct (Qle_bool q 0) eqn:Hq; [done|]. simpl.
  apply parseInt_integer in Hparse as [k ->]. rewrite Qfloor_Z.
  destruct (decide (0 < k)) as [|Hk]; [done|].
  assert (Qle_bool (inject_Z k) 0 = true) as Hle; [|congruence].
  apply Qle_bool_iff. change 0%Q with (inject_Z 0). rewrite <- Zle_Qle. lia.
Qed.

Lemma STAGE2_K_pos env : 0 < STAGE2_K env.
Proof. by apply env_count_pos. Qed.

(** What stage 1 keeps is the head of the candidates in descending
    order of pooled score; what it drops scores no better. *)
Lemma stage1_keeps_best env qp top :
  STAGE2_K env < Z.of_nat (length top) →
  Z.of_nat (length (stage1 env qp top)) = STAGE2_K env ∧
  StronglySorted (λ x y, cosineScore qp y <= cosineScore qp x)%Q (stage1 env qp top) ∧
  ∃ dropped, top ≡ₚ (stage1 env qp top ++ dropped)%list ∧
    ∀ k d, k ∈ stage1 env qp top → d ∈ dropped →
      (cosineScore qp d <= cosineScore qp k)%Q.
Proof.
  intros Hlen. unfold stage1, slice0.
  set (withScore := map (λ doc, (doc, cosineScore qp doc)) top).
  set (sorted := sort byScoreDesc withScore).
  set (n := Z.to_nat (STAGE2_K env)).
  assert (sorted ≡ₚ withScore) as Hperm by apply sort_perm.
  assert (StronglySorted (stays byScoreDesc) sorted) as Hsorted.
  { apply sort_is_sorted; [apply byScoreDesc_asym|apply byScoreDesc_trans]. }
  assert (∀ e, e ∈ sorted → e.2 = cosineScore qp e.1) as Hscore.
  { intros e He. rewrite Hperm in He. subst withScore.
    apply list_elem_of_fmap in He as [doc [-> _]]. done. }
  pose proof (STAGE2_K_pos env) as Hpos.
  split_and!.
  - subst sorted withScore.
    rewrite length_map, length_take, sort_length, length_map. lia.
  - apply (StronglySorted_fmap_elem (stays byScoreDesc)); [|by apply StronglySorted_take].
    intros x y Hx%subseteq_take Hy%subseteq_take Hxy.
    apply Qltb_ge in Hxy. by rewrite <- (Hscore x), <- (Hscore y).
  - exists (map fst (drop n sorted)). split.
    + rewrite <- map_app, take_drop, Hperm. subst withScore.
      rewrite map_map. simpl. by rewrite map_id.
    + intros k d [ek [-> Hk]]%list_elem_of_fmap [ed [-> Hd]]%list_elem_of_fmap.
      rewrite <- (take_drop n sorted) in Hsorted.
      pose proof (StronglySorted_app_1_elem_of _ _ _ _ _ Hsorted Hk Hd) as Hkd.
      apply Qltb_ge in Hkd.
      rewrite <- (Hscore ek), <- (Hscore ed); [done| |].
      * by eapply subseteq_drop.
      * by eapply subseteq_take.
Qed.

(** C4. Stage 1 runs exactly when a pooled query vector is there and the
    candidates outnumber [STAGE2_K] (40 unless overridden); it then keeps
    the [STAGE2_K] candidates of greatest dot product with the pooled
    query, a candidate without pooled vector scoring [-1]; otherwise
    stage 2 receives the fused list cut at [STAGE1_K] as it is. *)
Theorem stage1_prefilter (env : Env) (queryPooled : option (list Q)) (f : Fusion) :
  let top := topCandidates env f in
  let stage2 := stage2Candidates env queryPooled top in
  STAGE2_K ∅ = 40 ∧
  top = take (Z.to_nat (STAGE1_K env)) (fused f) ∧
  (stage1_runs env queryPooled top = true ↔
   is_Some queryPooled ∧ STAGE2_K env < Z.of_nat (length top)) ∧
  (stage1_runs env queryPooled top = false → stage2 = top) ∧
  (∀ qp, queryPooled = Some qp → stage1_runs env queryPooled top = true →
     Z.of_nat (length stage2) = STAGE2_K env ∧
     StronglySorted (λ x y, cosineScore qp y <= cosineScore qp x)%Q stage2 ∧
     ∃ dropped, top ≡ₚ (stage2 ++ dropped)%list ∧
       ∀ k d, k ∈ stage2 → d ∈ dropped → (cosineScore qp d <= cosineScore qp k)%Q) ∧
  (∀ qp doc,
     cosineScore qp doc ==
     match pooled_colbert_48d doc with Some v => dot qp v | None => -1 end)%Q.
Proof.
  intros top stage2. split_and!.
  - reflexivity.
  - reflexivity.
  - unfold stage1_runs. destruct queryPooled as [qp|].
    + rewrite Z.ltb_lt. split; [by split; [eexists|]|by intros [_ ?]].
    + split; [done|]. by intros [[? [=]] _].
  - unfold stage2, stage2Candidates, stage1_runs.
    destruct queryPooled as [qp|]; [|done]. by intros ->.
  - intros qp -> Hruns. unfold stage2, stage2Candidates.
    unfold stage1_runs in Hruns. rewrite Hruns.
    apply stage1_keeps_best. by apply Z.ltb_lt.
  - apply cosineScore_dot.
Qed.

(** *** The candidates of the rerank *)

Lemma stage2_subseteq env qp top : stage2Candidates env qp top ⊆ top.
Proof.
  unfold stage2Candidates. destruct qp as [qp|]; [|done].
  destruct (STAGE2_K env <? Z.of_nat (length top)) eqn:Hlt; [|done].
  apply Z.ltb_lt in Hlt.
  destruct (stage1_keeps_best env qp top Hlt) as (_ & _ & dropped & Hperm & _).
  intros d Hd. rewrite Hperm. apply elem_of_app. by left.
Qed.

Lemma candidates_fused env qp f doc :
  doc ∈ rerankCandidates env (stage2Candidates env qp (topCandidates env f)) →
  doc ∈ fused f.
Proof.
  unfold rerankCandidates, topCandidates, slice0. intros Hd.
  apply subseteq_take in Hd. apply stage2_subseteq in Hd. by apply subseteq_take in Hd.
Qed.

(** With every fused score positive the tie-breaker [1/(idx+1)] is never
    taken. *)
Lemma fusionScores_fused f candidates :
  Forall (λ doc, 0 < fusedScore f doc)%Q candidates →
  fusionScores f candidates = fusedScore f <$> candidates.
Proof.
  intros Hpos. unfold fusionScores. rewrite <- (imap_const (fusedScore f)). apply imap_ext.
  intros i doc Hdoc. simpl.
  eapply Forall_lookup_1 in Hpos; [|done].
  destruct (Qeq_bool (fusedScore f doc) 0) eqn:Hz; [|done].
  apply Qeq_bool_eq in Hz. lra.
Qed.

Lemma scoreItem_fused env f candidates :
  imap (scoreItem env f (fusedScore f <$> candidates)) candidates =
  fusedItem env f <$> candidates.
Proof.
  rewrite <- (imap_const (fusedItem env f)). apply imap_ext. intros i doc Hdoc.
  unfold scoreItem, fusedItem. simpl. by rewrite list_lookup_fmap, Hdoc.
Qed.

Lemma FUSED_WEIGHT_nonneg env : (0 <= FUSED_WEIGHT env)%Q.
Proof.
  unfold FUSED_WEIGHT. destruct (parseFloat _) as [| |q]; try lra.
  destruct (Qle_bool 0 q) eqn:Hq; [by apply Qle_bool_iff|lra].
Qed.

(** With finite multipliers every boosted score is finite. *)
Lemma applyStructureBoost_finite env doc x :
  finiteMultipliers env = true → ∃ y, applyStructureBoost env doc (Finite x) = Finite y.
Proof.
  unfold finiteMultipliers, applyStructureBoost.
  destruct (anchorPenalty env) as [| |a]; [done..|].
  destruct (boostFactor env) as [| |b]; [done..|].
  destruct (testPenalty env) as [| |t]; [done..|].
  destruct (docPenalty env) as [| |d]; [done..|].
  intros _.
  destruct (is_anchor doc), (existsb (String.eqb (chunk_type doc)) boosted),
    (isTestPath _), (isDocPath _); simpl; by eexists.
Qed.

(** On finite scores the comparator of the final sort is an order. *)
Lemma byItemScoreDesc_asym (x y : ScoredItem) :
  isFinite (item_score x) = true → isFinite (item_score y) = true →
  byItemScoreDesc x y = true → byItemScoreDesc y x = false.
Proof.
  unfold byItemScoreDesc.
  destruct (item_score x) as [| |p]; [done..|].
  destruct (item_score y) as [| |q]; [done..|].
  simpl. intros _ _ H. apply Qltb_lt in H. apply Qltb_ge. lra.
Qed.

Lemma byItemScoreDesc_trans (x y z : ScoredItem) :
  isFinite (item_score x) = true → isFinite (item_score y) = true →
  isFinite (item_score z) = true →
  stays byItemScoreDesc x y → stays byItemScoreDesc y z → stays byItemScoreDesc x z.
Proof.
  unfold stays, byItemScoreDesc.
  destruct (item_score x) as [| |p]; [done..|].
  destruct (item_score y) as [| |q]; [done..|].
  destruct (item_score z) as [| |r]; [done..|].
  simpl. intros _ _ _ H1 H2. apply Qltb_ge in H1, H2. apply Qltb_ge. lra.
Qed.

Lemma diversify_loop_sublist maxPerFile finalLimit items seenFiles diversified :
  ∃ kept,
    diversify_loop maxPerFile finalLimit items seenFiles diversified
      = (diversified ++ kept)%list ∧
    kept `sublist_of` items.
Proof.
  revert seenFiles diversified.
  induction items as [|item rest IH]; intros seenFiles diversified; simpl.
  - exists []. by rewrite app_nil_r.
  - destruct (default 0 (seenFiles !! path (record item)) <? maxPerFile).
    + destruct (finalLimit <=? _).
      * exists [item]. split; [done|]. apply sublist_skip, sublist_nil_l.
      * destruct (IH (<[path (record item) := default 0 (seenFiles !! path (record item)) + 1]>
                        seenFiles) (diversified ++ [item])%list) as (kept & -> & Hsub).
        exists (item :: kept). rewrite <- app_assoc. split; [done|]. by apply sublist_skip.
    + destruct (finalLimit <=? _).
      * exists []. rewrite app_nil_r. split; [done|]. apply sublist_nil_l.
      * destruct (IH seenFiles diversified) as (kept & -> & Hsub).
        exists kept. split; [done|]. by apply sublist_cons.
Qed.

Lemma diversify_sublist env finalLimit items : diversify env finalLimit items `sublist_of` items.
Proof.
  unfold diversify.
  by destruct (diversify_loop_sublist (MAX_PER_FILE env) finalLimit items ∅ []) as (kept & -> & ?).
Qed.

(** *** The whole search *)

(** Once the query is encoded, the table is there and the dense search
    has answered, the result is the ranking of the rows; a full-text
    search that throws counts for no rows. *)
Lemma search_ranks h s query top_k rerankOption pathPrefix enc table vectorResults :
  encodeQuery h query = Returned enc →
  ensureTable h = Returned table →
  vectorSearch table (dense enc) (PRE_RERANK_K (process_env h) (default 10 top_k))
    (whereClause h pathPrefix) = Returned vectorResults →
  (search h s query top_k rerankOption pathPrefix).1 =
  rank h enc (default 10 top_k) (default true rerankOption) vectorResults
    match ftsSearch table query (PRE_RERANK_K (process_env h) (default 10 top_k))
            (whereClause h pathPrefix) with
    | Returned rows => rows
    | Thrown _ => []
    end.
Proof.
  intros Henc Htable Hdense. unfold search. rewrite Henc, Htable, Hdense.
  by destruct (ftsSearch _ _ _ _).
Qed.

Lemma rank_without_rerank h enc finalLimit vectorResults ftsResults :
  let env := process_env h in
  let f := fusion vectorResults ftsResults in
  let candidates :=
    rerankCandidates env (stage2Candidates env (query_pooled enc) (topCandidates env f)) in
  fusionScores f candidates = fusedScore f <$> candidates ∧
  rank h enc finalLimit false vectorResults ftsResults =
  Returned {| data := finalResults (diversify env finalLimit
                        (sort byItemScoreDesc (fusedItem env f <$> candidates))) |}.
Proof.
  intros env f candidates.
  assert (fusionScores f candidates = fusedScore f <$> candidates) as Hscores.
  { apply fusionScores_fused, Forall_forall. intros doc Hdoc.
    apply fused_positive; [apply fusion_is_ok|]. by eapply candidates_fused. }
  split; [done|].
  unfold rank. fold env f. subst candidates.
  destruct (stage2Candidates env (query_pooled enc) (topCandidates env f)) as [|d stage2] eqn:Hs.
  - unfold rerankCandidates, slice0. by rewrite take_nil.
  - unfold scored. by rewrite Hscores, scoreItem_fused.
Qed.




(** *** Failures *)

Lemma rank_returns h enc finalLimit doRerank vectorResults ftsResults :
  doRerank = false ∨ (∀ input, returned (rerank h input) = true) →
  returned (rank h enc finalLimit doRerank vectorResults ftsResults) = true.
Proof.
  intros Hrerank. unfold rank.
  destruct (stage2Candidates _ _ _) as [|d stage2]; [done|].
  destruct doRerank; [|done].
  destruct Hrerank as [[=]|Hrerank].
  match goal with |- context [rerank h ?input] => specialize (Hrerank input) end.
  by destruct (rerank h _).
Qed.

Lemma rank_nothing h enc finalLimit doRerank :
  rank h enc finalLimit doRerank [] [] = Returned {| data := [] |}.
Proof.
  unfold rank, fusion, forEach. simpl. unfold topCandidates, fused, slice0. simpl.
  rewrite take_nil. unfold stage2Candidates.
  destruct (query_pooled enc); [|done].
  pose proof (STAGE2_K_pos (process_env h)).
  destruct (STAGE2_K (process_env h) <? Z.of_nat (length [])) eqn:Hlt; [|done].
  apply Z.ltb_lt in Hlt. simpl in Hlt. lia.
Qed.

(** The answer of [createFTSIndex] bears on the console only. *)
Lemma search_createFTSIndex h s query top_k rerankOption pathPrefix answer :
  (search (with_createFTSIndex h answer) s query top_k rerankOption pathPrefix).1 =
  (search h s query top_k rerankOption pathPrefix).1.
Proof.
  unfold search, rank, whereClause. simpl.
  destruct (encodeQuery h query) as [enc|]; [|done].
  destruct (ensureTable h) as [table|]; [|done].
  destruct (vectorSearch table _ _ _) as [rows|]; [|done].
  by destruct (ftsSearch table _ _ _).
Qed.

(** What [ensureFts] writes stays on the console to the end. *)
Lemma search_console h s query top_k rerankOption pathPrefix enc table msg :
  encodeQuery h query = Returned enc →
  ensureTable h = Returned table →
  msg ∈ console
          (ensureFts h
             (if colbertDim enc =? COLBERT_DIM h then s
              else warn ("[Searcher] Warning: Query ColBERT dim (" ++ pretty (colbertDim enc)
                         ++ ") != Config (" ++ pretty (COLBERT_DIM h) ++ ")") s)) →
  msg ∈ console (search h s query top_k rerankOption pathPrefix).2.
Proof.
  intros Henc Htable Hmsg. unfold search. rewrite Henc, Htable.
  destruct (vectorSearch table _ _ _) as [rows|]; [|exact Hmsg].
  destruct (ftsSearch table _ _ _); simpl; [exact Hmsg|].
  apply elem_of_app. by left.
Qed.

(** C2, as the code has it. What is caught: a table that cannot be
    opened gives the empty response; a [createFTSIndex] that fails is
    logged and changes no result; a full-text search that throws is
    logged and the rows of the dense search are ranked alone; no
    candidate at all gives the empty response; and with all this nothing
    is thrown as long as the pool answers. What is not caught: a
    rejected encoding of the query, a dense search that throws, and a
    rejected rerank when there is a candidate are thrown by [search] as
    they are. *)
Theorem search_survives_store_failures
    (h : Host) (s : State) (query : string) (top_k : option Z)
    (rerankOption : option bool) (pathPrefix : option string) :
  let env := process_env h in
  let finalLimit := default 10 top_k in
  let doRerank := default true rerankOption in
  let preK := PRE_RERANK_K env finalLimit in
  let clause := whereClause h pathPrefix in
  let result := search h s query top_k rerankOption pathPrefix in
  (∀ e, encodeQuery h query = Thrown e → result = (Thrown e, s)) ∧
  (∀ answer,
     (search (with_createFTSIndex h answer) s query top_k rerankOption pathPrefix).1
     = result.1) ∧
  (∀ enc, encodeQuery h query = Returned enc →
     (∀ e, ensureTable h = Thrown e → result.1 = Returned {| data := [] |}) ∧
     (∀ table, ensureTable h = Returned table →
        (∀ e, ftsIndexChecked s = false → createFTSIndex h = Thrown e →
           "[Searcher] Failed to ensure FTS index: " ++ e ∈ console result.2) ∧
        (∀ e, vectorSearch table (dense enc) preK clause = Thrown e → result.1 = Thrown e) ∧
        (∀ rows, vectorSearch table (dense enc) preK clause = Returned rows →
           (∀ msg, ftsSearch table query preK clause = Thrown msg →
              result.1 = rank h enc finalLimit doRerank rows [] ∧
              "[Searcher] FTS search failed: " ++ msg ∈ console result.2) ∧
           (rows = [] →
            match ftsSearch table query preK clause with
            | Returned l => l = []
            | Thrown _ => True
            end →
            result.1 = Returned {| data := [] |}) ∧
           (doRerank = false ∨ (∀ input, returned (rerank h input) = true) →
            returned result.1 = true) ∧
           (∀ e,
              let ftsRows :=
                match ftsSearch table query preK clause with
                | Returned l => l
                | Thrown _ => []
                end in
              let stage2 :=
                stage2Candidates env (query_pooled enc)
                  (topCandidates env (fusion rows ftsRows)) in
              doRerank = true →
              stage2 ≠ [] →
              rerank h {| rerank_query := query_colbert enc;
                          docs := map rerankDoc (rerankCandidates env stage2);
                          rerank_colbertDim := colbertDim enc |} = Thrown e →
              result.1 = Thrown e)))).
Proof.
  intros env finalLimit doRerank preK clause result. split_and!.
  - intros e He. unfold result, search. by rewrite He.
  - intros answer. apply search_createFTSIndex.
  - intros enc Henc. split.
    { intros e He. unfold result, search. by rewrite Henc, He. }
    intros table Htable. split.
    { intros e Hflag Hindex.
      apply (search_console h s query top_k rerankOption pathPrefix enc table);
        [done|done|].
      unfold ensureFts. rewrite Hindex.
      destruct (colbertDim enc =? COLBERT_DIM h); simpl; rewrite Hflag; simpl;
        apply elem_of_app; right; left. }
    split.
    { intros e He. unfold result, search. rewrite Henc, Htable.
      fold env finalLimit preK clause. by rewrite He. }
    intros rows Hdense.
    pose proof (search_ranks h s query top_k rerankOption pathPrefix enc table rows
                  Henc Htable Hdense) as Hsearch.
    fold env finalLimit doRerank preK clause result in Hsearch.
    split_and!.
    + intros msg Hfts. rewrite Hfts in Hsearch. split; [done|].
      unfold result, search. rewrite Henc, Htable.
      fold env finalLimit preK clause. rewrite Hdense, Hfts. simpl.
      apply elem_of_app. right. left.
    + intros -> Hfts. rewrite Hsearch.
      destruct (ftsSearch table query preK clause) as [l|]; [subst l|]; apply rank_nothing.
    + intros Hrerank. rewrite Hsearch. by apply rank_returns.
    + intros e ftsRows stage2 Hdo Hstage2 Hrerank. rewrite Hsearch. fold ftsRows.
      unfold rank. fold env stage2. rewrite Hdo.
      destruct stage2 as [|d rest] eqn:Hs; [done|]. by rewrite Hrerank.
Qed.

Lemma search_survives_store_failures_example :
  (search Scenarios.host_without_table Scenarios.idle "q" None None None).1
    = Returned {| data := [] |} ∧
  "[Searcher] Failed to ensure FTS index: no such column"
    ∈ console (search (with_createFTSIndex (Scenarios.host ∅ [Scenarios.readme])
                         (Thrown "no such column"))
                 Scenarios.idle "q" None (Some false) None).2 ∧
  "[Searcher] FTS search failed: no FTS index"
    ∈ console (search (Scenarios.host ∅ [Scenarios.readme]) Scenarios.idle
                 "q" None (Some false) None).2 ∧
  search Scenarios.host_without_worker Scenarios.idle "q" None None None
    = (Thrown "Worker restarting: worker exit: code 1", Scenarios.idle) ∧
  (search Scenarios.host_without_vectors Scenarios.idle "q" None None None).1
    = Thrown "vector index is corrupt".
Proof.
  destruct (search_survives_store_failures Scenarios.host_without_table Scenarios.idle
              "q" None None None) as (_ & _ & Hmissing).
  destruct (Hmissing Scenarios.encoding eq_refl) as [Hempty _].
  destruct (search_survives_store_failures
              (with_createFTSIndex (Scenarios.host ∅ [Scenarios.readme])
                 (Thrown "no such column"))
              Scenarios.idle "q" None (Some false) None) as (_ & _ & Hindex).
  destruct (Hindex Scenarios.encoding eq_refl) as [_ Hindex'].
  destruct (Hindex' (Scenarios.table [Scenarios.readme]) eq_refl) as [Hlogged _].
  destruct (search_survives_store_failures (Scenarios.host ∅ [Scenarios.readme])
              Scenarios.idle "q" None (Some false) None) as (_ & _ & Hfts).
  destruct (Hfts Scenarios.encoding eq_refl) as [_ Hfts'].
  destruct (Hfts' (Scenarios.table [Scenarios.readme]) eq_refl) as (_ & _ & Hrows).
  destruct (Hrows [Scenarios.readme] eq_refl) as (Hftslog & _).
  destruct (search_survives_store_failures Scenarios.host_without_worker Scenarios.idle
              "q" None None None) as (Hencoding & _).
  destruct (search_survives_store_failures Scenarios.host_without_vectors Scenarios.idle
              "q" None None None) as (_ & _ & Hdense).
  destruct (Hdense Scenarios.encoding eq_refl) as [_ Hdense'].
  destruct (Hdense' {| vectorSearch := λ _ _ _, Thrown "vector index is corrupt";
                       ftsSearch := λ _ _ _, Returned [] |} eq_refl) as (_ & Hthrown & _).
  split_and!.
  - exact (Hempty "table not found" eq_refl).
  - exact (Hlogged "no such column" eq_refl eq_refl).
  - exact (proj2 (Hftslog "no FTS index" eq_refl)).
  - exact (Hencoding "Worker restarting: worker exit: code 1" eq_refl).
  - exact (Hthrown "vector index is corrupt" eq_refl).
Defined.

(** C2 as stated fails: the worker is restarted under the rerank request,
    the pool rejects the request, and the search throws. *)
Lemma search_throws_on_worker_restart :
  (search (Scenarios.host ∅ [Scenarios.readme; Scenarios.source]) Scenarios.idle
     "q" None None None).1
  = Thrown "Worker restarting: memory limit exceeded" ∧
  returned (search (Scenarios.host ∅ [Scenarios.readme; Scenarios.source]) Scenarios.idle
              "q" None None None).1 = false.
Proof. split; vm_compute; reflexivity. Qed.

(** *** Diversification *)

Lemma fromFile_snoc p items item :
  fromFile p (items ++ [item])%list =
  (fromFile p items ++ if String.eqb (path (record item)) p then [item] else [])%list.
Proof. unfold fromFile. by rewrite List.filter_app. Qed.

Lemma diversify_loop_per_file maxPerFile finalLimit items seenFiles diversified p :
  (∀ q, default 0 (seenFiles !! q) = Z.of_nat (length (fromFile q diversified))) →
  (∀ q, Z.of_nat (length (fromFile q diversified)) ≤ Z.max 0 maxPerFile) →
  Z.of_nat (length (fromFile p
    (diversify_loop maxPerFile finalLimit items seenFiles diversified))) ≤ Z.max 0 maxPerFile.
Proof.
  revert seenFiles diversified.
  induction items as [|item rest IH]; intros seenFiles diversified Hseen Hmax; simpl; [done|].
  set (p0 := path (record item)).
  destruct (default 0 (seenFiles !! p0) <? maxPerFile) eqn:Hcount.
  - apply Z.ltb_lt in Hcount.
    assert (∀ q, default 0 (<[p0 := default 0 (seenFiles !! p0) + 1]> seenFiles !! q)
                 = Z.of_nat (length (fromFile q (diversified ++ [item])%list))) as Hseen'.
    { intros q. rewrite fromFile_snoc, length_app. fold p0.
      destruct (String.eqb_spec p0 q) as [<-|Hne].
      - rewrite lookup_insert_eq. simpl. rewrite Hseen. lia.
      - rewrite lookup_insert_ne by done. rewrite Hseen. simpl. lia. }
    assert (∀ q, Z.of_nat (length (fromFile q (diversified ++ [item])%list))
                 ≤ Z.max 0 maxPerFile) as Hmax'.
    { intros q. rewrite <- Hseen'.
      destruct (decide (p0 = q)) as [<-|Hne].
      - rewrite lookup_insert_eq. simpl. lia.
      - rewrite lookup_insert_ne by done. rewrite Hseen. apply Hmax. }
    destruct (finalLimit <=? _); [apply Hmax'|by apply IH].
  - destruct (finalLimit <=? _); [apply Hmax|by apply IH].
Qed.

Lemma diversify_loop_total maxPerFile finalLimit items seenFiles diversified :
  Z.of_nat (length diversified) < finalLimit →
  Z.of_nat (length (diversify_loop maxPerFile finalLimit items seenFiles diversified))
  ≤ finalLimit.
Proof.
  revert seenFiles diversified.
  induction items as [|item rest IH]; intros seenFiles diversified Hlen; simpl; [lia|].
  destruct (default 0 (seenFiles !! path (record item)) <? maxPerFile).
  - destruct (finalLimit <=? Z.of_nat (length (diversified ++ [item])%list)) eqn:Hstop.
    + rewrite length_app. simpl. lia.
    + apply IH. apply Z.leb_gt in Hstop. lia.
  - destruct (finalLimit <=? Z.of_nat (length diversified)) eqn:Hstop; [lia|by apply IH].
Qed.

(** No file gives more than [MAX_PER_FILE] results, and a positive limit
    caps their number. *)
Lemma diversify_bounds env finalLimit items :
  (∀ p, Z.of_nat (length (fromFile p (diversify env finalLimit items))) ≤ MAX_PER_FILE env) ∧
  (0 < finalLimit → Z.of_nat (length (diversify env finalLimit items)) ≤ finalLimit).
Proof.
  split.
  - intros p. pose proof (env_count_pos env "OSGREP_MAX_PER_FILE" 3 eq_refl) as Hpos.
    fold (MAX_PER_FILE env) in Hpos.
    pose proof (diversify_loop_per_file (MAX_PER_FILE env) finalLimit items ∅ [] p) as Hfile.
    unfold diversify. etrans; [apply Hfile|lia].
    + intros q. by rewrite lookup_empty.
    + intros q. simpl. lia.
  - intros Hpos. by apply diversify_loop_total.
Qed.

(** C5 fails on the code for a limit of zero: the loop tests the limit
    only after it has taken a record, so one record is returned. *)
Theorem limit_zero_returns_one_record :
  ∃ response,
    (search (Scenarios.host ∅ [Scenarios.readme; Scenarios.source]) Scenarios.idle
       "q" (Some 0) (Some false) None).1 = Returned response ∧
    length (data response) = 1%nat ∧
    ¬ (Z.of_nat (length (data response)) ≤ 0).
Proof. eexists. split_and!; [vm_compute; reflexivity|reflexivity|simpl; lia]. Qed.

(** *** Tuning through the environment *)

Lemma env_count_invalid env name dflt :
  invalid_count (env_get env name) → env_count env name dflt = dflt.
Proof.
  unfold invalid_count, env_count. destruct (parseInt _) as [| |q]; [done|done|].
  intros Hq. simpl. unfold Qltb.
  by rewrite (proj2 (Qle_bool_iff q 0) Hq).
Qed.

Lemma env_multiplier_invalid env name dflt :
  invalid_multiplier (env_get env name) → env_multiplier env name dflt = toNumber dflt.
Proof.
  unfold invalid_multiplier, env_multiplier, or_else.
  destruct (parseFloat _) as [| |q]; [done|done|].
  intros Hq. simpl. by rewrite (Qeq_eq_bool _ _ Hq).
Qed.




(** The variables are read as binary64 values: a blend that rounds to
    zero is used and one that rounds to an infinity is not; a count that
    rounds to an infinity and a multiplier that rounds to zero give way
    to the default. *)
Example tuning_reads_numbers :
  parseFloat "0.1" = Finite (3602879701896397 # 36028797018963968) ∧
  parseInt "9007199254740993" = Finite (inject_Z 9007199254740992) ∧
  FUSED_WEIGHT {["OSGREP_RERANK_BLEND" := "-1e-400"]} = 0%Q ∧
  FUSED_WEIGHT {["OSGREP_RERANK_BLEND" := "1e400"]} = 0.5%Q ∧
  STAGE1_K {["OSGREP_STAGE1_K" := Scenarios.huge_count]} = 200 ∧
  anchorPenalty {["OSGREP_ANCHOR_PENALTY" := "1e-400"]} = toNumber 0.99.
Proof. split_and!; vm_compute; reflexivity. Qed.

(** *** The seed scenarios of the specification *)

(** S1: with equal rerank scores an anchor, though first in the dense
    list, ranks below a chunk that is none. *)
Example anchor_ranks_below :
  ∃ response,
    (search (Scenarios.host_with_rerank [Scenarios.anchor; Scenarios.block] [1; 1]%Q)
       Scenarios.idle "q" None None None).1 = Returned response ∧
    metadata_is_anchor <$> data response = [false; true].
Proof. eexists. split; vm_compute; reflexivity. Qed.

(** S2: with equal rerank scores a test file ranks below the source
    file. *)
Example test_ranks_below :
  ∃ response,
    (search (Scenarios.host_with_rerank [Scenarios.test; Scenarios.block] [1; 1]%Q)
       Scenarios.idle "q" None None None).1 = Returned response ∧
    metadata_path <$> data response = ["src/a.ts"; "src/__tests__/foo.test.ts"].
Proof. eexists. split; vm_compute; reflexivity. Qed.

(** S6: the full-text search throws, the dense search answers three
    chunks of one kind; they come back in dense order and the failure is
    on the console. *)
Example fts_fallback :
  ∃ response,
    search (Scenarios.host ∅ [Scenarios.chunk "x" "src/x.ts" "block";
                              Scenarios.chunk "y" "src/y.ts" "block";
                              Scenarios.chunk "z" "src/z.ts" "block"])
      Scenarios.idle "q" None (Some false) None
    = (Returned response,
       {| ftsIndexChecked := true;
          console := ["[Searcher] FTS search failed: no FTS index"] |}) ∧
    metadata_path <$> data response = ["src/x.ts"; "src/y.ts"; "src/z.ts"].
Proof. eexists. split; vm_compute; reflexivity. Qed.

End SearcherFacts.

(** ** The meta store *)
Module MetaStoreFacts.
Import JS MetaStore.

Lemma normalizeEntries_entry_json (l : list (string * MetaEntry)) :
  normalizeEntries (prod_map id MetaStoreEntries.entry_json <$> l) = Returned l.
Proof.
  induction l as [|[k [h m s]] l IH]; csimpl; [done|]. by rewrite IH.
Qed.

Lemma fromEntries_loop (l : list (string * MetaEntry)) (acc : gmap string MetaEntry) :
  NoDup l.*1 → (∀ k, k ∈ l.*1 → acc !! k = None) →
  foldl (λ m e, <[e.1 := e.2]> m) acc l = list_to_map l ∪ acc.
Proof.
  revert acc. induction l as [|[k v] l IH]; intros acc Hnd Hacc.
  - simpl. by rewrite (left_id_L ∅ (∪)).
  - rewrite fmap_cons in Hnd, Hacc. apply NoDup_cons in Hnd as [Hk Hnd]. simpl in Hk.
    simpl. rewrite IH; [|done|].
    + rewrite <- insert_union_l. symmetry. apply insert_union_r.
      by apply not_elem_of_list_to_map.
    + intros k' Hk'. rewrite lookup_insert_ne by (intros ->; done).
      apply Hacc. by right.
Qed.

Lemma fromEntries_to_list (m : gmap string MetaEntry) :
  Object_fromEntries (map_to_list m) = m.
Proof.
  unfold Object_fromEntries. rewrite fromEntries_loop.
  - by rewrite (right_id_L ∅ (∪)), list_to_map_to_list.
  - apply NoDup_fst_map_to_list.
  - intros k _. apply lookup_empty.
Qed.

(** *** The order of the bodies on the queue *)

Lemma chained_serialized ts : forallb is_chained ts = true → serialized ts = true.
Proof.
  induction ts as [|t ts IH]; [done|]. simpl.
  intros [Ht Hts]%andb_true_iff. by destruct t.
Qed.

Lemma serialized_snoc ts : serialized ts = true → serialized (ts ++ [Chained]) = true.
Proof.
  induction ts as [|t ts IH]; [done|]. simpl.
  destruct t; try (intros Hts; by rewrite forallb_app, Hts); done.
Qed.

(** The body that has the turn is the only one: whatever becomes of it
    the bodies stay in order, and no other body has started. *)
Lemma serialized_turn ts i t :
  serialized ts = true → ts !! i = Some t → has_turn ts i t →
  (∀ t', serialized (<[i := t']> ts) = true) ∧
  (∀ j t', j ≠ i → ts !! j = Some t' → t' = Chained ∨ ∃ result, t' = Settled result).
Proof.
  revert i. induction ts as [|x ts IH]; intros i Hs Hi Hturn; [done|].
  destruct i as [|i].
  - simpl in Hi. injection Hi as ->.
    assert (forallb is_chained ts = true) as Hrest.
    { destruct t; simpl in Hs; done. }
    split.
    + intros t'. simpl. destruct t'; try done. by apply chained_serialized.
    + intros [|j] t' Hj Hlook; [done|]. simpl in Hlook. left.
      rewrite forallb_forall in Hrest. apply list_elem_of_lookup_2, list_elem_of_In in Hlook.
      specialize (Hrest _ Hlook). by destruct t'.
  - simpl in Hi.
    destruct x as [| | | |result].
    1-4: exfalso; simpl in Hs; rewrite forallb_forall in Hs;
      pose proof (Hs _ (proj1 (list_elem_of_In _ _) (list_elem_of_lookup_2 _ _ _ Hi))) as Ht;
      destruct t; try done; destruct i as [|i]; simpl in Hturn;
      [by destruct Hturn as [? [=]]|];
      destruct Hturn as [result Hprev];
      pose proof (Hs _ (proj1 (list_elem_of_In _ _) (list_elem_of_lookup_2 _ _ _ Hprev)));
      done.
    simpl in Hs.
    assert (has_turn ts i t) as Hturn'.
    { destruct t; try done. destruct i as [|i]; [done|]. exact Hturn. }
    destruct (IH i Hs Hi Hturn') as [Hput Hothers]. split.
    + intros t'. simpl. apply Hput.
    + intros [|j] t' Hj Hlook.
      * simpl in Hlook. injection Hlook as <-. right. by eexists.
      * simpl in Hlook. apply (Hothers j); [lia|done].
Qed.

Section store_facts.
Context (META_FILE : string).
Context (JSON_parse : string → outcome json).
Context (JSON_stringify : gmap string MetaEntry → string).

#[local] Abbreviation tmp := (tmpFile META_FILE).
#[local] Abbreviation readData := (readData JSON_parse).
#[local] Abbreviation load := (load META_FILE JSON_parse).
#[local] Abbreviation save := (save META_FILE JSON_stringify).
#[local] Abbreviation writeSnapshot := (writeSnapshot META_FILE JSON_stringify).
#[local] Abbreviation parseData := (parseData JSON_parse).
#[local] Abbreviation readable := (readable JSON_parse).
#[local] Abbreviation resume := (resume META_FILE JSON_stringify).
#[local] Abbreviation step := (step META_FILE JSON_stringify).
#[local] Abbreviation run := (run META_FILE JSON_stringify).
#[local] Abbreviation crashed := (crashed META_FILE JSON_stringify).
#[local] Abbreviation run_ok := (run_ok META_FILE JSON_stringify).

Lemma length_append (s1 s2 : string) :
  String.length (s1 ++ s2) = (String.length s1 + String.length s2)%nat.
Proof. induction s1 as [|c s1 IH]; simpl; [done|]. by rewrite IH. Qed.

Lemma tmp_is_sibling : tmp ≠ META_FILE.
Proof.
  unfold tmpFile. intros Heq. apply (f_equal String.length) in Heq.
  rewrite length_append in Heq. simpl in Heq. lia.
Qed.

(** Reading leaves the disk as it is. *)
Lemma readData_disk p d : (readData p d).2 = d.
Proof.
  unfold MetaStore.readData, loadFile, readFile, lift, mbind, io_mbind, io_bind, mret, io_mret, io_ret.
  destruct (files d !! p) as [c|]; simpl; [|done].
  destruct (JSON_parse c) as [raw|]; simpl; [|done].
  destruct (Object_entries raw) as [entries|]; simpl; [|done].
  by destruct (normalizeEntries entries).
Qed.

Lemma readData_parseData p d :
  readData p d =
  (match files d !! p with
   | Some content => parseData content
   | None => Thrown ("ENOENT: " ++ p)
   end, d).
Proof.
  unfold MetaStore.readData, MetaStore.parseData, loadFile, readFile, lift, mbind, io_mbind,
    io_bind, mret, io_mret, io_ret.
  destruct (files d !! p) as [c|]; simpl; [|done].
  destruct (JSON_parse c) as [raw|]; simpl; [|done].
  destruct (Object_entries raw) as [entries|]; simpl; [|done].
  by destruct (normalizeEntries entries).
Qed.

(** The text [JSON.stringify] writes for the entries gives them back. *)
Lemma parseData_stringify m :
  JSON_parse (JSON_stringify m) = Returned (MetaStoreEntries.data_json m) →
  parseData (JSON_stringify m) = Returned m.
Proof.
  intros Hjson. unfold MetaStore.parseData. rewrite Hjson. simpl.
  by rewrite normalizeEntries_entry_json, fromEntries_to_list.
Qed.

(** *** What [load] does, case by case *)

#[local] Abbreviation recovering :=
  "[MetaStore] Main meta file corrupt/missing, recovering from tmp...".

Lemma load_main st d content m :
  loaded st = false →
  files d !! META_FILE = Some content →
  parseData content = Returned m →
  load st d = (Returned (set_loaded (set_data st m)), d).
Proof.
  intros Hloaded Hmain Hparse. unfold MetaStore.load. rewrite Hloaded.
  unfold mbind, io_mbind, io_bind, io_try, mret, io_mret, io_ret.
  by rewrite readData_parseData, Hmain, Hparse.
Qed.

Lemma load_unreadable st d :
  loaded st = false →
  readable META_FILE d = false →
  load st d =
  match files d !! tmp with
  | None => (Returned (set_loaded (set_data st ∅)), d)
  | Some content =>
      match parseData content with
      | Returned m =>
          if decide (META_FILE ∈ denied d)
          then (Returned (set_loaded (set_data (log recovering st) ∅)), d)
          else (Returned (set_loaded (set_data (log recovering st) m)),
                with_files d (<[META_FILE := content]> (files d)))
      | Thrown _ => (Returned (set_loaded (set_data (log recovering st) ∅)), d)
      end
  end.
Proof.
  intros Hloaded Hmain. unfold MetaStore.load. rewrite Hloaded.
  unfold mbind, io_mbind, io_bind, io_try, mret, io_mret, io_ret.
  rewrite readData_parseData. unfold MetaStore.readable in Hmain.
  assert (∃ e, match files d !! META_FILE with
               | Some content => parseData content
               | None => Thrown ("ENOENT: " ++ META_FILE)
               end = Thrown e) as [e ->].
  { destruct (files d !! META_FILE) as [c|]; [|by eexists].
    destruct (parseData c); [done|by eexists]. }
  unfold existsSync. destruct (files d !! tmp) as [content|] eqn:Htmp.
  2:{ by rewrite bool_decide_eq_false_2 by (by intros [? [=]]). }
  rewrite bool_decide_eq_true_2 by (by eexists).
  rewrite readData_parseData, Htmp.
  destruct (parseData content) as [m|e']; [|done].
  unfold copyFile, readFile, writeFile, mbind, io_mbind, io_bind. rewrite Htmp.
  by destruct (decide (META_FILE ∈ denied d)).
Qed.

(** [load] never throws, whatever the store and the disk. *)
Lemma load_returns st d : ∃ st' d'', load st d = (Returned st', d'').
Proof.
  unfold MetaStore.load. destruct (loaded st); [by eexists _, _|].
  unfold mbind, io_mbind, io_bind, io_try, mret, io_mret, io_ret.
  destruct (readData META_FILE d) as [[m|e] d1]; [by eexists _, _|].
  unfold existsSync. destruct (bool_decide _); [|by eexists _, _].
  destruct (readData tmp d1) as [[m|e'] d2]; [|by eexists _, _].
  destruct (copyFile tmp META_FILE d2) as [[[]|e'] d3]; by eexists _, _.
Qed.

Lemma writeSnapshot_queue_blind st d msg :
  writeSnapshot (log msg st) d = writeSnapshot st d.
Proof. done. Qed.

(** Whatever became of the save before it, [save] runs its body. *)
Lemma save_runs_snapshot st d :
  (save st d).2 = (writeSnapshot st d).2 ∧
  saveQueue (save st d).1 = (writeSnapshot st d).1.
Proof.
  unfold MetaStore.save.
  destruct (saveQueue st) as [[]|err]; [|rewrite writeSnapshot_queue_blind];
    by destruct (writeSnapshot st d).
Qed.

Lemma writeSnapshot_written st d :
  META_FILE ∉ denied d → tmp ∉ denied d →
  writeSnapshot st d =
  (Returned (),
   with_files d (<[META_FILE := JSON_stringify (data st)]> (delete tmp (files d)))).
Proof.
  intros Hmain Htmp.
  unfold MetaStore.writeSnapshot, mkdir, writeFile, rename, mbind, io_mbind, io_bind,
    mret, io_mret, io_ret.
  rewrite decide_False by done. simpl.
  rewrite lookup_insert_eq, decide_False by done.
  by rewrite delete_insert_eq.
Qed.

(** *** One save is the run of one body *)

Lemma resume_at i r t :
  tasks r !! i = Some t →
  resume i r =
  match t with
  | Chained =>
      match chainedOn r i with
      | Some (Settled previous) =>
          {| store :=
               match previous with
               | Thrown err => log ("MetaStore save failed (previous): " ++ err) (store r)
               | Returned _ => store r
               end;
             disk := disk r; tasks := <[i := AtMkdir]> (tasks r); snapshots := snapshots r |}
      | _ => r
      end
  | AtMkdir => await r i (mkdir META_FILE) AtWriteFile
  | AtWriteFile =>
      await {| store := store r; disk := disk r; tasks := tasks r;
               snapshots := (snapshots r ++ [data (store r)])%list |}
        i (writeFile tmp (JSON_stringify (data (store r)))) AtRename
  | AtRename => await r i (rename tmp META_FILE) (Settled (Returned ()))
  | Settled _ => r
  end.
Proof. intros Hi. unfold MetaStore.resume. by rewrite Hi. Qed.

Lemma save_is_a_run st d :
  let r := run [CallSave; Resume 0; Resume 0; Resume 0; Resume 0] (start st d) in
  disk r = (save st d).2 ∧
  tasks r = [Settled (saveQueue (save st d).1)] ∧
  data (store r) = data (save st d).1 ∧
  console (store r) = console (save st d).1.
Proof.
  unfold MetaStore.run, start. cbn [foldl MetaStore.step tasks app store disk snapshots].
  set (st1 := match saveQueue st with
              | Thrown err => log ("MetaStore save failed (previous): " ++ err) st
              | Returned _ => st
              end).
  assert (data st1 = data st) as Hdata by (subst st1; by destruct (saveQueue st)).
  assert (save st d =
          ({| data := data st1; loaded := loaded st1; saveQueue := (writeSnapshot st d).1;
              console := console st1 |}, (writeSnapshot st d).2)) as ->.
  { unfold MetaStore.save. fold st1.
    assert (writeSnapshot st1 d = writeSnapshot st d) as ->
      by (subst st1; by destruct (saveQueue st)).
    by destruct (writeSnapshot st d). }
  change (resume 0 {| store := st; disk := d; tasks := [Chained]; snapshots := [] |})
    with {| store := st1; disk := d; tasks := [AtMkdir]; snapshots := [] |}.
  change (resume 0 {| store := st1; disk := d; tasks := [AtMkdir]; snapshots := [] |})
    with {| store := st1; disk := d; tasks := [AtWriteFile]; snapshots := [] |}.
  change (resume 0 {| store := st1; disk := d; tasks := [AtWriteFile]; snapshots := [] |})
    with (await {| store := st1; disk := d; tasks := [AtWriteFile];
                   snapshots := [data st1] |}
            0 (writeFile tmp (JSON_stringify (data st1))) AtRename).
  rewrite Hdata.
  unfold MetaStore.writeSnapshot, mkdir, mbind, io_mbind, io_bind, mret, io_mret, io_ret.
  unfold await, with_task. cbn [store disk tasks snapshots].
  destruct (writeFile tmp (JSON_stringify (data st)) d) as [[[]|e] d1] eqn:Hwrite.
  - change (<[0%nat := AtRename]> [AtWriteFile]) with [AtRename].
    erewrite resume_at by reflexivity. unfold await, with_task.
    cbn [store disk tasks snapshots].
    by destruct (rename tmp META_FILE d1) as [[[]|e] d2].
  - change (<[0%nat := Settled (Thrown e)]> [AtWriteFile]) with [Settled (@Thrown unit e)].
    by erewrite resume_at by reflexivity.
Qed.

(** *** What every run keeps true *)

Lemma not_renaming (ts : list Task) (i : nat) (t t' : Task) :
  (∀ j t', j ≠ i → ts !! j = Some t' → t' = Chained ∨ ∃ result, t' = Settled result) →
  ts !! i = Some t → t' ≠ AtRename → AtRename ∉ <[i := t']> ts.
Proof.
  intros Hothers Hi Ht' [j Hj]%list_elem_of_lookup_1.
  destruct (decide (j = i)) as [->|Hne].
  - rewrite list_lookup_insert_eq in Hj by (by eapply lookup_lt_Some). congruence.
  - rewrite list_lookup_insert_ne in Hj by done.
    by destruct (Hothers j _ Hne Hj) as [?|[? ?]].
Qed.

Lemma resume_ok d0 i r : run_ok d0 r → run_ok d0 (resume i r).
Proof.
  intros (Hser & Hmain & Htmp). unfold MetaStore.resume.
  destruct (tasks r !! i) as [t|] eqn:Hi; [|done].
  destruct t as [| | | |result]; [| | | |done].
  - destruct (chainedOn r i) as [[| | | |previous]|] eqn:Hon; try done.
    assert (has_turn (tasks r) i Chained) as Hturn.
    { destruct i as [|j]; [done|]. simpl in Hon. simpl. by eexists. }
    destruct (serialized_turn _ _ _ Hser Hi Hturn) as [Hput Hothers].
    split_and!; simpl; [apply Hput|done|].
    intros Hin. by apply (not_renaming _ _ _ AtMkdir Hothers Hi) in Hin.
  - destruct (serialized_turn _ _ _ Hser Hi I) as [Hput Hothers].
    unfold await, mkdir, mret, io_mret, io_ret.
    split_and!; simpl; [apply Hput|done|].
    intros Hin. by apply (not_renaming _ _ _ AtWriteFile Hothers Hi) in Hin.
  - destruct (serialized_turn _ _ _ Hser Hi I) as [Hput Hothers].
    unfold await, writeFile. simpl.
    assert (files (disk r) !! META_FILE = files d0 !! META_FILE ∨
            ∃ m, m ∈ (snapshots r ++ [data (store r)])%list ∧
                 files (disk r) !! META_FILE = Some (JSON_stringify m)) as Hmain'.
    { destruct Hmain as [?|(m & Hm & ?)]; [by left|]. right. exists m.
      split; [|done]. apply elem_of_app. by left. }
    destruct (decide (tmp ∈ denied (disk r))); simpl.
    + split_and!; simpl; [apply Hput|done|].
      intros Hin. by apply (not_renaming _ _ _ (Settled _) Hothers Hi) in Hin.
    + split_and!; simpl; [apply Hput| |].
      * by rewrite lookup_insert_ne by apply tmp_is_sibling.
      * intros _. exists (data (store r)). split; [|apply lookup_insert_eq].
        apply elem_of_app. right. left.
  - destruct (serialized_turn _ _ _ Hser Hi I) as [Hput Hothers].
    destruct Htmp as (m & Hm & Hfile); [by eapply list_elem_of_lookup_2|].
    unfold await, rename. rewrite Hfile.
    destruct (decide (META_FILE ∈ denied (disk r))); simpl.
    + split_and!; simpl; [apply Hput|done|].
      intros Hin. by apply (not_renaming _ _ _ (Settled _) Hothers Hi) in Hin.
    + split_and!; simpl; [apply Hput| |].
      * right. exists m. split; [done|]. apply lookup_insert_eq.
      * intros Hin. by apply (not_renaming _ _ _ (Settled _) Hothers Hi) in Hin.
Qed.

Lemma step_ok d0 e r : run_ok d0 r → run_ok d0 (step e r).
Proof.
  destruct e as [|filePath entry|i]; [| |apply resume_ok].
  - intros (Hser & Hmain & Htmp). split_and!; simpl; [by apply serialized_snoc|done|].
    intros [Hin|Hin]%elem_of_app; [by apply Htmp|].
    by apply list_elem_of_singleton in Hin.
  - intros (Hser & Hmain & Htmp). by split_and!.
Qed.

Lemma run_is_ok d0 events r : run_ok d0 r → run_ok d0 (run events r).
Proof.
  revert r. induction events as [|e events IH]; intros r Hok; [done|].
  simpl. by apply IH, step_ok.
Qed.

Lemma start_ok st d : run_ok d (start st d).
Proof. split_and!; [done|by left|]. by intros Hin%elem_of_nil. Qed.

(** A crash inside [writeFile] tears the [.tmp] file only. *)
Lemma crashed_main r torn : files (crashed r torn) !! META_FILE = files (disk r) !! META_FILE.
Proof.
  unfold MetaStore.crashed. destruct torn as [n|]; [|done].
  destruct (existsb _ _); [|done].
  unfold writeFile. destruct (decide (tmp ∈ denied (disk r))); [done|]. simpl.
  by rewrite lookup_insert_ne by apply tmp_is_sibling.
Qed.


End store_facts.


(** A save dies between the write and the rename while the main file is
    corrupt: the next [load] takes the [.tmp] file and restores the main
    file from it. *)
Lemma load_after_crash_example :
  let main := "/home/u/.osgrep/meta.json" in
  let r := MetaStore.run main Scenarios.stringify [CallSave; Resume 0; Resume 0; Resume 0]
             (start Scenarios.failed_store Scenarios.disk) in
  let reloaded := MetaStore.load main Scenarios.parse fresh (disk r) in
  tasks r = [AtRename] ∧
  files (disk r) !! main = Some "{" ∧
  files (disk r) !! "/home/u/.osgrep/meta.json.tmp" = Some "{}" ∧
  returned reloaded.1 = true ∧
  files reloaded.2 !! main = Some "{}".
Proof. split_and!; vm_compute; reflexivity. Qed.

End MetaStoreFacts.

(** ** The worker manager *)
Module WorkerManagerFacts.
Import JS WorkerManager.

(** *** Restart of a slot *)

(** Rejecting the requests of a slot touches the pending map and the
    effects only, and adds nothing but rejections. *)
Lemma rejectPending_step index error l m :
  let m' := foldl (λ m e,
                     if (workerIndex e.2 =? index)%nat
                     then emit (Rejected e.1 error)
                            (with_pending m
                               (List.filter (λ e', negb (String.eqb e'.1 e.1)) (pendingRequests m)))
                     else m) m l in
  workers m' = workers m ∧ restartInFlight m' = restartInFlight m ∧
  terminating m' = terminating m ∧ settled m' = settled m ∧
  next_handle m' = next_handle m ∧ vectorCache m' = vectorCache m ∧
  spawns index (effects m') = spawns index (effects m) ∧
  terminations (effects m') = terminations (effects m).
Proof.
  revert m. induction l as [|e l IH]; intros m; simpl; [done|].
  destruct (workerIndex e.2 =? index)%nat; [|apply IH].
  match goal with |- context [foldl ?f ?m0 l] => specialize (IH m0) end.
  simpl in IH. destruct IH as (-> & -> & -> & -> & -> & -> & -> & ->).
  unfold spawns, terminations. simpl. rewrite !List.filter_app. simpl.
  by rewrite !app_nil_r.
Qed.

Lemma rejectPending_fields index error m :
  let m' := rejectPendingForWorker index error m in
  workers m' = workers m ∧ restartInFlight m' = restartInFlight m ∧
  terminating m' = terminating m ∧ settled m' = settled m ∧
  next_handle m' = next_handle m ∧ vectorCache m' = vectorCache m ∧
  spawns index (effects m') = spawns index (effects m) ∧
  terminations (effects m') = terminations (effects m).
Proof. apply rejectPending_step. Qed.

Lemma rejectPending_pending index error l m :
  pendingRequests
    (foldl (λ m e,
              if (workerIndex e.2 =? index)%nat
              then emit (Rejected e.1 error)
                     (with_pending m
                        (List.filter (λ e', negb (String.eqb e'.1 e.1)) (pendingRequests m)))
              else m) m l) =
  List.filter
    (λ e', negb (existsb (λ e, (workerIndex e.2 =? index)%nat && String.eqb e'.1 e.1) l))
    (pendingRequests m).
Proof.
  revert m. induction l as [|e l IH]; intros m; simpl.
  - induction (pendingRequests m) as [|x xs IHx]; simpl; [done|]. by rewrite <- IHx.
  - rewrite IH. destruct (workerIndex e.2 =? index)%nat; simpl.
    + induction (pendingRequests m) as [|x xs IHx]; simpl; [done|].
      destruct (String.eqb x.1 e.1); simpl; [done|].
      destruct (existsb _ l); simpl; by rewrite IHx.
    + done.
Qed.

(** After the rejection nothing waits on the slot. *)
Lemma rejectPending_clears index error m :
  pendingOn index (rejectPendingForWorker index error m) = [].
Proof.
  unfold pendingOn, rejectPendingForWorker. rewrite rejectPending_pending.
  destruct (List.filter _ (List.filter _ _)) as [|x rest] eqn:Hleft; [done|].
  assert (In x (x :: rest)) as Hx by (by left).
  rewrite <- Hleft in Hx.
  apply List.filter_In in Hx as [Hx Hidx].
  apply List.filter_In in Hx as [Hin Hex].
  apply negb_true_iff in Hex.
  assert (existsb (λ e, (workerIndex e.2 =? index)%nat && String.eqb x.1 e.1)
            (pendingRequests m) = true) as Htrue.
  { apply List.existsb_exists. exists x. split; [done|].
    by rewrite Hidx, String.eqb_refl. }
  congruence.
Qed.

Lemma replaceWorker_fields index reason p m :
  let m' := replaceWorker index reason p m in
  restartInFlight m' = restartInFlight m ∧ terminating m' = terminating m ∧
  settled m' = {[p]} ∪ settled m ∧ next_handle m' = S (next_handle m) ∧
  pendingRequests m' = pendingRequests m ∧
  spawns index (effects m') = S (spawns index (effects m)) ∧
  terminations (effects m') = terminations (effects m).
Proof.
  unfold replaceWorker, createWorker, new_handle, spawns, terminations.
  destruct reason as [r|]; [destruct (nonempty r)|]; simpl;
    rewrite ?List.filter_app; simpl; rewrite ?Nat.eqb_refl; simpl;
    rewrite ?length_app; simpl; split_and!; try done; lia.
Qed.

Lemma restartWorker_starts index reason m :
  restartInFlight m !! index = None →
  let first := restartWorker index reason m in
  first.1 = next_handle m ∧
  restartInFlight first.2 = <[index := first.1]> (restartInFlight m) ∧
  (next_handle m < next_handle first.2)%nat ∧
  pendingOn index first.2 = [] ∧
  match mjoin (workers m !! index) : option nat with
  | Some _ =>
      terminating first.2 = <[index := (first.1, reason)]> (terminating m) ∧
      settled first.2 = settled m ∧
      spawns index (effects first.2) = spawns index (effects m) ∧
      terminations (effects first.2) = S (terminations (effects m))
  | None =>
      terminating first.2 = terminating m ∧
      settled first.2 = {[first.1]} ∪ settled m ∧
      spawns index (effects first.2) = S (spawns index (effects m)) ∧
      terminations (effects first.2) = terminations (effects m)
  end.
Proof.
  intros Hfree. unfold restartWorker. rewrite Hfree.
  set (error := "Worker restarting: " ++ reasonText reason).
  pose proof (rejectPending_clears index error m) as Hclear.
  destruct (rejectPending_fields index error m)
    as (Hw & Hin & Hte & Hse & Hnh & _ & Hsp & Htc).
  set (m0 := rejectPendingForWorker index error m) in *.
  unfold new_handle. cbn -[replaceWorker rejectPendingForWorker]. rewrite Hw.
  destruct (mjoin (workers m !! index)) as [w|] eqn:Hworker;
    cbn -[replaceWorker rejectPendingForWorker].
  - rewrite Hte, Hse, Hin.
    split_and!; [done|done|lia|exact Hclear|done|done|..].
    + unfold spawns in *. rewrite List.filter_app. simpl. by rewrite app_nil_r.
    + unfold terminations in *. rewrite List.filter_app, length_app. simpl. lia.
  - match goal with |- context [replaceWorker index reason ?p ?m1] =>
      destruct (replaceWorker_fields index reason p m1)
        as (Hin' & Hte' & Hse' & Hnh' & Hpe' & Hsp' & Htc');
      set (m1' := replaceWorker index reason p m1) in * end.
    cbn -[replaceWorker rejectPendingForWorker] in *.
    split_and!; [done|by rewrite Hin', Hin|lia|..].
    + unfold pendingOn. cbn -[replaceWorker rejectPendingForWorker].
      rewrite Hpe'. exact Hclear.
    + by rewrite Hte'.
    + by rewrite Hse', Hse.
    + transitivity (S (spawns index (effects m0))); [exact Hsp'|by rewrite Hsp].
    + transitivity (terminations (effects m0)); [exact Htc'|done].
Qed.

Lemma terminateSettled_finishes index failure p reason m :
  terminating m !! index = Some (p, reason) →
  let finished := terminateSettled index failure m in
  restartInFlight finished = restartInFlight m ∧
  terminating finished = delete index (terminating m) ∧
  settled finished = {[p]} ∪ settled m ∧
  next_handle finished = S (next_handle m) ∧
  spawns index (effects finished) = S (spawns index (effects m)) ∧
  terminations (effects finished) = terminations (effects m).
Proof.
  intros Hterm. unfold terminateSettled. rewrite Hterm.
  match goal with |- context [replaceWorker index reason p ?m1] =>
    destruct (replaceWorker_fields index reason p m1) as (-> & -> & -> & -> & _ & -> & ->) end.
  unfold spawns, terminations.
  destruct failure; simpl; rewrite ?List.filter_app; simpl; by rewrite ?app_nil_r.
Qed.

Lemma terminateSettled_idle index failure m :
  terminating m !! index = None → terminateSettled index failure m = m.
Proof. intros Hidle. unfold terminateSettled. by rewrite Hidle. Qed.

(** C7. While a restart of a slot is in flight, a further request for the
    slot gets the promise of that restart and changes nothing: no thread
    is stopped or started and no request is rejected again. So two
    requests for one slot make one restart: one thread started in the
    slot, at most one stopped, and the promise both wait for resolves. *)
Theorem restart_is_single_flight
    (m : Manager) (index : nat) (reason reason' failure : option string) :
  consistent m →
  (∀ p, restartInFlight m !! index = Some p → restartWorker index reason' m = (p, m)) ∧
  (restartInFlight m !! index = None →
   let first := restartWorker index reason m in
   let second := restartWorker index reason' first.2 in
   let finished := terminateSettled index failure second.2 in
   second = first ∧
   pendingOn index first.2 = [] ∧
   first.1 ∈ settled finished ∧
   spawns index (effects finished) = S (spawns index (effects m)) ∧
   terminations (effects finished) =
     (terminations (effects m)
      + match mjoin (workers m !! index) : option nat with Some _ => 1 | None => 0 end)%nat ∧
   restartInFlight (restartResumed index finished) !! index = None).
Proof.
  intros (Hterm & _). split.
  { intros p Hp. unfold restartWorker. by rewrite Hp. }
  intros Hfree first second finished.
  assert (terminating m !! index = None) as Hidle.
  { destruct (terminating m !! index) as [[p r]|] eqn:Ht; [|done].
    apply Hterm in Ht as [Ht _]. congruence. }
  destruct (restartWorker_starts index reason m Hfree)
    as (Hp & Hmap & _ & Hclear & Hcase).
  fold first in Hp, Hmap, Hclear, Hcase.
  assert (restartInFlight first.2 !! index = Some first.1) as Hflight.
  { rewrite Hmap. apply lookup_insert_eq. }
  assert (second = first) as Hsecond.
  { unfold second, restartWorker. rewrite Hflight. by destruct first. }
  subst finished. rewrite Hsecond.
  split_and!; [done|done|..].
  - destruct (mjoin (workers m !! index)) as [w|].
    + destruct Hcase as (Hte & Hse & _).
      destruct (terminateSettled_finishes index failure first.1 reason first.2)
        as (_ & _ & -> & _); [rewrite Hte; apply lookup_insert_eq|].
      apply elem_of_union_l. by apply elem_of_singleton.
    + destruct Hcase as (Hte & Hse & _).
      rewrite terminateSettled_idle by (by rewrite Hte). rewrite Hse.
      apply elem_of_union_l. by apply elem_of_singleton.
  - destruct (mjoin (workers m !! index)) as [w|].
    + destruct Hcase as (Hte & _ & Hsp & _).
      destruct (terminateSettled_finishes index failure first.1 reason first.2)
        as (_ & _ & _ & _ & -> & _); [rewrite Hte; apply lookup_insert_eq|by rewrite Hsp].
    + destruct Hcase as (Hte & _ & Hsp & _).
      by rewrite terminateSettled_idle by (by rewrite Hte).
  - destruct (mjoin (workers m !! index)) as [w|].
    + destruct Hcase as (Hte & _ & _ & Htc).
      destruct (terminateSettled_finishes index failure first.1 reason first.2)
        as (_ & _ & _ & _ & _ & ->); [rewrite Hte; apply lookup_insert_eq|rewrite Htc; lia].
    + destruct Hcase as (Hte & _ & _ & Htc).
      rewrite terminateSettled_idle by (by rewrite Hte). rewrite Htc. lia.
  - unfold restartResumed. destruct (mjoin (workers m !! index)) as [w|].
    + destruct Hcase as (Hte & Hse & _).
      destruct (terminateSettled_finishes index failure first.1 reason first.2)
        as (Hin' & _ & Hse' & _); [rewrite Hte; apply lookup_insert_eq|].
      rewrite Hin', Hflight.
      rewrite decide_True by (rewrite Hse'; apply elem_of_union_l; by apply elem_of_singleton).
      unfold with_inFlight. cbn [restartInFlight]. apply lookup_delete_eq.
    + destruct Hcase as (Hte & Hse & _).
      rewrite terminateSettled_idle by (by rewrite Hte).
      rewrite Hflight.
      rewrite decide_True by (rewrite Hse; apply elem_of_union_l; by apply elem_of_singleton).
      unfold with_inFlight. cbn [restartInFlight]. apply lookup_delete_eq.
Qed.

(** *** The bookkeeping stays consistent *)

Lemma createWorkers_fields slots m :
  restartInFlight (foldl (λ m i, createWorker i m) m slots) = restartInFlight m ∧
  terminating (foldl (λ m i, createWorker i m) m slots) = terminating m ∧
  settled (foldl (λ m i, createWorker i m) m slots) = settled m.
Proof.
  revert m. induction slots as [|i slots IH]; intros m; simpl; [done|].
  by destruct (IH (createWorker i m)) as (-> & -> & ->).
Qed.

Lemma create_fields cpus cacheSize :
  restartInFlight (create cpus cacheSize) = ∅ ∧
  terminating (create cpus cacheSize) = ∅ ∧
  settled (create cpus cacheSize) = ∅.
Proof.
  unfold create.
  match goal with |- context [foldl _ ?m0 ?slots] =>
    by destruct (createWorkers_fields slots m0) as (-> & -> & ->) end.
Qed.

Lemma create_consistent cpus cacheSize : consistent (create cpus cacheSize).
Proof.
  destruct (create_fields cpus cacheSize) as (Hin & Hte & Hse).
  unfold consistent. rewrite Hin, Hte, Hse. split_and!.
  - intros i p r. by rewrite lookup_empty.
  - intros i p. by rewrite lookup_empty.
  - intros i j p. by rewrite lookup_empty.
  - intros p. by rewrite elem_of_empty.
Qed.

Lemma restartWorker_consistent index reason m :
  consistent m → consistent (restartWorker index reason m).2.
Proof.
  intros Hm. pose proof Hm as (Hterm & Hbound & Hinj & Hsettled).
  destruct (restartInFlight m !! index) as [p|] eqn:Hflight.
  { unfold restartWorker. by rewrite Hflight. }
  assert (terminating m !! index = None) as Hidle.
  { destruct (terminating m !! index) as [[p r]|] eqn:Ht; [|done].
    apply Hterm in Ht as [Ht _]. congruence. }
  destruct (restartWorker_starts index reason m Hflight) as (Hp & Hmap & Hnext & _ & Hcase).
  set (first := restartWorker index reason m) in *.
  split_and!.
  - intros i p r Hi. rewrite Hmap.
    destruct (mjoin (workers m !! index)); destruct Hcase as (Hte & Hse & _);
      rewrite Hte in Hi; rewrite Hse.
    + destruct (decide (index = i)) as [<-|Hne].
      * rewrite lookup_insert_eq in Hi. injection Hi as <- <-.
        rewrite lookup_insert_eq. split; [done|].
        intros Hin%Hsettled. lia.
      * rewrite lookup_insert_ne in Hi by done. rewrite lookup_insert_ne by done.
        by apply Hterm in Hi.
    + destruct (decide (index = i)) as [<-|Hne]; [congruence|].
      rewrite lookup_insert_ne by done. apply Hterm in Hi as [Hi Hns]. split; [done|].
      intros [->%elem_of_singleton|?]%elem_of_union; [|done].
      apply Hbound in Hi. lia.
  - intros i p. rewrite Hmap. destruct (decide (index = i)) as [<-|Hne].
    + rewrite lookup_insert_eq. intros [= <-]. lia.
    + rewrite lookup_insert_ne by done. intros Hi%Hbound. lia.
  - intros i j p. rewrite Hmap.
    destruct (decide (index = i)) as [<-|Hi]; destruct (decide (index = j)) as [<-|Hj];
      rewrite ?lookup_insert_eq, ?lookup_insert_ne by done; try done.
    + intros [= <-] Hj'%Hbound. lia.
    + intros Hi'%Hbound [= <-]. lia.
    + apply Hinj.
  - intros p Hp'.
    destruct (mjoin (workers m !! index)); destruct Hcase as (_ & Hse & _);
      rewrite Hse in Hp'.
    + apply Hsettled in Hp'. lia.
    + apply elem_of_union in Hp' as [->%elem_of_singleton|Hp'%Hsettled]; lia.
Qed.

Lemma terminateSettled_consistent index failure m :
  consistent m → consistent (terminateSettled index failure m).
Proof.
  intros Hm. pose proof Hm as (Hterm & Hbound & Hinj & Hsettled).
  destruct (terminating m !! index) as [[p reason]|] eqn:Ht;
    [|by rewrite terminateSettled_idle].
  destruct (terminateSettled_finishes index failure p reason m Ht)
    as (Hin & Hte & Hse & Hnh & _).
  destruct (Hterm _ _ _ Ht) as [Hflight Hns].
  unfold consistent. rewrite Hin, Hte, Hse, Hnh. split_and!.
  - intros i p' r Hi. apply lookup_delete_Some in Hi as [Hne Hi].
    apply Hterm in Hi as [Hi Hns']. split; [done|].
    intros [->%elem_of_singleton|?]%elem_of_union; [|done].
    apply Hne. by eapply Hinj.
  - intros i p' Hi%Hbound. lia.
  - apply Hinj.
  - intros p' [->%elem_of_singleton|Hp'%Hsettled]%elem_of_union; [|lia].
    apply Hbound in Hflight. lia.
Qed.

Lemma restartResumed_consistent index m :
  consistent m → consistent (restartResumed index m).
Proof.
  intros Hm. pose proof Hm as (Hterm & Hbound & Hinj & Hsettled).
  unfold restartResumed.
  destruct (restartInFlight m !! index) as [p|] eqn:Hflight; [|done].
  destruct (decide (p ∈ settled m)) as [Hp|]; [|done].
  unfold consistent, with_inFlight. cbn [restartInFlight terminating settled next_handle].
  split_and!; [|intros i q [_ Hi]%lookup_delete_Some; by eapply Hbound| |done].
  - intros i q r Hi. destruct (Hterm _ _ _ Hi) as [Hq Hns]. split; [|done].
    apply lookup_delete_Some. split; [|done]. intros <-. congruence.
  - intros i j q [_ Hi]%lookup_delete_Some [_ Hj]%lookup_delete_Some. by eapply Hinj.
Qed.

Lemma restart_is_single_flight_example :
  restartWorker 1 (Some "worker exit: code 1")
    (restartWorker 1 (Some "memory limit exceeded") (create 4 16)).2
  = restartWorker 1 (Some "memory limit exceeded") (create 4 16).
Proof.
  exact (proj1 (proj2
    (restart_is_single_flight (create 4 16) 1 (Some "memory limit exceeded")
       (Some "worker exit: code 1") None (create_consistent 4 16))
    ltac:(vm_compute; reflexivity))).
Defined.

(** *** The embedding cache *)

Lemma find_without_other (k k' : option string) (es : list (option string * vector)) :
  k' ≠ k →
  List.find (same_key k') (List.filter (λ e, negb (same_key k e)) es)
  = List.find (same_key k') es.
Proof.
  intros Hne. induction es as [|e es IH]; simpl; [done|].
  destruct (same_key k e) eqn:Hk; simpl.
  - rewrite IH. apply bool_decide_eq_true in Hk.
    unfold same_key. rewrite bool_decide_eq_false_2; [done|congruence].
  - by rewrite IH.
Qed.

(** A lookup moves an entry to the front and forgets nothing. *)
Lemma lru_get_find c k k' : lru_find (lru_get c k).2 k' = lru_find c k'.
Proof.
  unfold lru_get. destruct (lru_find c k) as [v|] eqn:Hk; [|done].
  unfold lru_find in *. simpl. unfold same_key at 1. simpl.
  destruct (bool_decide_reflect (k = k')) as [<-|Hne]; [by rewrite Hk|].
  unfold lru_without. rewrite find_without_other by done. done.
Qed.

Lemma lru_get_value c k : (lru_get c k).1 = lru_find c k.
Proof. unfold lru_get. by destruct (lru_find c k). Qed.

Lemma lookupText_eq text i e c :
  lookupText text i (e, c) =
  match lru_find c (Some text) with
  | Some v =>
      ({| neededIndices := neededIndices e; neededTexts := neededTexts e;
          results := <[i := Some v]> (results e) |}, (lru_get c (Some text)).2)
  | None =>
      ({| neededIndices := (neededIndices e ++ [i])%list;
          neededTexts := (neededTexts e ++ [text])%list;
          results := results e |}, (lru_get c (Some text)).2)
  end.
Proof. unfold lookupText, lru_get. by destruct (lru_find c (Some text)). Qed.

(** The first loop: the cache is asked about every text in turn. *)
Lemma lookup_loop c0 texts first e c pre post :
  (∀ k, lru_find c k = lru_find c0 k) →
  length pre = first →
  results e = (pre ++ replicate (length texts) None ++ post)%list →
  let r := forEach_at lookupText first texts (e, c) in
  neededIndices r.1 = (neededIndices e ++ holes c0 first texts)%list ∧
  neededTexts r.1 = (neededTexts e ++ uncached c0 texts)%list ∧
  results r.1 = (pre ++ (cached c0 <$> texts) ++ post)%list ∧
  (∀ k, lru_find r.2 k = lru_find c0 k).
Proof.
  revert first e c pre.
  induction texts as [|text texts IH]; intros first e c pre Hc Hpre Hres;
    cbn [forEach_at holes uncached List.filter fmap list_fmap].
  { simpl. by rewrite !app_nil_r. }
  pose proof (lru_get_find c (Some text)) as Hfind.
  rewrite lookupText_eq, Hc. fold (cached c0 text).
  destruct (cached c0 text) as [v|] eqn:Hcached.
  - match goal with |- context [forEach_at lookupText (S first) texts (?e1, ?c1)] =>
      destruct (IH (S first) e1 c1 (pre ++ [Some v])%list) as (Hi & Ht & Hr & Hf) end.
    + intros k. by rewrite Hfind.
    + rewrite length_app. simpl. lia.
    + simpl. rewrite Hres. simpl.
      rewrite insert_app_r_alt by lia.
      replace (first - length pre)%nat with 0%nat by lia. simpl.
      by rewrite <- app_assoc.
    + simpl in Hi, Ht, Hr. split_and!; [done|done| |done].
      rewrite Hr. by rewrite <- app_assoc.
  - match goal with |- context [forEach_at lookupText (S first) texts (?e1, ?c1)] =>
      destruct (IH (S first) e1 c1 (pre ++ [None])%list) as (Hi & Ht & Hr & Hf) end.
    + intros k. by rewrite Hfind.
    + rewrite length_app. simpl. lia.
    + simpl. rewrite Hres. simpl. by rewrite <- app_assoc.
    + simpl in Hi, Ht, Hr. split_and!; [| | |done].
      * rewrite Hi. by rewrite <- app_assoc.
      * rewrite Ht. by rewrite <- app_assoc.
      * rewrite Hr. by rewrite <- app_assoc.
Qed.

Lemma store_loop_results e computed i results cache :
  (forEach_at (storeVector e) i computed (results, cache)).1
  = forEach_at (place (neededIndices e)) i computed results.
Proof.
  revert i results cache.
  induction computed as [|v computed IH]; intros i results cache; simpl; [done|].
  unfold place at 2. destruct (neededIndices e !! i); apply IH.
Qed.

Lemma place_nil computed i results : forEach_at (place []) i computed results = results.
Proof.
  revert i results. induction computed as [|v computed IH]; intros i results; simpl; [done|].
  apply IH.
Qed.

Lemma place_shift o indices computed i results :
  forEach_at (place (o :: indices)) (S i) computed results
  = forEach_at (place indices) i computed results.
Proof.
  revert i results. induction computed as [|v computed IH]; intros i results; simpl; [done|].
  apply IH.
Qed.

Lemma served_nil c texts : served c texts [] = cached c <$> texts.
Proof.
  induction texts as [|text texts IH]; simpl; [done|].
  rewrite IH. by destruct (cached c text).
Qed.

Lemma served_all_cached c texts computed :
  uncached c texts = [] → served c texts computed = cached c <$> texts.
Proof.
  unfold uncached. revert computed.
  induction texts as [|text texts IH]; intros computed; simpl; [done|].
  destruct (cached c text); [|done]. intros H. by rewrite IH.
Qed.

(** The second loop: the computed vectors fill the holes in order. *)
Lemma place_served c texts first pre computed :
  length pre = first →
  forEach_at (place (holes c first texts)) 0 computed (pre ++ (cached c <$> texts))%list
  = (pre ++ served c texts computed)%list.
Proof.
  revert first pre computed.
  induction texts as [|text texts IH]; intros first pre computed Hpre; csimpl.
  { by rewrite place_nil. }
  destruct (cached c text) as [v|] eqn:Hcached; csimpl.
  - replace (pre ++ Some v :: (cached c <$> texts))%list
      with ((pre ++ [Some v]) ++ (cached c <$> texts))%list by (by rewrite <- app_assoc).
    rewrite IH by (rewrite length_app; simpl; lia). by rewrite <- app_assoc.
  - destruct computed as [|v computed]; csimpl.
    + by rewrite served_nil.
    + unfold place at 2. csimpl. rewrite place_shift.
      rewrite insert_app_r_alt by lia.
      replace (first - length pre)%nat with 0%nat by lia. csimpl.
      replace (pre ++ Some v :: (cached c <$> texts))%list
        with ((pre ++ [Some v]) ++ (cached c <$> texts))%list by (by rewrite <- app_assoc).
      rewrite IH by (rewrite length_app; simpl; lia). by rewrite <- app_assoc.
Qed.

Lemma served_length c texts computed : length (served c texts computed) = length texts.
Proof.
  revert computed. induction texts as [|text texts IH]; intros computed; simpl; [done|].
  destruct (cached c text); simpl; by rewrite IH.
Qed.

(** Each text finds its vector in its own place: the cached one, or the
    computed one whose rank is the number of uncached texts before it. *)
Lemma served_lookup c texts computed i text :
  texts !! i = Some text →
  served c texts computed !! i =
  Some match cached c text with
       | Some v => Some v
       | None => computed !! length (uncached c (take i texts))
       end.
Proof.
  revert computed i. induction texts as [|t texts IH]; intros computed i; [done|].
  destruct i as [|i]; simpl.
  - intros [= ->]. destruct (cached c text); [done|]. by destruct computed.
  - intros Hi. unfold uncached in *. simpl.
    destruct (cached c t); simpl.
    + by apply IH.
    + rewrite (IH _ _ Hi). by destruct computed.
Qed.

Lemma served_complete c texts computed :
  (length (uncached c texts) ≤ length computed)%nat →
  Forall is_Some (served c texts computed).
Proof.
  unfold uncached. revert computed.
  induction texts as [|text texts IH]; intros computed; simpl; [constructor|].
  destruct (cached c text) as [v|]; simpl; intros Hlen.
  - constructor; [by eexists|by apply IH].
  - destruct computed as [|w computed]; simpl in *; [lia|].
    constructor; [by eexists|]. apply IH. lia.
Qed.

Lemma uncached_nil c texts :
  (∀ text, text ∈ texts → is_Some (cached c text)) → uncached c texts = [].
Proof.
  unfold uncached. induction texts as [|text texts IH]; intros Hall; simpl; [done|].
  destruct (Hall text) as [v ->]; [left|]. apply IH. intros t Ht. apply Hall. by right.
Qed.

(** What [getEmbeddings] has done when it reaches its [await]. *)
Lemma getEmbeddings_begin_eq texts m :
  ∃ e cache,
    neededTexts e = uncached (vectorCache m) texts ∧
    neededIndices e = holes (vectorCache m) 0 texts ∧
    results e = cached (vectorCache m) <$> texts ∧
    getEmbeddings_begin texts m =
    (match uncached (vectorCache m) texts with
     | [] => Done (cached (vectorCache m) <$> texts)
     | _ => SendToWorker (uncached (vectorCache m) texts) e
     end, with_cache m cache).
Proof.
  unfold getEmbeddings_begin, forEach.
  match goal with |- context [forEach_at lookupText 0 texts (?start, ?c)] =>
    destruct (lookup_loop c texts 0 start c [] []) as (Hi & Ht & Hr & _);
      [done|done|simpl; by rewrite app_nil_r|];
    destruct (forEach_at lookupText 0 texts (start, c)) as [e cache] end.
  simpl in Hi, Ht, Hr. rewrite app_nil_r in Hr.
  exists e, cache. rewrite Ht, Hr. split_and!; [done|done|done|].
  by destruct (uncached (vectorCache m) texts).
Qed.

(** C10. [getEmbeddings] asks the cache about every text before anything
    is sent; the texts the cache holds a vector for are served from it,
    and the others, and only they, go to the worker pool in one request,
    which is not made when there are none. The list returned has one
    place for each text: there stands the cached vector, or the vector
    the pool computed for that text. *)
Theorem getEmbeddings_serves_from_cache
    (sendToWorker : list string → outcome (list vector)) (texts : list string) (m : Manager) :
  let c := vectorCache m in
  let needed := uncached c texts in
  match (getEmbeddings_begin texts m).1 with
  | Done results => needed = [] ∧ results = cached c <$> texts
  | SendToWorker sent _ => needed ≠ [] ∧ sent = needed
  end ∧
  effects (getEmbeddings_begin texts m).2 = effects m ∧
  pendingRequests (getEmbeddings_begin texts m).2 = pendingRequests m ∧
  ((∀ text, text ∈ texts → is_Some (cached c text)) →
   (getEmbeddings_begin texts m).1 = Done (cached c <$> texts) ∧
   (getEmbeddings sendToWorker texts m).1 = Returned (cached c <$> texts)) ∧
  (∀ computed, sendToWorker needed = Returned computed →
     (getEmbeddings sendToWorker texts m).1 = Returned (served c texts computed) ∧
     length (served c texts computed) = length texts ∧
     (∀ i text, texts !! i = Some text →
        served c texts computed !! i =
        Some match cached c text with
             | Some v => Some v
             | None => computed !! length (uncached c (take i texts))
             end) ∧
     (length computed = length needed → Forall is_Some (served c texts computed))).
Proof.
  intros c needed.
  destruct (getEmbeddings_begin_eq texts m) as (e & cache & Ht & Hi & Hr & Hbegin).
  fold c needed in Ht, Hi, Hr, Hbegin.
  split_and!.
  - rewrite Hbegin. simpl. by destruct needed.
  - by rewrite Hbegin.
  - by rewrite Hbegin.
  - intros Hall. apply uncached_nil in Hall. fold needed in Hall.
    unfold getEmbeddings. rewrite Hbegin, Hall. done.
  - intros computed Hreply. split_and!.
    + unfold getEmbeddings. rewrite Hbegin.
      destruct needed as [|text rest] eqn:Hneeded.
      * simpl. by rewrite served_all_cached.
      * rewrite Hreply. unfold getEmbeddings_resume.
        pose proof (store_loop_results e computed 0 (results e)
                      (vectorCache (with_cache m cache))) as Hstore.
        unfold forEach.
        destruct (forEach_at (storeVector e) 0 computed _) as [filled cache'].
        simpl in *. rewrite Hstore, Hi, Hr.
        pose proof (place_served c texts 0 [] computed eq_refl) as Hplaced.
        rewrite !app_nil_l in Hplaced. by rewrite Hplaced.
    + apply served_length.
    + intros i text. apply served_lookup.
    + intros Hlen. apply served_complete. fold needed. lia.
Qed.

Lemma getEmbeddings_serves_from_cache_example :
  (getEmbeddings (λ needed, Returned ((λ _, [0%Q; 1%Q]) <$> needed))
     ["let x = 1"; "fn main"] Scenarios.manager).1
  = Returned [Some [1%Q; 0%Q]; Some [0%Q; 1%Q]].
Proof.
  exact (proj1 (proj2 (proj2 (proj2 (proj2
    (getEmbeddings_serves_from_cache (λ needed, Returned ((λ _, [0%Q; 1%Q]) <$> needed))
       ["let x = 1"; "fn main"] Scenarios.manager))))
    [[0%Q; 1%Q]] eq_refl)).
Defined.
End WorkerManagerFacts.

(** ** The traversal *)
Module NodeFileSystemFacts.
Import JS NodeFileSystem.

(** A directory whose canonical path has been visited yields nothing and
    is not read. *)
Lemma visited_directory_is_skipped fuel w dir root visited realDir :
  realpathSync w dir = Some realDir → realDir ∈ visited →
  getAllFilesRecursive (S fuel) w dir root visited = Some ([], visited).
Proof. intros Hreal Hin. simpl. rewrite Hreal. by rewrite decide_True. Qed.

Lemma forEntries_total w recurse dir root entries (base visited : gset string) :
  (∀ sub seen, base ⊆ seen →
     ∃ files seen', recurse sub seen = Some (files, seen') ∧ seen ⊆ seen') →
  base ⊆ visited →
  ∃ files visited',
    forEntries w recurse dir root entries visited = Some (files, visited') ∧
    visited ⊆ visited'.
Proof.
  intros Hrec. revert visited.
  induction entries as [|entry rest IH]; intros visited Hbase; simpl.
  { by eexists _, _. }
  assert (∀ here : Walk,
            (∃ files seen, here = Some (files, seen) ∧ visited ⊆ seen) →
            ∃ files visited',
              match here with
              | Some (files, visited0) =>
                  match forEntries w recurse dir root rest visited0 with
                  | Some (more, visited1) => Some ((files ++ more)%list, visited1)
                  | None => None
                  end
              | None => None
              end = Some (files, visited') ∧ visited ⊆ visited') as Hyield.
  { intros here (files & seen & -> & Hseen).
    destruct (IH seen) as (more & visited' & -> & Hmore); [set_solver|].
    eexists _, _. split; [done|set_solver]. }
  destruct (isHiddenFile _ root); [by apply IH|].
  destruct (resolveEntry w _ entry) as [resolved|]; [|by apply IH].
  destruct (isDir resolved).
  - destruct (decide (realPath resolved ∈ visited)); [by apply IH|].
    destruct (isGitRepository w _).
    + destruct (getGitFiles w _) as [|file files].
      * apply Hyield. destruct (Hrec (join dir (name entry)) visited Hbase)
          as (fs & seen & -> & Hseen). by eexists _, _.
      * apply (Hyield (Some (file :: files, visited))). by eexists _, _.
    + apply Hyield. destruct (Hrec (join dir (name entry)) visited Hbase)
        as (fs & seen & -> & Hseen). by eexists _, _.
  - destruct (isFile_ resolved); [|by apply IH].
    apply (Hyield (Some ([join dir (name entry)], visited))). by eexists _, _.
Qed.

(** The traversal ends: among finitely many canonical directories, every
    directory that is entered is a new one. *)
Lemma traversal_terminates w (universe : gset string) fuel dir root visited :
  (∀ p real, realpathSync w p = Some real → real ∈ universe) →
  (size (universe ∖ visited) < fuel)%nat →
  ∃ files visited',
    getAllFilesRecursive fuel w dir root visited = Some (files, visited') ∧
    visited ⊆ visited'.
Proof.
  intros Huniverse. revert dir visited.
  induction fuel as [|fuel IH]; intros dir visited Hsize; [lia|]. simpl.
  destruct (realpathSync w dir) as [realDir|] eqn:Hreal; [|by eexists _, _].
  destruct (decide (realDir ∈ visited)) as [|Hnew]; [by eexists _, _|].
  destruct (readdir w dir) as [entries|]; [|eexists _, _; split; [done|set_solver]].
  destruct (forEntries_total w (λ sub seen, getAllFilesRecursive fuel w sub root seen)
              dir root entries ({[realDir]} ∪ visited) ({[realDir]} ∪ visited))
    as (files & visited' & -> & Hsub); [|done|eexists _, _; split; [done|set_solver]].
  intros sub seen Hseen. apply IH.
  assert (universe ∖ seen ⊂ universe ∖ visited) as Hstrict.
  { apply Huniverse in Hreal. split.
    - intros x [Hx Hfresh]%elem_of_difference. apply elem_of_difference.
      split; [done|]. intros Hv. apply Hfresh, Hseen, elem_of_union. by right.
    - intros Hsub. assert (realDir ∈ universe ∖ seen) as [_ Hfresh]%elem_of_difference.
      { apply Hsub, elem_of_difference. by split. }
      apply Hfresh, Hseen, elem_of_union. left. by apply elem_of_singleton. }
  apply subset_size in Hstrict. lia.
Qed.

(** C8 fails on the code for a nested git repository that is reached
    twice: its files are listed through git, its canonical path is not
    recorded among the visited, and the files of the one real directory
    are yielded under both paths. *)
Theorem nested_repository_is_yielded_twice :
  getFiles 3 Scenarios.nested_repository "/r" = Some ["/r/link/x.ts"; "/r/repo/x.ts"] ∧
  realpathSync Scenarios.nested_repository "/r/link" = Some "/r/repo" ∧
  realpathSync Scenarios.nested_repository "/r/repo" = Some "/r/repo" ∧
  realpathSync Scenarios.nested_repository "/r/link/x.ts"
    = realpathSync Scenarios.nested_repository "/r/repo/x.ts".
Proof. split_and!; vm_compute; reflexivity. Qed.

(** Without git in the way the same tree yields that file once, and a
    directory that links to itself is walked once. *)
Lemma plain_tree_is_yielded_once :
  getFiles 3 Scenarios.plain_tree "/r" = Some ["/r/link/x.ts"] ∧
  getFiles 3 Scenarios.circular_tree "/r" = Some ["/r/circular/file.txt"].
Proof. split; vm_compute; reflexivity. Qed.

End NodeFileSystemFacts.

(** ** Facts about strings *)
Module StringFacts.
Import JS.

Lemma string_length_app (s1 s2 : string) :
  String.length (s1 ++ s2) = (String.length s1 + String.length s2)%nat.
Proof. induction s1 as [|c s1 IH]; simpl; [done|]. by rewrite IH. Qed.

Lemma append_assoc (a b c : string) : a ++ b ++ c = (a ++ b) ++ c.
Proof.
  induction a as [|x a IH]; [done|].
  change (String x (a ++ b ++ c) = String x ((a ++ b) ++ c)). by rewrite IH.
Qed.

Lemma prefix_app (a b : string) : String.prefix a (a ++ b) = true.
Proof.
  induction a as [|c a IH]; simpl; [by destruct b|].
  destruct (ascii_dec c c); [done|congruence].
Qed.

Lemma prefix_app_inv (a b c : string) : String.prefix (a ++ b) (a ++ c) = String.prefix b c.
Proof.
  induction a as [|x a IH]; simpl; [done|].
  destruct (ascii_dec x x); [done|congruence].
Qed.

Lemma prefix_app_l (a b k : string) :
  String.prefix (a ++ b) k = true → String.prefix a k = true.
Proof.
  revert k. induction a as [|x a IH]; intros k; [by destruct k|].
  destruct k as [|y k]; simpl; [done|]. destruct (ascii_dec x y); [apply IH|done].
Qed.

Lemma prefix_length (a b : string) :
  String.prefix a b = true → (String.length a ≤ String.length b)%nat.
Proof.
  revert b. induction a as [|x a IH]; intros b; [simpl; lia|].
  destruct b as [|y b]; simpl; [done|]. destruct (ascii_dec x y); [|done].
  intros ?%IH. lia.
Qed.

Lemma substring_all (s : string) : substring 0 (String.length s) s = s.
Proof. induction s as [|c s IH]; simpl; [done|]. by rewrite IH. Qed.

Lemma substring_skip (a b : string) (k : nat) :
  substring (String.length a) k (a ++ b) = substring 0 k b.
Proof. induction a as [|c a IH]; simpl; [done|apply IH]. Qed.

Lemma endsWith_app (a b : string) : endsWith (a ++ b) b = true.
Proof.
  unfold endsWith. rewrite string_length_app.
  replace (String.length a + String.length b - String.length b)%nat
    with (String.length a) by lia.
  rewrite substring_skip, substring_all, String.eqb_refl.
  rewrite andb_true_r. apply Nat.leb_le. lia.
Qed.

Lemma endsWith_empty (s : string) : endsWith s EmptyString = true.
Proof.
  unfold endsWith. simpl. rewrite Nat.sub_0_r.
  assert (∀ t, substring (String.length t) 0 t = EmptyString) as ->; [|done].
  intros t. induction t as [|c t IH]; simpl; [done|apply IH].
Qed.

End StringFacts.

(** ** The results of a search *)
Module SearchResultFacts.
Import JS Searcher JSFacts SearcherFacts.

(** *** The two passes of the fusion *)

Lemma forEach_at_inv {A St : Type} (P : St → Prop) (step : A → nat → St → St) l i s :
  (∀ x i s, x ∈ l → P s → P (step x i s)) → P s → P (forEach_at step i l s).
Proof.
  revert i s. induction l as [|x l IH]; intros i s Hstep Hs; simpl; [done|].
  apply IH.
  - intros y j t Hy. apply Hstep. by right.
  - apply Hstep; [left|done].
Qed.

Lemma accumulate_keys scores k rank k' :
  k' ∈ (accumulate scores k rank).*1 ↔ k' ∈ scores.*1 ∨ k' = k.
Proof.
  unfold accumulate. rewrite set_keys. destruct (Map.has scores k) eqn:Hhas.
  - apply has_keys in Hhas. split; [by left|]. by intros [?| ->].
  - rewrite elem_of_app, list_elem_of_singleton. done.
Qed.

(** A pass scores every key it meets and forgets none. *)
Lemma pass_keys (step : VectorRecord → nat → Fusion → Fusion) :
  (∀ d i f, candidateScores (step d i f) = accumulate (candidateScores f) (key d) i) →
  ∀ l i f k,
    k ∈ (candidateScores (forEach_at step i l f)).*1 ↔
    k ∈ (candidateScores f).*1 ∨ k ∈ key <$> l.
Proof.
  intros Hstep l. induction l as [|d l IH]; intros i f k; csimpl.
  - split; [by left|]. by intros [?|?%elem_of_nil].
  - rewrite IH, Hstep, accumulate_keys, elem_of_cons. tauto.
Qed.

Lemma fusion_keys dense fts k :
  k ∈ (candidateScores (fusion dense fts)).*1 ↔ k ∈ key <$> (dense ++ fts)%list.
Proof.
  unfold fusion, forEach. rewrite (pass_keys fuseFts) by done.
  rewrite (pass_keys fuseVector) by done. csimpl.
  rewrite fmap_app, elem_of_app. split; [|tauto].
  by intros [[?%elem_of_nil|?]|?]; tauto.
Qed.

Lemma has_eq {V W : Type} (m : list (string * V)) (m' : list (string * W)) k :
  m.*1 = m'.*1 → Map.has m k = Map.has m' k.
Proof.
  intros Hkeys. destruct (Map.has m k) eqn:Hm, (Map.has m' k) eqn:Hm'; try done.
  - apply has_keys in Hm. rewrite Hkeys in Hm. apply has_keys in Hm. congruence.
  - apply has_keys in Hm'. rewrite <- Hkeys in Hm'. apply has_keys in Hm'. congruence.
Qed.

(** The two maps hold the same keys, in the same order. *)
Lemma fusion_same_keys dense fts :
  (docMap (fusion dense fts)).*1 = (candidateScores (fusion dense fts)).*1.
Proof.
  unfold fusion, forEach.
  apply (forEach_at_inv (λ f, (docMap f).*1 = (candidateScores f).*1)).
  - intros d i f _ Hf. simpl. unfold accumulate.
    rewrite (set_keys (candidateScores f)), <- (has_eq _ _ _ Hf).
    destruct (Map.has (docMap f) (key d)) eqn:Hhas; [done|].
    by rewrite set_keys, Hhas, Hf.
  - apply (forEach_at_inv (λ f, (docMap f).*1 = (candidateScores f).*1)); [|done].
    intros d i f _ Hf. simpl. unfold accumulate.
    by rewrite !set_keys, (has_eq _ _ _ Hf), Hf.
Qed.

(** A stored document is a row of the dense search, or a row of the
    full-text search whose key the dense search did not give. *)
Lemma fusion_docs dense fts k d :
  Map.get (docMap (fusion dense fts)) k = Some d →
  d ∈ dense ∨ (d ∈ fts ∧ key d ∉ key <$> dense).
Proof.
  revert k d. unfold fusion, forEach.
  set (vector := forEach_at fuseVector 0 dense {| candidateScores := []; docMap := [] |}).
  assert (∀ k d, Map.get (docMap vector) k = Some d → d ∈ dense) as Hvector.
  { subst vector.
    apply (forEach_at_inv (λ f, ∀ k d, Map.get (docMap f) k = Some d → d ∈ dense)); [|done].
    intros r i f Hr Hf k d. simpl. rewrite get_set.
    destruct (String.eqb k (key r)); [by intros [= <-]|apply Hf]. }
  assert (∀ k, k ∈ key <$> dense → Map.has (docMap vector) k = true) as Hhas.
  { intros k Hk. apply has_keys.
    pose proof (fusion_same_keys dense []) as Hsame. unfold fusion, forEach in Hsame.
    simpl in Hsame. fold vector in Hsame. rewrite Hsame. subst vector.
    apply (pass_keys fuseVector); [done|]. by right. }
  apply (forEach_at_inv (λ f,
    (∀ k, k ∈ key <$> dense → Map.has (docMap f) k = true) ∧
    (∀ k d, Map.get (docMap f) k = Some d → d ∈ dense ∨ (d ∈ fts ∧ key d ∉ key <$> dense)))).
  - intros r i f Hr [Hkeys Hdocs]. simpl.
    destruct (Map.has (docMap f) (key r)) eqn:Hseen; [done|]. split.
    + intros k Hk. unfold Map.has. rewrite get_set.
      destruct (String.eqb k (key r)); [done|]. by apply Hkeys.
    + intros k d. rewrite get_set. destruct (String.eqb k (key r)); [|apply Hdocs].
      intros [= <-]. right. split; [done|]. intros Hk. apply Hkeys in Hk. congruence.
  - split; [done|]. intros k d Hd. left. by eapply Hvector.
Qed.

(** *** The fused list *)

Lemma fused_keys_sublist (dm : list (string * VectorRecord)) (l : list (string * Q)) :
  (∀ k d, Map.get dm k = Some d → key d = k) →
  key <$> omap (λ e, Map.get dm e.1) l `sublist_of` l.*1.
Proof.
  intros Hkey. induction l as [|e l IH]; csimpl; [done|].
  destruct (Map.get dm e.1) as [d|] eqn:Hd; csimpl.
  - rewrite (Hkey _ _ Hd). by apply sublist_skip.
  - by apply sublist_cons.
Qed.

Lemma fused_NoDup dense fts : NoDup (key <$> fused (fusion dense fts)).
Proof.
  destruct (fusion_is_ok dense fts) as (Hnd & _ & Hkey).
  eapply sublist_NoDup; [|by apply fused_keys_sublist].
  unfold Map.entries. by rewrite sort_perm.
Qed.

Lemma fused_complete dense fts k :
  k ∈ key <$> fused (fusion dense fts) ↔ k ∈ key <$> (dense ++ fts)%list.
Proof.
  destruct (fusion_is_ok dense fts) as (Hnd & _ & Hkey).
  rewrite <- fusion_keys. split.
  - intros Hk. eapply elem_of_sublist in Hk; [|by apply fused_keys_sublist].
    unfold Map.entries in Hk. by rewrite sort_perm in Hk.
  - intros Hk. pose proof Hk as Hdoc.
    rewrite <- fusion_same_keys in Hdoc. apply has_keys in Hdoc. unfold Map.has in Hdoc.
    destruct (Map.get (docMap (fusion dense fts)) k) as [d|] eqn:Hd; [|done].
    apply list_elem_of_fmap in Hk as ([k' v] & -> & He). simpl in Hd.
    apply list_elem_of_fmap. exists d. split; [symmetry; by eapply Hkey|].
    apply list_elem_of_omap. exists (k', v). split; [|done].
    unfold Map.entries. by rewrite sort_perm.
Qed.

(** X1. The fused list holds every key of the dense and the full-text
    rows, each key once, whatever the two lists share; a key held by
    both lists stands for the row of the dense search. *)
Theorem fusion_lists_every_key_once (vectorResults ftsResults : list VectorRecord) :
  let f := fusion vectorResults ftsResults in
  NoDup (key <$> fused f) ∧
  (∀ k, k ∈ key <$> fused f ↔ k ∈ key <$> (vectorResults ++ ftsResults)%list) ∧
  (∀ doc, doc ∈ fused f →
     doc ∈ vectorResults ∨ (doc ∈ ftsResults ∧ key doc ∉ key <$> vectorResults)).
Proof.
  intros f. split_and!.
  - apply fused_NoDup.
  - apply fused_complete.
  - intros doc [e [_ Hget]]%list_elem_of_omap. by eapply fusion_docs.
Qed.

(** *** What a search returns *)

(** A response comes from the ranking of the rows of the two
    retrievals, unless it is the empty response of a missing table. *)
Lemma search_returned h s query top_k rerankOption pathPrefix response :
  (search h s query top_k rerankOption pathPrefix).1 = Returned response →
  data response = [] ∨
  ∃ enc table vectorResults,
    encodeQuery h query = Returned enc ∧
    ensureTable h = Returned table ∧
    vectorSearch table (dense enc) (PRE_RERANK_K (process_env h) (default 10 top_k))
      (whereClause h pathPrefix) = Returned vectorResults ∧
    rank h enc (default 10 top_k) (default true rerankOption) vectorResults
      match ftsSearch table query (PRE_RERANK_K (process_env h) (default 10 top_k))
              (whereClause h pathPrefix) with
      | Returned rows => rows
      | Thrown _ => []
      end = Returned response.
Proof.
  intros Hsearch.
  destruct (encodeQuery h query) as [enc|e] eqn:Henc;
    [|unfold search in Hsearch; by rewrite Henc in Hsearch].
  destruct (ensureTable h) as [table|e] eqn:Htable;
    [|unfold search in Hsearch; rewrite Henc, Htable in Hsearch;
      left; by injection Hsearch as <-].
  destruct (vectorSearch table (dense enc) (PRE_RERANK_K (process_env h) (default 10 top_k))
              (whereClause h pathPrefix)) as [vectorResults|e] eqn:Hdense;
    [|unfold search in Hsearch; by rewrite Henc, Htable, Hdense in Hsearch].
  right. exists enc, table, vectorResults. split_and!; [done..|].
  by rewrite <- (search_ranks h s query top_k rerankOption pathPrefix enc table vectorResults).
Qed.

Lemma scored_records env f scores candidates :
  record <$> scored env f scores candidates ≡ₚ candidates.
Proof.
  unfold scored. rewrite sort_perm, fmap_imap.
  assert (∀ (g : nat → VectorRecord → VectorRecord) l, (∀ i x, g i x = x) → imap g l = l)
    as Hid.
  { intros g l. revert g. induction l as [|x l IH]; intros g Hg; simpl; [done|].
    rewrite Hg. f_equal. apply IH. intros i y. apply Hg. }
  by rewrite Hid.
Qed.

Lemma stage2_NoDup env qp top : NoDup (key <$> top) → NoDup (key <$> stage2Candidates env qp top).
Proof.
  intros Hnd. unfold stage2Candidates. destruct qp as [qp|]; [|done].
  destruct (STAGE2_K env <? Z.of_nat (length top)) eqn:Hlt; [|done].
  apply Z.ltb_lt in Hlt.
  destruct (stage1_keeps_best env qp top Hlt) as (_ & _ & dropped & Hperm & _).
  rewrite Hperm, fmap_app in Hnd. by apply NoDup_app in Hnd as [? _].
Qed.

(** What the ranking keeps: records of the fused list, no key twice, no
    more than [RERANK_TOP] of them, no more than [MAX_PER_FILE] of one
    file and, for a positive limit, no more than the limit. *)
Lemma rank_kept h enc finalLimit doRerank vectorResults ftsResults response :
  rank h enc finalLimit doRerank vectorResults ftsResults = Returned response →
  let env := process_env h in
  let f := fusion vectorResults ftsResults in
  ∃ kept,
    data response = finalResults kept ∧
    NoDup (key <$> (record <$> kept)) ∧
    (∀ item, item ∈ kept → record item ∈ fused f) ∧
    Z.of_nat (length kept) ≤ RERANK_TOP env ∧
    (∀ p, Z.of_nat (length (fromFile p kept)) ≤ MAX_PER_FILE env) ∧
    (0 < finalLimit → Z.of_nat (length kept) ≤ finalLimit).
Proof.
  intros Hrank env f.
  set (candidates :=
         rerankCandidates env (stage2Candidates env (query_pooled enc) (topCandidates env f))).
  assert (∃ scores,
    data response = finalResults (diversify env finalLimit (scored env f scores candidates)))
    as [scores Hdata].
  { unfold rank in Hrank. fold env f in Hrank. subst candidates.
    destruct (stage2Candidates env (query_pooled enc) (topCandidates env f)) as [|d stage2];
      [exists []; injection Hrank as <-; unfold rerankCandidates, slice0;
       by rewrite take_nil|].
    destruct doRerank.
    - destruct (rerank h _) as [scores|e]; [|done]. exists scores. by injection Hrank as <-.
    - eexists. by injection Hrank as <-. }
  exists (diversify env finalLimit (scored env f scores candidates)).
  pose proof (diversify_sublist env finalLimit (scored env f scores candidates)) as Hsub.
  destruct (diversify_bounds env finalLimit (scored env f scores candidates)) as [Hfile Hlimit].
  split_and!; [done| | | |done|done].
  - eapply sublist_NoDup; [|by do 2 apply fmap_sublist].
    rewrite scored_records. subst candidates. unfold rerankCandidates, slice0.
    rewrite fmap_take. eapply sublist_NoDup; [|apply sublist_take].
    apply stage2_NoDup. unfold topCandidates, slice0.
    rewrite fmap_take. eapply sublist_NoDup; [|apply sublist_take]. apply fused_NoDup.
  - intros item Hitem. eapply elem_of_sublist in Hitem; [|done].
    apply (candidates_fused env (query_pooled enc)). fold candidates.
    rewrite <- (scored_records env f scores candidates).
    apply list_elem_of_fmap. by exists item.
  - apply sublist_length in Hsub.
    assert (length (scored env f scores candidates) ≤ Z.to_nat (RERANK_TOP env))%nat as Hlen.
    { unfold scored. rewrite sort_length, length_imap.
      subst candidates. unfold rerankCandidates, slice0. rewrite length_take. lia. }
    pose proof (env_count_pos env "OSGREP_RERANK_TOP" 20 eq_refl) as Hpos.
    fold (RERANK_TOP env) in Hpos. lia.
Qed.

Lemma filter_finalResults p kept :
  List.filter (λ chunk, String.eqb (metadata_path chunk) p) (finalResults kept) =
  finalResults (fromFile p kept).
Proof.
  unfold finalResults, fromFile. induction kept as [|item kept IH]; simpl; [done|].
  destruct (String.eqb (path (record item)) p); simpl; by rewrite IH.
Qed.

(** X2. A search never returns more than [RERANK_TOP] chunks (20 unless
    the environment says otherwise), whatever [top_k] asks for. *)
Theorem search_returns_at_most_rerank_top
    (h : Host) (s : State) (query : string) (top_k : option Z) (rerankOption : option bool)
    (pathPrefix : option string) (response : SearchResponse) :
  (search h s query top_k rerankOption pathPrefix).1 = Returned response →
  Z.of_nat (length (data response)) ≤ RERANK_TOP (process_env h).
Proof.
  intros [Hnil|(enc & table & rows & _ & _ & _ & Hrank)]%search_returned.
  - rewrite Hnil. pose proof (env_count_pos (process_env h) "OSGREP_RERANK_TOP" 20 eq_refl).
    unfold RERANK_TOP. simpl. lia.
  - apply rank_kept in Hrank as (kept & -> & _ & _ & Htop & _).
    unfold finalResults. by rewrite length_map.
Qed.

(** X3. Of the chunks a search returns no more than [MAX_PER_FILE] have
    the same path, and when the limit ([top_k], 10 by default) is
    positive there are no more chunks than the limit. *)
Theorem search_respects_limits
    (h : Host) (s : State) (query : string) (top_k : option Z) (rerankOption : option bool)
    (pathPrefix : option string) (response : SearchResponse) :
  (search h s query top_k rerankOption pathPrefix).1 = Returned response →
  (∀ p, Z.of_nat (length (List.filter (λ chunk, String.eqb (metadata_path chunk) p)
                            (data response))) ≤ MAX_PER_FILE (process_env h)) ∧
  (0 < default 10 top_k → Z.of_nat (length (data response)) ≤ default 10 top_k).
Proof.
  intros [Hnil|(enc & table & rows & _ & _ & _ & Hrank)]%search_returned.
  - rewrite Hnil.
    pose proof (env_count_pos (process_env h) "OSGREP_MAX_PER_FILE" 3 eq_refl).
    unfold MAX_PER_FILE. simpl. split; [intros _|]; lia.
  - apply rank_kept in Hrank as (kept & -> & _ & _ & _ & Hfile & Hlimit).
    split.
    + intros p. rewrite filter_finalResults. unfold finalResults. rewrite length_map.
      apply Hfile.
    + unfold finalResults. by rewrite length_map.
Qed.

(** X4. Every chunk a search returns is the shape of a row of the dense
    search, or of a row of the full-text search whose key the dense
    search did not give, and no two of the chunks come from rows with
    the same key. *)
Theorem search_returns_distinct_rows
    (h : Host) (s : State) (query : string) (top_k : option Z) (rerankOption : option bool)
    (pathPrefix : option string) (enc : QueryEncoding) (table : Table)
    (vectorResults : list VectorRecord) (response : SearchResponse) :
  encodeQuery h query = Returned enc →
  ensureTable h = Returned table →
  vectorSearch table (dense enc) (PRE_RERANK_K (process_env h) (default 10 top_k))
    (whereClause h pathPrefix) = Returned vectorResults →
  (search h s query top_k rerankOption pathPrefix).1 = Returned response →
  let ftsResults :=
    match ftsSearch table query (PRE_RERANK_K (process_env h) (default 10 top_k))
            (whereClause h pathPrefix) with
    | Returned rows => rows
    | Thrown _ => []
    end in
  ∃ kept,
    data response = finalResults kept ∧
    NoDup (key <$> (record <$> kept)) ∧
    ∀ item, item ∈ kept →
      record item ∈ vectorResults ∨
      (record item ∈ ftsResults ∧ key (record item) ∉ key <$> vectorResults).
Proof.
  intros Henc Htable Hdense Hsearch ftsResults.
  rewrite (search_ranks h s query top_k rerankOption pathPrefix enc table vectorResults
             Henc Htable Hdense) in Hsearch.
  apply rank_kept in Hsearch as (kept & Hdata & Hnd & Hfused & _).
  exists kept. split_and!; [done|done|].
  intros item [e [_ Hget]]%Hfused%list_elem_of_omap. by eapply fusion_docs.
Qed.

Lemma search_returns_at_most_rerank_top_example :
  ∃ response,
    (search (Scenarios.host {["OSGREP_RERANK_TOP" := "1"]} [Scenarios.readme; Scenarios.source])
       Scenarios.idle "q" (Some 50) (Some false) None).1 = Returned response ∧
    Z.of_nat (length (data response)) ≤ 1.
Proof.
  eexists. split; [vm_compute; reflexivity|].
  refine (search_returns_at_most_rerank_top
            (Scenarios.host {["OSGREP_RERANK_TOP" := "1"]} [Scenarios.readme; Scenarios.source])
            Scenarios.idle "q" (Some 50) (Some false) None _ _).
  vm_compute. reflexivity.
Defined.

Lemma search_respects_limits_example :
  ∃ response,
    (search (Scenarios.host {["OSGREP_MAX_PER_FILE" := "1"]}
               [Scenarios.block; Scenarios.source; Scenarios.helper])
       Scenarios.idle "q" (Some 2) (Some false) None).1 = Returned response ∧
    (∀ p, Z.of_nat (length (List.filter (λ chunk, String.eqb (metadata_path chunk) p)
                              (data response))) ≤ 1) ∧
    (0 < 2 → Z.of_nat (length (data response)) ≤ 2).
Proof.
  eexists. split; [vm_compute; reflexivity|].
  refine (search_respects_limits
            (Scenarios.host {["OSGREP_MAX_PER_FILE" := "1"]}
               [Scenarios.block; Scenarios.source; Scenarios.helper])
            Scenarios.idle "q" (Some 2) (Some false) None _ _).
  vm_compute. reflexivity.
Defined.

Lemma search_returns_distinct_rows_example :
  ∃ response,
    (search (Scenarios.host ∅ [Scenarios.readme; Scenarios.source; Scenarios.readme])
       Scenarios.idle "q" None (Some false) None).1 = Returned response ∧
    ∃ kept,
      data response = finalResults kept ∧
      NoDup (key <$> (record <$> kept)) ∧
      ∀ item, item ∈ kept →
        record item ∈ [Scenarios.readme; Scenarios.source; Scenarios.readme] ∨
        (record item ∈ [] ∧
         key (record item) ∉ key <$> [Scenarios.readme; Scenarios.source; Scenarios.readme]).
Proof.
  eexists. split; [vm_compute; reflexivity|].
  refine (search_returns_distinct_rows
            (Scenarios.host ∅ [Scenarios.readme; Scenarios.source; Scenarios.readme])
            Scenarios.idle "q" None (Some false) None Scenarios.encoding
            (Scenarios.table [Scenarios.readme; Scenarios.source; Scenarios.readme])
            [Scenarios.readme; Scenarios.source; Scenarios.readme] _
            eq_refl eq_refl eq_refl _).
  vm_compute. reflexivity.
Defined.

(** *** The full-text index *)

Lemma ensureFts_checked h s : ftsIndexChecked s = true → ensureFts h s = s.
Proof. intros Hs. unfold ensureFts. by rewrite Hs. Qed.

Lemma ensureFts_sets h s : ftsIndexChecked (ensureFts h s) = true.
Proof.
  unfold ensureFts. destruct (ftsIndexChecked s) eqn:Hs; [done|].
  by destruct (createFTSIndex h).
Qed.

(** X5. The full-text index is asked for once: a search that reaches the
    table leaves the flag set, whether or not the creation succeeded,
    and from then on no search calls [createFTSIndex], so that a
    creation that failed is never tried again. *)
Theorem fts_index_is_tried_once
    (h : Host) (s : State) (query : string) (top_k : option Z) (rerankOption : option bool)
    (pathPrefix : option string) (enc : QueryEncoding) (table : Table) :
  encodeQuery h query = Returned enc →
  ensureTable h = Returned table →
  let s' := (search h s query top_k rerankOption pathPrefix).2 in
  ftsIndexChecked s' = true ∧
  ∀ (creation : outcome unit) (query' : string) (top_k' : option Z)
    (rerankOption' pathPrefix' : option _),
    search {| process_env := process_env h; COLBERT_DIM := COLBERT_DIM h;
              escapeSqlString := escapeSqlString h; normalizePath := normalizePath h;
              encodeQuery := encodeQuery h; ensureTable := ensureTable h;
              createFTSIndex := creation; rerank := rerank h |}
      s' query' top_k' rerankOption' pathPrefix' =
    search h s' query' top_k' rerankOption' pathPrefix'.
Proof.
  intros Henc Htable s'.
  assert (ftsIndexChecked s' = true) as Hchecked.
  { subst s'. unfold search. rewrite Henc, Htable.
    destruct (vectorSearch table _ _ _); [|apply ensureFts_sets].
    destruct (ftsSearch table _ _ _); apply ensureFts_sets. }
  split; [done|].
  intros creation query' top_k' rerankOption' pathPrefix'.
  unfold search. simpl.
  destruct (encodeQuery h query') as [enc'|e]; [|done].
  destruct (ensureTable h) as [table'|e]; [|done].
  rewrite !ensureFts_checked; [done|..];
    by destruct (colbertDim enc' =? COLBERT_DIM h).
Qed.

Lemma fts_index_is_tried_once_example :
  let h := Scenarios.host ∅ [Scenarios.readme] in
  let s' := (search h Scenarios.idle "q" None (Some false) None).2 in
  ftsIndexChecked s' = true ∧
  search {| process_env := process_env h; COLBERT_DIM := COLBERT_DIM h;
            escapeSqlString := escapeSqlString h; normalizePath := normalizePath h;
            encodeQuery := encodeQuery h; ensureTable := ensureTable h;
            createFTSIndex := Thrown "index failed"; rerank := rerank h |}
    s' "again" None None None =
  search h s' "again" None None None.
Proof.
  intros h s'.
  destruct (fts_index_is_tried_once h Scenarios.idle "q" None (Some false) None
              Scenarios.encoding (Scenarios.table [Scenarios.readme]) eq_refl eq_refl)
    as [Hchecked Hsame].
  split; [exact Hchecked|apply Hsame].
Defined.

(** *** The structural boost *)

(** X6. With multipliers as the defaults have them (an anchor penalty
    of at most 1, a code boost of at least 1, positive test and document
    penalties), an anchor never scores above a chunk of the same path
    that is none when both start from the same score that is not
    negative: the comparator of the final sort does not find the
    difference positive. The penalty being a multiplication, it is the
    other way round for a score that is not positive. Every step is a
    product with a positive factor, so the order is kept by the rounded
    products as well. *)
Theorem anchor_never_scores_above
    (env : Env) (anchor other : VectorRecord) (x a b t d : Q) :
  anchorPenalty env = Finite a → (0 < a)%Q → (a <= 1)%Q →
  boostFactor env = Finite b → (1 <= b)%Q →
  testPenalty env = Finite t → (0 < t)%Q →
  docPenalty env = Finite d → (0 < d)%Q →
  path anchor = path other →
  is_anchor anchor = true →
  is_anchor other = false →
  ((0 <= x)%Q →
   positive (sub (applyStructureBoost env anchor (Finite x))
                 (applyStructureBoost env other (Finite x))) = false) ∧
  ((x <= 0)%Q →
   positive (sub (applyStructureBoost env other (Finite x))
                 (applyStructureBoost env anchor (Finite x))) = false).
Proof.
  intros Ha Ha0 Ha1 Hb Hb1 Ht Ht0 Hd Hd0 Hpath Hanchor Hother.
  unfold applyStructureBoost. rewrite Hanchor, Hother, Ha, Hb, Ht, Hd, Hpath.
  assert (0 < t * d)%Q as Htd by nra.
  assert (∀ m, 0 < m → (0 <= x → x * a * m <= x * b * m ∧ x * a * m <= x * m) ∧
                       (x <= 0 → x * b * m <= x * a * m ∧ x * m <= x * a * m))%Q as Hscale.
  { intros m Hm. split; intros Hx.
    - assert (0 <= x * m)%Q by nra. split; nra.
    - assert (x * m <= 0)%Q by nra. split; nra. }
  destruct (Hscale 1%Q ltac:(lra)) as [H1p H1n].
  destruct (Hscale t Ht0) as [Htp Htn].
  destruct (Hscale d Hd0) as [Hdp Hdn].
  destruct (Hscale (t * d)%Q Htd) as [Htdp Htdn].
  destruct (existsb (String.eqb (chunk_type other)) boosted),
    (isTestPath (toLowerCase (path other))), (isDocPath (toLowerCase (path other)));
    simpl; split; intros Hx; apply Qltb_ge;
    first [destruct (H1p Hx)|destruct (H1n Hx)];
    first [destruct (Htp Hx)|destruct (Htn Hx)];
    first [destruct (Hdp Hx)|destruct (Hdn Hx)];
    first [destruct (Htdp Hx)|destruct (Htdn Hx)]; lra.
Qed.

Lemma anchor_never_scores_above_example :
  positive (sub (applyStructureBoost ∅ Scenarios.anchor (Finite 1))
                (applyStructureBoost ∅ Scenarios.block (Finite 1))) = false.
Proof.
  refine (proj1 (anchor_never_scores_above ∅ Scenarios.anchor Scenarios.block 1
            (4458563631096791 # 4503599627370496) (4728779608739021 # 4503599627370496)
            (8106479329266893 # 9007199254740992) (7656119366529843 # 9007199254740992)
            _ _ _ _ _ _ _ _ _ eq_refl eq_refl eq_refl) _);
    try (vm_compute; reflexivity); vm_compute; discriminate.
Defined.
End SearchResultFacts.

(** ** The meta store: entries, round trips and failures *)
Module MetaStoreEntryFacts.
Import JS MetaStore MetaStoreEntries MetaStoreFacts StringFacts.

(** *** Removing entries *)

Lemma delete_loop_lookup (np : string) (keys : list string) (m : gmap string MetaEntry) k :
  foldl (λ data key, if startsWith key np then base.delete key data else data) m keys !! k =
  if bool_decide (k ∈ keys) && startsWith k np then None else m !! k.
Proof.
  revert m. induction keys as [|key keys IH]; intros m; simpl; [done|].
  rewrite IH. destruct (decide (k = key)) as [->|Hne].
  - rewrite (bool_decide_eq_true_2 (key ∈ key :: keys)) by left.
    destruct (startsWith key np) eqn:Hsw; simpl.
    + rewrite andb_true_r. rewrite lookup_delete_eq. by destruct (bool_decide _).
    + by rewrite andb_false_r.
  - assert (bool_decide (k ∈ key :: keys) = bool_decide (k ∈ keys)) as ->.
    { apply bool_decide_ext. rewrite elem_of_cons. split; [by intros [?|?]|by right]. }
    destruct (bool_decide (k ∈ keys) && startsWith k np); [done|].
    destruct (startsWith key np); [by rewrite lookup_delete_ne|done].
Qed.

Lemma deleteByPrefix_get sep st prefix k :
  get (deleteByPrefix sep st prefix) k =
  if startsWith k (if endsWith prefix sep then prefix else prefix ++ sep) then None
  else get st k.
Proof.
  unfold get, deleteByPrefix. simpl. rewrite delete_loop_lookup.
  destruct (startsWith k _); [|by rewrite andb_false_r].
  rewrite andb_true_r. destruct (bool_decide _) eqn:Hk; [done|].
  apply bool_decide_eq_false in Hk.
  destruct (data st !! k) as [v|] eqn:Hv; [|done]. exfalso.
  apply Hk, list_elem_of_fmap. exists (k, v). split; [done|]. by apply elem_of_map_to_list.
Qed.

(** X7. [deleteByPrefix] removes what lies under the directory and
    nothing else: every key that continues the directory by the
    separator is gone; a key that does not start with the directory and
    the separator keeps its entry, so the entry of the directory itself
    and those of siblings whose name begins with the directory's name
    stay; and a separator at the end of the argument changes nothing. *)
Theorem deleteByPrefix_removes_the_directory (sep : string) (st : Store) (dir : string) :
  endsWith dir sep = false →
  (∀ rest, get (deleteByPrefix sep st dir) (dir ++ sep ++ rest) = None) ∧
  (∀ k, startsWith k (dir ++ sep) = false → get (deleteByPrefix sep st dir) k = get st k) ∧
  get (deleteByPrefix sep st dir) dir = get st dir ∧
  (∀ other, startsWith other sep = false →
     get (deleteByPrefix sep st dir) (dir ++ other) = get st (dir ++ other)) ∧
  deleteByPrefix sep st (dir ++ sep) = deleteByPrefix sep st dir.
Proof.
  intros Hdir.
  assert (∀ k, startsWith k (dir ++ sep) = false → get (deleteByPrefix sep st dir) k = get st k)
    as Hkeep.
  { intros k Hk. by rewrite deleteByPrefix_get, Hdir, Hk. }
  split_and!; [|done| | |].
  - intros rest. rewrite deleteByPrefix_get, Hdir. unfold startsWith.
    by rewrite append_assoc, prefix_app.
  - apply Hkeep. unfold startsWith.
    destruct (String.prefix (dir ++ sep) dir) eqn:Hp; [|done].
    apply prefix_length in Hp. rewrite length_append in Hp.
    destruct sep as [|c sep]; [by rewrite endsWith_empty in Hdir|]. simpl in Hp. lia.
  - intros other Hother. apply Hkeep. unfold startsWith in *. by rewrite prefix_app_inv.
  - unfold deleteByPrefix. by rewrite endsWith_app, Hdir.
Qed.

Lemma deleteByPrefix_removes_the_directory_example :
  let entry := {| hash := "h"; mtimeMs := 1; size := 2 |} in
  let st := set (set fresh "/r/a/x.ts" entry) "/r/ab/y.ts" entry in
  get (deleteByPrefix "/" st "/r/a") "/r/a/x.ts" = None ∧
  get (deleteByPrefix "/" st "/r/a") "/r/ab/y.ts" = Some entry.
Proof.
  intros entry st.
  destruct (deleteByPrefix_removes_the_directory "/" st "/r/a" eq_refl)
    as (Hgone & _ & _ & Hsibling & _).
  split; [exact (Hgone "x.ts")|].
  etrans; [exact (Hsibling "b/y.ts" eq_refl)|]. vm_compute. reflexivity.
Defined.

(** *** Saving and loading again *)

Section store_entry_facts.
Context (META_FILE : string).
Context (JSON_parse : string → outcome json).
Context (JSON_stringify : gmap string MetaEntry → string).

#[local] Abbreviation tmp := (tmpFile META_FILE).
#[local] Abbreviation readData := (readData JSON_parse).
#[local] Abbreviation load := (load META_FILE JSON_parse).
#[local] Abbreviation save := (save META_FILE JSON_stringify).
#[local] Abbreviation writeSnapshot := (writeSnapshot META_FILE JSON_stringify).

Lemma readData_entries p d content m :
  files d !! p = Some content →
  JSON_parse content = Returned (data_json m) →
  readData p d = (Returned m, d).
Proof.
  intros Hfile Hparse.
  unfold MetaStore.readData, loadFile, readFile, lift, mbind, io_mbind, io_bind, mret,
    io_mret, io_ret.
  rewrite Hfile, Hparse. simpl.
  by rewrite normalizeEntries_entry_json, fromEntries_to_list.
Qed.

(** X8. What is saved is what a new store loads: when both files can be
    written and the JSON text of the entries parses back to them, a
    [save] succeeds and a [load] on a new store over the disk it left
    gives the same entries, logs nothing and leaves the disk as it is. *)
Theorem save_then_load_round_trip (st : Store) (d : Disk) :
  META_FILE ∉ denied d →
  tmp ∉ denied d →
  JSON_parse (JSON_stringify (data st)) = Returned (data_json (data st)) →
  saveQueue (save st d).1 = Returned () ∧
  ∃ st',
    load fresh (save st d).2 = (Returned st', (save st d).2) ∧
    data st' = data st ∧ loaded st' = true ∧ console st' = [].
Proof.
  intros Hmain Htmp Hjson.
  destruct (save_runs_snapshot META_FILE JSON_stringify st d) as [-> ->].
  rewrite (writeSnapshot_written META_FILE JSON_stringify st d Hmain Htmp). simpl.
  split; [done|].
  unfold MetaStore.load. simpl.
  unfold mbind, io_mbind, io_bind, io_try, mret, io_mret, io_ret.
  erewrite readData_entries; [|apply lookup_insert_eq|exact Hjson].
  by eexists.
Qed.

(** X9. A save that fails leaves every file but the [.tmp] sibling as it
    was, the main file included; the promise it returns is rejected, and
    the next [save] logs that failure and runs all the same. *)
Theorem failed_save_keeps_the_main_file (st : Store) (d d' : Disk) (e : string) :
  saveQueue (save st d).1 = Thrown e →
  (∀ p, p ≠ tmp → files (save st d).2 !! p = files d !! p) ∧
  files (save st d).2 !! META_FILE = files d !! META_FILE ∧
  data (save st d).1 = data st ∧
  console (save (save st d).1 d').1 =
    (console (save st d).1 ++ [("MetaStore save failed (previous): " ++ e)%string])%list ∧
  (save (save st d).1 d').2 = (writeSnapshot st d').2.
Proof.
  intros Hfailed.
  assert (∀ p, p ≠ tmp → files (save st d).2 !! p = files d !! p) as Hfiles.
  { destruct (save_runs_snapshot META_FILE JSON_stringify st d) as [Hd Hq].
    rewrite Hq in Hfailed. rewrite Hd. clear Hd Hq. revert Hfailed.
    unfold MetaStore.writeSnapshot, mkdir, writeFile, rename, mbind, io_mbind, io_bind,
      mret, io_mret, io_ret.
    destruct (decide (tmp ∈ denied d)); [done|]. simpl. rewrite lookup_insert_eq.
    destruct (decide (META_FILE ∈ denied d)); [|done]. simpl.
    intros _ p Hp. by rewrite lookup_insert_ne. }
  split_and!; [done|apply Hfiles; by apply not_eq_sym, tmp_is_sibling| | |].
  - unfold MetaStore.save. destruct (saveQueue st); by destruct (writeSnapshot _ d).
  - unfold MetaStore.save at 1. rewrite Hfailed.
    by destruct (writeSnapshot _ d').
  - destruct (save_runs_snapshot META_FILE JSON_stringify (save st d).1 d') as [-> _].
    unfold MetaStore.save. destruct (saveQueue st); by destruct (writeSnapshot _ d).
Qed.

(** X10. [load] on a store that has not loaded replaces its entries by
    those of the disk, so that an entry set before the first [load] is
    lost; on the disk it changes nothing but the main file, which it
    only ever restores from the [.tmp] sibling. *)
Theorem load_replaces_the_entries (st : Store) (d : Disk) :
  loaded st = false →
  ∃ st' st0 d',
    load st d = (Returned st', d') ∧
    load fresh d = (Returned st0, d') ∧
    data st' = data st0 ∧
    denied d' = denied d ∧
    (∀ p, p ≠ META_FILE → files d' !! p = files d !! p) ∧
    (files d' !! META_FILE = files d !! META_FILE ∨
     files d' !! META_FILE = files d !! tmp).
Proof.
  intros Hloaded. unfold MetaStore.load. rewrite Hloaded. simpl.
  unfold mbind, io_mbind, io_bind, io_try, mret, io_mret, io_ret.
  pose proof (readData_disk JSON_parse META_FILE d) as Hmain.
  destruct (readData META_FILE d) as [[m|err] d1]; simpl in Hmain; subst d1.
  { eexists _, _, _. split_and!; [done..|by left]. }
  unfold existsSync. destruct (bool_decide (is_Some (files d !! tmp))).
  2:{ eexists _, _, _. split_and!; [done..|by left]. }
  pose proof (readData_disk JSON_parse tmp d) as Htmp.
  destruct (readData tmp d) as [[m|err'] d1]; simpl in Htmp; subst d1.
  2:{ eexists _, _, _. split_and!; [done..|by left]. }
  unfold copyFile, readFile, writeFile, mbind, io_mbind, io_bind.
  destruct (files d !! tmp) as [content|] eqn:Hcontent.
  2:{ eexists _, _, _. split_and!; [done..|by left]. }
  destruct (decide (META_FILE ∈ denied d)).
  { eexists _, _, _. split_and!; [done..|by left]. }
  eexists _, _, _. split_and!; [done..| |].
  - intros p Hp. simpl. by rewrite lookup_insert_ne.
  - right. simpl. by rewrite lookup_insert_eq.
Qed.

(** X11. One [null] among the entries of the main file makes [load]
    give up the whole file: without a [.tmp] sibling the store starts
    empty, the valid entries of the file included. *)
Theorem null_entry_discards_the_file
    (d : Disk) (content : string) (props : list (string * json)) (filePath : string) :
  files d !! META_FILE = Some content →
  JSON_parse content = Returned (JObject props) →
  (filePath, JNull) ∈ props →
  files d !! tmp = None →
  ∃ st', load fresh d = (Returned st', d) ∧ data st' = ∅ ∧ loaded st' = true.
Proof.
  intros Hfile Hparse Hnull Htmp.
  assert (∃ err, normalizeEntries props = Thrown err) as [err Herr].
  { clear Hparse. induction props as [|[k v] props IH]; [by apply elem_of_nil in Hnull|].
    apply elem_of_cons in Hnull as [[= <- <-]|Hin]; simpl; [by eexists|].
    destruct (normalizeEntry v); [|by eexists].
    destruct (IH Hin) as [err ->]. by eexists. }
  unfold MetaStore.load. simpl.
  unfold mbind, io_mbind, io_bind, io_try, mret, io_mret, io_ret.
  unfold MetaStore.readData at 1, loadFile, readFile, lift, mbind, io_mbind, io_bind.
  rewrite Hfile, Hparse. simpl. rewrite Herr.
  unfold existsSync. rewrite Htmp.
  rewrite bool_decide_eq_false_2 by (by intros [? [=]]).
  by eexists.
Qed.

End store_entry_facts.

Lemma save_then_load_round_trip_example :
  let main := "/home/u/.osgrep/meta.json" in
  let saved := save main Scenarios.stringify_entries Scenarios.indexed Scenarios.disk in
  saveQueue saved.1 = Returned () ∧
  ∃ st',
    load main Scenarios.parse_entries fresh saved.2 = (Returned st', saved.2) ∧
    data st' = data Scenarios.indexed ∧ loaded st' = true ∧ console st' = [].
Proof.
  intros main saved.
  apply (save_then_load_round_trip main Scenarios.parse_entries Scenarios.stringify_entries
           Scenarios.indexed Scenarios.disk).
  - vm_compute. set_solver.
  - vm_compute. set_solver.
  - vm_compute. reflexivity.
Defined.

Lemma failed_save_keeps_the_main_file_example :
  let main := "/home/u/.osgrep/meta.json" in
  let failed := save main Scenarios.stringify_entries Scenarios.indexed Scenarios.read_only_disk in
  saveQueue failed.1 = Thrown "EACCES: /home/u/.osgrep/meta.json.tmp" ∧
  files failed.2 !! main = Some "{}" ∧
  console (save main Scenarios.stringify_entries failed.1 Scenarios.disk).1 =
    ["MetaStore save failed (previous): EACCES: /home/u/.osgrep/meta.json.tmp"].
Proof.
  intros main failed.
  assert (saveQueue failed.1 = Thrown "EACCES: /home/u/.osgrep/meta.json.tmp") as Hfailed
    by (vm_compute; reflexivity).
  destruct (failed_save_keeps_the_main_file main Scenarios.stringify_entries
              Scenarios.indexed Scenarios.read_only_disk Scenarios.disk _ Hfailed)
    as (_ & Hmain & _ & Hlog & _).
  split_and!; [exact Hfailed|exact Hmain|exact Hlog].
Defined.

Lemma load_replaces_the_entries_example :
  ∃ st' st0 d',
    load "/home/u/.osgrep/meta.json" Scenarios.parse Scenarios.indexed Scenarios.disk
      = (Returned st', d') ∧
    load "/home/u/.osgrep/meta.json" Scenarios.parse fresh Scenarios.disk
      = (Returned st0, d') ∧
    data st' = data st0 ∧
    denied d' = denied Scenarios.disk ∧
    (∀ p, p ≠ "/home/u/.osgrep/meta.json" → files d' !! p = files Scenarios.disk !! p) ∧
    (files d' !! "/home/u/.osgrep/meta.json" =
       files Scenarios.disk !! "/home/u/.osgrep/meta.json" ∨
     files d' !! "/home/u/.osgrep/meta.json" =
       files Scenarios.disk !! tmpFile "/home/u/.osgrep/meta.json").
Proof.
  exact (load_replaces_the_entries "/home/u/.osgrep/meta.json" Scenarios.parse
           Scenarios.indexed Scenarios.disk eq_refl).
Defined.

Lemma null_entry_discards_the_file_example :
  ∃ st',
    load "/home/u/.osgrep/meta.json" Scenarios.parse_null fresh Scenarios.disk
      = (Returned st', Scenarios.disk) ∧
    data st' = ∅ ∧ loaded st' = true.
Proof.
  refine (null_entry_discards_the_file "/home/u/.osgrep/meta.json" Scenarios.parse_null
            Scenarios.disk "{" _ "src/b.ts" _ eq_refl _ _).
  - vm_compute. reflexivity.
  - right. left.
  - vm_compute. reflexivity.
Defined.
End MetaStoreEntryFacts.

(** ** The worker manager: pool size, routing, replies and shutdown *)
Module WorkerEventFacts.
Import JS WorkerManager WorkerEvents JSFacts WorkerManagerFacts.

(** *** The pool at its creation *)

Lemma createWorkers_seq n m :
  workers m = [] → next_handle m = 0%nat →
  let m' := foldl (λ m i, createWorker i m) m (seq 0 n) in
  workers m' = Some <$> seq 0 n ∧ next_handle m' = n ∧
  pendingRequests m' = pendingRequests m ∧ isClosing m' = isClosing m ∧
  nextWorkerIndex m' = nextWorkerIndex m.
Proof.
  intros Hworkers Hnext. induction n as [|n IH]; [done|].
  rewrite seq_S, foldl_app. simpl.
  destruct IH as (Hw & Hn & Hp & Hc & Hi).
  set (m0 := foldl (λ m i, createWorker i m) m (seq 0 n)) in *.
  unfold createWorker, new_handle. simpl. rewrite Hw, Hn, fmap_app.
  split_and!; [|done..].
  unfold array_set. rewrite length_fmap, length_seq, Nat.ltb_irrefl, Nat.sub_diag. done.
Qed.

(** X12. A manager starts with between one and four workers: one less
    than the machine has processors, but not more than four and, also on
    a machine that reports one processor or none, not less than one.
    Every slot holds a worker of its own, no request is pending, no
    restart is in flight and the first request goes to slot 0. *)
Theorem pool_has_one_to_four_workers (cpus : Z) (cacheSize : nat) :
  1 ≤ getWorkerCount cpus ≤ 4 ∧
  getWorkerCount cpus = (if cpus <? 2 then 1 else if 5 <? cpus then 4 else cpus - 1) ∧
  workers (create cpus cacheSize) = Some <$> seq 0 (Z.to_nat (getWorkerCount cpus)) ∧
  pendingRequests (create cpus cacheSize) = [] ∧
  restartInFlight (create cpus cacheSize) = ∅ ∧
  isClosing (create cpus cacheSize) = false ∧
  nextWorkerIndex (create cpus cacheSize) = 0%nat.
Proof.
  destruct (create_fields cpus cacheSize) as (Hflight & _ & _).
  split_and!; [unfold getWorkerCount; lia..| | | |done| |].
  - unfold getWorkerCount. destruct (cpus <? 2) eqn:H2; [lia|].
    destruct (5 <? cpus) eqn:H5; lia.
  - unfold create. by apply createWorkers_seq.
  - unfold create.
    match goal with |- context [foldl _ ?m0 (seq 0 ?n)] =>
      by destruct (createWorkers_seq n m0 eq_refl eq_refl) as (_ & _ & -> & _) end.
  - unfold create.
    match goal with |- context [foldl _ ?m0 (seq 0 ?n)] =>
      by destruct (createWorkers_seq n m0 eq_refl eq_refl) as (_ & _ & _ & -> & _) end.
  - unfold create.
    match goal with |- context [foldl _ ?m0 (seq 0 ?n)] =>
      by destruct (createWorkers_seq n m0 eq_refl eq_refl) as (_ & _ & _ & _ & ->) end.
Qed.

(** *** What a restart rejects *)

Lemma rejectPending_effects index error l m :
  effects (foldl (λ m e,
                    if (workerIndex e.2 =? index)%nat
                    then emit (Rejected e.1 error)
                           (with_pending m
                              (List.filter (λ e', negb (String.eqb e'.1 e.1)) (pendingRequests m)))
                    else m) m l) =
  (effects m ++
   map (λ e, Rejected e.1 error) (List.filter (λ e, (workerIndex e.2 =? index)%nat) l))%list.
Proof.
  revert m. induction l as [|e l IH]; intros m; simpl; [by rewrite app_nil_r|].
  rewrite IH. destruct (workerIndex e.2 =? index)%nat; simpl; [|done].
  by rewrite <- app_assoc.
Qed.

Lemma filter_ext_in {A} (f g : A → bool) (l : list A) :
  (∀ x, x ∈ l → f x = g x) → List.filter f l = List.filter g l.
Proof.
  induction l as [|x l IH]; intros Hfg; simpl; [done|].
  rewrite (Hfg x) by left. rewrite IH; [done|]. intros y Hy. apply Hfg. by right.
Qed.

(** With one entry per id, what is left are the requests of the other
    slots. *)
Lemma rejectPending_others index error m :
  NoDup (pendingRequests m).*1 →
  pendingRequests (rejectPendingForWorker index error m) =
  List.filter (λ e, negb (workerIndex e.2 =? index)%nat) (pendingRequests m).
Proof.
  intros Hnd. unfold rejectPendingForWorker. rewrite rejectPending_pending.
  apply filter_ext_in. intros x Hx. f_equal.
  destruct (workerIndex x.2 =? index)%nat eqn:Hslot.
  - apply List.existsb_exists. exists x. split; [by apply list_elem_of_In|].
    by rewrite Hslot, String.eqb_refl.
  - destruct (existsb _ _) eqn:Hex; [|done].
    apply List.existsb_exists in Hex as (y & Hy%list_elem_of_In & Hyx).
    apply andb_true_iff in Hyx as [Hyslot Hid%String.eqb_eq].
    assert (x = y) as ->; [|congruence].
    destruct x as [kx vx], y as [ky vy]. simpl in Hid. subst ky. f_equal.
    pose proof (get_elem _ _ _ Hnd Hx) as H1. pose proof (get_elem _ _ _ Hnd Hy) as H2.
    congruence.
Qed.

Lemma replaceWorker_effects index reason p m :
  ∃ tail, effects (replaceWorker index reason p m) = (effects m ++ tail)%list ∧
          Forall (λ e, match e with Rejected _ _ => False | _ => True end) tail.
Proof.
  unfold replaceWorker, createWorker, new_handle.
  destruct reason as [r|]; [destruct (nonempty r)|]; simpl.
  - eexists [_; _]. rewrite <- app_assoc. split; [done|]. by repeat constructor.
  - eexists [_]. split; [done|]. by repeat constructor.
  - eexists [_]. split; [done|]. by repeat constructor.
Qed.

(** X13. A restart rejects the pending requests of its slot and no
    others: with the message that names the reason, in the order in
    which they were sent; the requests of the other slots stay pending
    and nothing else is rejected. *)
Theorem restart_rejects_the_requests_of_its_slot
    (index : nat) (reason : option string) (m : Manager) :
  NoDup (pendingRequests m).*1 →
  restartInFlight m !! index = None →
  let m' := (restartWorker index reason m).2 in
  pendingRequests m' =
    List.filter (λ e, negb (workerIndex e.2 =? index)%nat) (pendingRequests m) ∧
  ∃ tail,
    effects m' =
      (effects m ++
       map (λ e, Rejected e.1 ("Worker restarting: " ++ reasonText reason)) (pendingOn index m) ++
       tail)%list ∧
    Forall (λ e, match e with Rejected _ _ => False | _ => True end) tail.
Proof.
  intros Hnd Hfree m'. subst m'. unfold restartWorker. rewrite Hfree.
  set (error := "Worker restarting: " ++ reasonText reason).
  pose proof (rejectPending_others index error m Hnd) as Hpending.
  pose proof (rejectPending_effects index error (pendingRequests m) m) as Heffects.
  fold (rejectPendingForWorker index error m) in Heffects.
  fold (pendingOn index m) in Heffects.
  destruct (rejectPending_fields index error m) as (Hw & _).
  set (m0 := rejectPendingForWorker index error m) in *.
  unfold new_handle. cbn -[replaceWorker rejectPendingForWorker]. rewrite Hw.
  destruct (mjoin (workers m !! index)) as [w|]; cbn -[replaceWorker rejectPendingForWorker].
  - split; [done|]. exists [TerminateCalled w]. rewrite Heffects, <- app_assoc.
    split; [done|]. by repeat constructor.
  - match goal with |- context [replaceWorker index reason ?p ?m1] =>
      destruct (replaceWorker_fields index reason p m1) as (_ & _ & _ & _ & Hpe & _);
      destruct (replaceWorker_effects index reason p m1) as (tail & Htail & Hnone) end.
    cbn -[replaceWorker rejectPendingForWorker] in *.
    split; [by rewrite Hpe|]. exists tail. rewrite Htail, Heffects, <- app_assoc.
    by split.
Qed.

Lemma restart_rejects_the_requests_of_its_slot_example :
  let m := manager Scenarios.pool in
  let m' := (restartWorker 0 (Some "memory limit exceeded") m).2 in
  pendingRequests m' =
    List.filter (λ e, negb (workerIndex e.2 =? 0)%nat) (pendingRequests m) ∧
  ∃ tail,
    effects m' =
      (effects m ++
       map (λ e, Rejected e.1
                   ("Worker restarting: " ++ reasonText (Some "memory limit exceeded")))
         (pendingOn 0 m) ++
       tail)%list ∧
    Forall (λ e, match e with Rejected _ _ => False | _ => True end) tail.
Proof.
  intros m m'.
  apply (restart_rejects_the_requests_of_its_slot 0 (Some "memory limit exceeded") m).
  - apply (bool_decide_unpack _). vm_compute. exact I.
  - vm_compute. reflexivity.
Defined.

(** *** A promise is settled once *)

#[local] Abbreviation waiting id l := (length (List.filter (λ e, String.eqb e.1 id) l)).
#[local] Abbreviation rejections id es :=
  (length (List.filter (λ e, match e with
                             | Rejected i _ => String.eqb i id
                             | _ => false
                             end) es)).
#[local] Abbreviation ids m := ((pendingRequests m).*1).

Lemma waiting_split {V} id (f : string * V → bool) (l : list (string * V)) :
  (waiting id (List.filter f l) + waiting id (List.filter (λ e, negb (f e)) l))%nat
  = waiting id l.
Proof.
  induction l as [|x l IH]; simpl; [done|].
  destruct (f x), (String.eqb x.1 id) eqn:Hx; simpl; rewrite ?Hx; simpl; lia.
Qed.

Lemma waiting_forget {V} id id0 (l : list (string * V)) :
  waiting id (List.filter (λ e, negb (String.eqb e.1 id0)) l) =
  if String.eqb id0 id then 0%nat else waiting id l.
Proof.
  induction l as [|x l IH]; simpl; [by destruct (String.eqb id0 id)|].
  destruct (String.eqb_spec x.1 id0) as [Hx|Hx]; simpl.
  - rewrite IH. destruct (String.eqb_spec id0 id) as [Hid|Hid]; [done|].
    destruct (String.eqb_spec x.1 id); [congruence|done].
  - destruct (String.eqb_spec x.1 id) as [Hxid|Hxid]; simpl; rewrite IH.
    + destruct (String.eqb_spec id0 id); [congruence|done].
    + done.
Qed.

Lemma waiting_get {V} id (l : list (string * V)) v :
  Map.get l id = Some v → (1 ≤ waiting id l)%nat.
Proof.
  induction l as [|[k x] l IH]; simpl; [done|].
  destruct (String.eqb_spec id k) as [->|Hne].
  - rewrite String.eqb_refl. simpl. lia.
  - intros ?%IH. destruct (String.eqb k id); simpl; lia.
Qed.

Lemma waiting_set {V} id id0 (l : list (string * V)) v :
  id0 ≠ id → waiting id (Map.set l id0 v) = waiting id l.
Proof.
  intros Hne. induction l as [|[k x] l IH]; simpl.
  - by destruct (String.eqb_spec id0 id).
  - destruct (String.eqb_spec id0 k) as [->|Hk]; simpl.
    + by destruct (String.eqb k id).
    + destruct (String.eqb k id); simpl; by rewrite IH.
Qed.

Lemma waiting_once {V} id (l : list (string * V)) :
  NoDup l.*1 → waiting id l = if Map.has l id then 1%nat else 0%nat.
Proof.
  unfold Map.has. induction l as [|[k x] l IH]; [done|].
  rewrite fmap_cons. intros [Hk Hnd]%NoDup_cons. simpl in Hk. simpl.
  rewrite String.eqb_sym. destruct (String.eqb_spec id k) as [->|Hne]; simpl; [|by apply IH].
  rewrite IH by done.
  destruct (Map.get l k) as [v|] eqn:Hv; [|done].
  exfalso. apply Hk. apply get_Some_elem in Hv. apply list_elem_of_fmap. by exists (k, v).
Qed.

Lemma filter_keys_NoDup {V} (f : string * V → bool) (l : list (string * V)) :
  NoDup l.*1 → NoDup (List.filter f l).*1.
Proof.
  induction l as [|x l IH]; [done|].
  rewrite fmap_cons. intros [Hx Hnd]%NoDup_cons. simpl.
  destruct (f x); [|by apply IH]. rewrite fmap_cons. apply NoDup_cons. split; [|by apply IH].
  intros [y [Hy Hin]]%list_elem_of_fmap. apply Hx. apply list_elem_of_fmap. exists y.
  split; [done|]. apply list_elem_of_In. apply list_elem_of_In in Hin.
  by apply List.filter_In in Hin as [? _].
Qed.

Lemma rejections_app id (es es' : list Effect) :
  rejections id (es ++ es')%list = (rejections id es + rejections id es')%nat.
Proof. by rewrite List.filter_app, length_app. Qed.

Lemma rejections_rejected id error (l : list (string * PendingRequest)) :
  rejections id (map (λ e, Rejected e.1 error) l) = waiting id l.
Proof.
  induction l as [|x l IH]; simpl; [done|]. destruct (String.eqb x.1 id); simpl; by rewrite IH.
Qed.

Lemma rejections_none id (tail : list Effect) :
  Forall (λ e, match e with Rejected _ _ => False | _ => True end) tail →
  rejections id tail = 0%nat.
Proof.
  induction 1 as [|e tail He _ IH]; simpl; [done|]. by destruct e.
Qed.

(** A restart: the promises it rejects are those it stops waiting for. *)
Lemma restartWorker_settles id index reason m :
  NoDup (ids m) →
  let m' := (restartWorker index reason m).2 in
  NoDup (ids m') ∧
  (rejections id (effects m') + waiting id (pendingRequests m'))%nat =
  (rejections id (effects m) + waiting id (pendingRequests m))%nat.
Proof.
  intros Hnd m'. subst m'.
  destruct (restartInFlight m !! index) as [p|] eqn:Hflight.
  { unfold restartWorker. by rewrite Hflight. }
  unfold restartWorker. rewrite Hflight.
  set (error := "Worker restarting: " ++ reasonText reason).
  pose proof (rejectPending_others index error m Hnd) as Hpending.
  pose proof (rejectPending_effects index error (pendingRequests m) m) as Heffects.
  fold (rejectPendingForWorker index error m) in Heffects.
  destruct (rejectPending_fields index error m) as (Hw & _).
  set (m0 := rejectPendingForWorker index error m) in *.
  assert (rejections id (effects m0) + waiting id (pendingRequests m0) =
          rejections id (effects m) + waiting id (pendingRequests m))%nat as Hbalance.
  { rewrite Heffects, Hpending, rejections_app, rejections_rejected.
    rewrite <- (waiting_split id (λ e, (workerIndex e.2 =? index)%nat) (pendingRequests m)).
    lia. }
  assert (NoDup (ids m0)) as Hnd0 by (rewrite Hpending; by apply filter_keys_NoDup).
  unfold new_handle. cbn -[replaceWorker rejectPendingForWorker]. rewrite Hw.
  destruct (mjoin (workers m !! index)) as [w|]; cbn -[replaceWorker rejectPendingForWorker].
  - split; [done|]. rewrite rejections_app. simpl. lia.
  - match goal with |- context [replaceWorker index reason ?p ?m1] =>
      destruct (replaceWorker_fields index reason p m1) as (_ & _ & _ & _ & Hpe & _);
      destruct (replaceWorker_effects index reason p m1) as (tail & Htail & Hnone) end.
    cbn -[replaceWorker rejectPendingForWorker] in *.
    rewrite Hpe, Htail, rejections_app, (rejections_none id tail Hnone).
    split; [done|]. lia.
Qed.

Lemma terminateSettled_settles id index failure m :
  pendingRequests (terminateSettled index failure m) = pendingRequests m ∧
  rejections id (effects (terminateSettled index failure m)) = rejections id (effects m).
Proof.
  unfold terminateSettled. destruct (terminating m !! index) as [[p reason]|]; [|done].
  match goal with |- context [replaceWorker index reason p ?m1] =>
    destruct (replaceWorker_fields index reason p m1) as (_ & _ & _ & _ & Hpe & _);
    destruct (replaceWorker_effects index reason p m1) as (tail & Htail & Hnone) end.
  rewrite Hpe, Htail, rejections_app, (rejections_none id tail Hnone).
  destruct failure as [err|]; simpl; [|split; [done|lia]].
  rewrite rejections_app. simpl. split; [done|lia].
Qed.

Lemma getNextWorker_loop_fields total fuel i resumed m :
  pendingRequests (getNextWorker_loop total fuel i resumed m).2 = pendingRequests m ∧
  effects (getNextWorker_loop total fuel i resumed m).2 = effects m ∧
  workers (getNextWorker_loop total fuel i resumed m).2 = workers m ∧
  restartInFlight (getNextWorker_loop total fuel i resumed m).2 = restartInFlight m.
Proof.
  revert i resumed. induction fuel as [|fuel IH]; intros i resumed; simpl; [done|].
  destruct (match resumed with Some _ => None | None => _ end); [done|].
  destruct (mjoin _); [done|apply IH].
Qed.

Lemma getNextWorker_fields m :
  pendingRequests (getNextWorker m).2 = pendingRequests m ∧
  effects (getNextWorker m).2 = effects m ∧
  workers (getNextWorker m).2 = workers m ∧
  restartInFlight (getNextWorker m).2 = restartInFlight m.
Proof.
  unfold getNextWorker. destruct (length (workers m) =? 0)%nat; [done|].
  apply getNextWorker_loop_fields.
Qed.

Lemma close_begin_fields p :
  settlements (close_begin p) = settlements p ∧
  pendingRequests (manager (close_begin p)) = pendingRequests (manager p) ∧
  effects (manager (close_begin p)) = effects (manager p) ∧
  workers (manager (close_begin p)) = workers (manager p) ∧
  restartInFlight (manager (close_begin p)) = restartInFlight (manager p) ∧
  isClosing (manager (close_begin p)) = true.
Proof.
  assert (∀ slots q,
    let q' := foldl (λ p slot, match slot with Some w => post w Shutdown p | None => p end)
                q slots in
    settlements q' = settlements q ∧ manager q' = manager q) as Hloop.
  { intros slots. induction slots as [|[w|] slots IH]; intros q; simpl; [done|..].
    - destruct (IH (post w Shutdown q)) as [-> ->]. done.
    - apply IH. }
  unfold close_begin. cbv zeta. simpl.
  destruct (Hloop (workers (manager p)) (with_manager p (with_isClosing (manager p) true)))
    as [Hs Hm].
  cbv zeta in Hs, Hm. by rewrite Hs, Hm.
Qed.

Lemma close_finish_settles id p :
  settlements (close_finish p) = settlements p ∧
  pendingRequests (manager (close_finish p)) = pendingRequests (manager p) ∧
  rejections id (effects (manager (close_finish p))) = rejections id (effects (manager p)).
Proof.
  unfold close_finish. generalize (workers (manager p)). intros slots. revert p.
  induction slots as [|[w|] slots IH]; intros p; simpl; [done| |apply IH].
  destruct (IH (with_manager p (emit (TerminateCalled w) (manager p)))) as (-> & -> & ->).
  simpl. rewrite rejections_app. simpl. split_and!; [done|done|lia].
Qed.

Lemma restart_in_pool id index reason msg p :
  NoDup (ids (manager p)) →
  let p' := with_manager p (restartWorker index reason (emit (Warned msg) (manager p))).2 in
  NoDup (ids (manager p')) ∧
  (settlementsOf id p' + waiting id (pendingRequests (manager p')))%nat =
  (settlementsOf id p + waiting id (pendingRequests (manager p)))%nat.
Proof.
  intros Hnd p'. subst p'.
  destruct (restartWorker_settles id index reason (emit (Warned msg) (manager p)) Hnd)
    as [Hnd' Hbalance].
  split; [exact Hnd'|]. unfold settlementsOf. simpl in *.
  rewrite rejections_app in Hbalance. simpl in Hbalance. lia.
Qed.

Lemma settle_forget id s id0 p x :
  Map.get (pendingRequests (manager p)) id0 = Some x →
  match s with Resolved i _ | Failed i _ => i = id0 end →
  NoDup (ids (manager p)) →
  let p' := settled_with s (with_manager p (forget id0 (manager p))) in
  NoDup (ids (manager p')) ∧
  (settlementsOf id p' + waiting id (pendingRequests (manager p')) ≤
   settlementsOf id p + waiting id (pendingRequests (manager p)))%nat.
Proof.
  intros Hget Hs Hnd p'. subst p'. split; [by apply filter_keys_NoDup|].
  unfold settlementsOf. simpl. rewrite List.filter_app, length_app, waiting_forget.
  assert (length (List.filter (λ s, match s with
                                    | Resolved i _ | Failed i _ => String.eqb i id
                                    end) [s]) = if String.eqb id0 id then 1 else 0)%nat as ->.
  { destruct s; subst; simpl; by destruct (String.eqb id0 id). }
  destruct (String.eqb_spec id0 id) as [->|Hne]; [|lia].
  apply (waiting_get id) in Hget. lia.
Qed.

Lemma resolution_id msg :
  match resolution msg with Resolved i _ | Failed i _ => i = msg_id msg end.
Proof.
  unfold resolution. destruct (msg_error msg) as [error|]; [destruct (nonempty error)|]; done.
Qed.

(** No event lets a promise be settled that is not waited for, and one
    that is waited for is settled by at most one of them. *)
Lemma handle_settles T id e p :
  NoDup (ids (manager p)) →
  match e with Dispatched id' _ _ _ => id' ≠ id | _ => True end →
  NoDup (ids (manager (handle T e p))) ∧
  (settlementsOf id (handle T e p) + waiting id (pendingRequests (manager (handle T e p))) ≤
   settlementsOf id p + waiting id (pendingRequests (manager p)))%nat.
Proof.
  intros Hnd He. destruct e as [index msg|index message|index code|id0| |id0 build w index
                               |index failure|index| |]; simpl.
  - unfold onMessage.
    set (p1 := match Map.get (pendingRequests (manager p)) (msg_id msg) with
               | Some pending =>
                   if (workerIndex pending =? index)%nat
                   then settled_with (resolution msg)
                          (with_manager p (forget (msg_id msg) (manager p)))
                   else p
               | None => p
               end).
    assert (NoDup (ids (manager p1)) ∧
            (settlementsOf id p1 + waiting id (pendingRequests (manager p1)) ≤
             settlementsOf id p + waiting id (pendingRequests (manager p)))%nat) as [Hnd1 Hle1].
    { subst p1. destruct (Map.get _ (msg_id msg)) as [pending|] eqn:Hget; [|by split].
      destruct (workerIndex pending =? index)%nat; [|by split].
      eapply settle_forget; [exact Hget|apply resolution_id|done]. }
    destruct (msg_memory msg) as [rss|]; [|by split].
    destruct (MAX_WORKER_RSS <? rss); [|by split].
    match goal with |- context [restartWorker index ?reason (emit (Warned ?text) _)] =>
      destruct (restart_in_pool id index reason text p1 Hnd1) as [Hnd2 Heq2] end.
    split; [exact Hnd2|].
    eapply Nat.le_trans; [|exact Hle1]. apply Nat.eq_le_incl. exact Heq2.
  - unfold onError.
    match goal with |- context [restartWorker index ?reason (emit (Warned ?text) _)] =>
      destruct (restart_in_pool id index reason text p Hnd) as [Hnd2 Heq2] end.
    split; [exact Hnd2|]. apply Nat.eq_le_incl. exact Heq2.
  - unfold onExit. destruct (negb (code =? 0) && negb (isClosing (manager p))); [|by split].
    match goal with |- context [restartWorker index ?reason (emit (Warned ?text) _)] =>
      destruct (restart_in_pool id index reason text p Hnd) as [Hnd2 Heq2] end.
    split; [exact Hnd2|]. apply Nat.eq_le_incl. exact Heq2.
  - unfold onTimeout. destruct (Map.get _ id0) as [pending|] eqn:Hget; [|by split].
    eapply settle_forget; [exact Hget|done|done].
  - destruct (getNextWorker_fields (manager p)) as (Hp & He' & _).
    unfold settlementsOf. simpl. rewrite Hp, He'. by split.
  - unfold dispatch, settlementsOf. simpl. split; [by apply set_NoDup|].
    rewrite waiting_set by done. lia.
  - destruct (terminateSettled_settles id index failure (manager p)) as [Hp He'].
    unfold settlementsOf. simpl. rewrite Hp, He'. by split.
  - unfold restartResumed, settlementsOf.
    destruct (restartInFlight (manager p) !! index) as [r|]; [|by split].
    destruct (decide (r ∈ settled (manager p))); by split.
  - destruct (close_begin_fields p) as (Hs & Hp & He' & _).
    unfold settlementsOf. rewrite Hs, Hp, He'. by split.
  - destruct (close_finish_settles id p) as (Hs & Hp & He').
    unfold settlementsOf. rewrite Hs, Hp, He'. by split.
Qed.

(** X14. The promise of a request is settled at most once. Whatever
    happens to the manager afterwards (replies of any worker, timers,
    worker errors and exits, restarts, further requests under other ids,
    [close]), a request that is pending is resolved or rejected at most
    once in all, by its reply, its timer or a restart, and one that is
    not pending is never settled. *)
Theorem request_is_settled_at_most_once
    (WORKER_TIMEOUT_MS : Z) (id : string) (events : list Event) (p : Pool) :
  NoDup (pendingRequests (manager p)).*1 →
  unused id events →
  (settlementsOf id (run WORKER_TIMEOUT_MS events p) ≤
   settlementsOf id p + if Map.has (pendingRequests (manager p)) id then 1 else 0)%nat.
Proof.
  intros Hnd Hunused. rewrite <- (waiting_once id _ Hnd).
  assert (NoDup (ids (manager (run WORKER_TIMEOUT_MS events p))) ∧
          (settlementsOf id (run WORKER_TIMEOUT_MS events p) +
           waiting id (pendingRequests (manager (run WORKER_TIMEOUT_MS events p))) ≤
           settlementsOf id p + waiting id (pendingRequests (manager p)))%nat) as [_ Hle];
    [|lia].
  revert p Hnd. unfold run.
  induction Hunused as [|e events He _ IH]; intros p Hnd; simpl; [by split|].
  destruct (handle_settles WORKER_TIMEOUT_MS id e p Hnd He) as [Hnd1 Hle1].
  destruct (IH _ Hnd1) as [Hnd2 Hle2]. split; [done|lia].
Qed.

Lemma request_is_settled_at_most_once_example :
  (settlementsOf "r1"
     (run 30000 [MessageFrom 0 (Scenarios.reply "r1" None); TimerFired "r1";
                 MessageFrom 1 (Scenarios.reply "r1" None); ErrorFrom 0 "out of memory"]
        Scenarios.pool) ≤ 1)%nat.
Proof.
  refine (request_is_settled_at_most_once 30000 "r1" _ Scenarios.pool _ _).
  - apply (bool_decide_unpack _). vm_compute. exact I.
  - repeat constructor.
Defined.

(** *** Routing *)

Lemma getNextWorker_live m w :
  length (workers m) ≠ 0%nat →
  restartInFlight m !! (nextWorkerIndex m mod length (workers m))%nat = None →
  workers m !! (nextWorkerIndex m mod length (workers m))%nat = Some (Some w) →
  getNextWorker m =
  (Routed w (nextWorkerIndex m mod length (workers m))%nat,
   with_next m (((nextWorkerIndex m mod length (workers m)) + 1) mod length (workers m))%nat).
Proof.
  intros Htotal Hfree Hlive. unfold getNextWorker.
  destruct (Nat.eqb_spec (length (workers m)) 0) as [?|_]; [done|].
  destruct (length (workers m)) as [|fuel] eqn:Hlen; [done|].
  cbn [getNextWorker_loop default]. rewrite Nat.add_0_r, Hfree, Hlive. done.
Qed.

(** X15. Requests are dealt to the workers in turn: while every slot
    holds a worker and no restart is in flight, the calls of
    [getNextWorker] take the slots one after the other from
    [nextWorkerIndex] on, starting again at slot 0 after the last. *)
Theorem requests_go_round_the_workers (m : Manager) (n : nat) :
  length (workers m) ≠ 0%nat →
  (∀ i, (i < length (workers m))%nat → ∃ w, workers m !! i = Some (Some w)) →
  restartInFlight m = ∅ →
  routes n m = (λ k, (nextWorkerIndex m + k) mod length (workers m))%nat <$> seq 0 n.
Proof.
  revert m. induction n as [|n IH]; intros m Htotal Hlive Hfree; [done|].
  assert (nextWorkerIndex m mod length (workers m) < length (workers m))%nat as Hslot
    by (by apply Nat.mod_upper_bound).
  destruct (Hlive _ Hslot) as [w Hw].
  cbn [routes]. rewrite (getNextWorker_live m w Htotal); [|by rewrite Hfree|done].
  rewrite IH by done. cbn [seq fmap list_fmap]. rewrite Nat.add_0_r. f_equal.
  rewrite <- fmap_S_seq, <- list_fmap_compose. apply list_fmap_ext. intros _ k _.
  simpl. rewrite Nat.Div0.add_mod_idemp_l.
  by rewrite <- Nat.add_assoc, Nat.Div0.add_mod_idemp_l.
Qed.

Lemma requests_go_round_the_workers_example :
  routes 7 Scenarios.manager = [0; 1; 2; 0; 1; 2; 0]%nat.
Proof.
  refine (requests_go_round_the_workers Scenarios.manager 7 _ _ _).
  - vm_compute. lia.
  - intros i Hi. vm_compute in Hi.
    destruct i as [|[|[|i]]]; [by eexists..|lia].
  - reflexivity.
Defined.

Lemma replaceWorker_slot index reason p m :
  (index < length (workers m))%nat →
  workers (replaceWorker index reason p m) = <[index := Some (next_handle m)]> (workers m).
Proof.
  intros Hslot. apply Nat.ltb_lt in Hslot as Hlt.
  unfold replaceWorker, createWorker, new_handle, array_set.
  destruct reason as [r|]; [destruct (nonempty r)|]; simpl;
    by rewrite Hlt, length_insert, Hlt, list_insert_insert_eq.
Qed.

Lemma getNextWorker_resumed total fuel i index m w :
  workers m !! index = Some (Some w) →
  getNextWorker_loop total (S fuel) i (Some index) m =
  (Routed w index, with_next m ((index + 1) mod total)%nat).
Proof. intros Hw. simpl. by rewrite Hw. Qed.

(** X16. A request whose turn falls on a slot that is being restarted
    waits for that restart instead of going to another worker, and when
    the restart has replaced the worker it is sent to the new one. *)
Theorem request_waits_for_the_restart
    (m : Manager) (index : nat) (p : Promise) (reason failure : option string) :
  index = (nextWorkerIndex m mod length (workers m))%nat →
  (index < length (workers m))%nat →
  restartInFlight m !! index = Some p →
  terminating m !! index = Some (p, reason) →
  getNextWorker m = (AwaitRestart p 0 index, m) ∧
  workers (terminateSettled index failure m) !! index = Some (Some (next_handle m)) ∧
  getNextWorker_resume (length (workers m)) 0 index (terminateSettled index failure m) =
  (Routed (next_handle m) index,
   with_next (terminateSettled index failure m) ((index + 1) mod length (workers m))%nat).
Proof.
  intros Hindex Hslot Hflight Hterm.
  assert (workers (terminateSettled index failure m) !! index = Some (Some (next_handle m)))
    as Hnew.
  { unfold terminateSettled. rewrite Hterm.
    rewrite replaceWorker_slot by (by destruct failure).
    destruct failure; simpl; by apply list_lookup_insert_eq. }
  split_and!; [|done|].
  - unfold getNextWorker.
    destruct (Nat.eqb_spec (length (workers m)) 0) as [Hzero|_]; [lia|].
    destruct (length (workers m)) as [|fuel] eqn:Hlen; [lia|].
    cbn [getNextWorker_loop default]. by rewrite Nat.add_0_r, <- Hindex, Hflight.
  - unfold getNextWorker_resume. rewrite Nat.sub_0_r.
    destruct (length (workers m)) as [|fuel] eqn:Hlen; [lia|].
    by apply getNextWorker_resumed.
Qed.

Lemma request_waits_for_the_restart_example :
  let m := (restartWorker 0 (Some "memory limit exceeded") Scenarios.manager).2 in
  getNextWorker m = (AwaitRestart 3 0 0, m) ∧
  workers (terminateSettled 0 None m) !! 0%nat = Some (Some 4%nat) ∧
  getNextWorker_resume 3 0 0 (terminateSettled 0 None m) =
  (Routed 4 0, with_next (terminateSettled 0 None m) 1).
Proof.
  intros m.
  refine (request_waits_for_the_restart m 0 3 (Some "memory limit exceeded") None
            eq_refl _ _ _).
  - vm_compute. lia.
  - vm_compute. reflexivity.
  - vm_compute. reflexivity.
Defined.

(** *** Replies *)

Lemma get_forget {V} (l : list (string * V)) id id' :
  Map.get (List.filter (λ e, negb (String.eqb e.1 id)) l) id' =
  if String.eqb id' id then None else Map.get l id'.
Proof.
  induction l as [|[k v] l IH]; simpl; [by destruct (String.eqb id' id)|].
  destruct (String.eqb_spec k id) as [->|Hk]; simpl.
  - rewrite IH. destruct (String.eqb id' id); done.
  - rewrite IH. destruct (String.eqb_spec id' k) as [->|Hk'].
    + by destruct (String.eqb_spec k id).
    + done.
Qed.

(** What a restart leaves pending: everything when the slot is already
    restarting, and else what the rejection of the slot's requests
    leaves. *)
Lemma restartWorker_pending index reason m :
  pendingRequests (restartWorker index reason m).2 =
  match restartInFlight m !! index with
  | Some _ => pendingRequests m
  | None =>
      pendingRequests
        (rejectPendingForWorker index ("Worker restarting: " ++ reasonText reason) m)
  end.
Proof.
  unfold restartWorker. destruct (restartInFlight m !! index) as [inFlight|]; [done|].
  set (error := "Worker restarting: " ++ reasonText reason).
  destruct (rejectPending_fields index error m) as (Hw & _).
  set (m0 := rejectPendingForWorker index error m) in *.
  unfold new_handle. cbn -[replaceWorker rejectPendingForWorker]. rewrite Hw.
  destruct (mjoin (workers m !! index)) as [w|]; cbn -[replaceWorker rejectPendingForWorker].
  - done.
  - match goal with |- context [replaceWorker index reason ?p ?m1] =>
      by destruct (replaceWorker_fields index reason p m1) as (_ & _ & _ & _ & -> & _) end.
Qed.

Lemma get_filter_None {V} (f : string * V → bool) (l : list (string * V)) id :
  Map.get l id = None → Map.get (List.filter f l) id = None.
Proof.
  induction l as [|[k v] l IH]; simpl; [done|].
  destruct (String.eqb_spec id k) as [->|Hk]; [done|]. intros Hl.
  destruct (f (k, v)); simpl; [|by apply IH].
  destruct (String.eqb_spec id k); [done|by apply IH].
Qed.

Lemma get_filter_Some {V} (f : string * V → bool) (l : list (string * V)) id v :
  NoDup l.*1 → Map.get l id = Some v → f (id, v) = true →
  Map.get (List.filter f l) id = Some v.
Proof.
  intros Hnd Hget Hf. apply get_elem; [by apply filter_keys_NoDup|].
  apply list_elem_of_In, List.filter_In. split; [|done].
  by apply list_elem_of_In, get_Some_elem.
Qed.

(** A restart never adds a request, and with one entry per id it keeps
    the requests of the other slots. *)
Lemma restartWorker_get_None index reason m id :
  Map.get (pendingRequests m) id = None →
  Map.get (pendingRequests (restartWorker index reason m).2) id = None.
Proof.
  intros Hnone. rewrite restartWorker_pending.
  destruct (restartInFlight m !! index); [done|].
  unfold rejectPendingForWorker. rewrite rejectPending_pending. by apply get_filter_None.
Qed.

Lemma restartWorker_get_other index reason m id pending :
  NoDup (pendingRequests m).*1 →
  Map.get (pendingRequests m) id = Some pending →
  workerIndex pending ≠ index →
  Map.get (pendingRequests (restartWorker index reason m).2) id = Some pending.
Proof.
  intros Hnd Hget Hslot. rewrite restartWorker_pending.
  destruct (restartInFlight m !! index); [done|].
  rewrite rejectPending_others by done.
  apply get_filter_Some; [done|done|]. simpl.
  by destruct (Nat.eqb_spec (workerIndex pending) index).
Qed.

(** X17. A message settles the request it names only when it comes from
    the slot the request was sent to: the promise is then settled with
    the error, the vectors, the scores or the vector of the message and
    the request is no longer pending; a message from any other slot, or
    one that names no pending request, settles nothing. No message
    touches a request of another slot. The memory test runs for every
    message: unless the message reports an [rss] above the limit, which
    restarts the slot, the other requests and the effects are as they
    were, and a message that settles nothing leaves the pool as it is. *)
Theorem reply_settles_the_request_of_its_slot (index : nat) (msg : Message) (p : Pool) :
  NoDup (pendingRequests (manager p)).*1 →
  let p' := onMessage index msg p in
  let mine :=
    match Map.get (pendingRequests (manager p)) (msg_id msg) with
    | Some pending => (workerIndex pending =? index)%nat
    | None => false
    end in
  let restarts :=
    match msg_memory msg with
    | Some rss => MAX_WORKER_RSS <? rss
    | None => false
    end in
  settlements p' = (if mine then settlements p ++ [resolution msg] else settlements p)%list ∧
  (mine = true → Map.get (pendingRequests (manager p')) (msg_id msg) = None) ∧
  (∀ id pending,
     Map.get (pendingRequests (manager p)) id = Some pending →
     workerIndex pending ≠ index →
     Map.get (pendingRequests (manager p')) id = Some pending) ∧
  (restarts = false →
   (∀ id, id ≠ msg_id msg →
      Map.get (pendingRequests (manager p')) id = Map.get (pendingRequests (manager p)) id) ∧
   effects (manager p') = effects (manager p) ∧
   (mine = false → p' = p)).
Proof.
  intros Hnd p' mine restarts. subst p'. unfold onMessage. cbv zeta.
  set (p1 := match Map.get (pendingRequests (manager p)) (msg_id msg) with
             | Some pending =>
                 if (workerIndex pending =? index)%nat
                 then settled_with (resolution msg)
                        (with_manager p (forget (msg_id msg) (manager p)))
                 else p
             | None => p
             end).
  assert (settlements p1 =
          (if mine then settlements p ++ [resolution msg] else settlements p)%list) as Hsett.
  { subst p1 mine. destruct (Map.get _ _) as [pending|]; [|done].
    by destruct (workerIndex pending =? index)%nat. }
  assert (pendingRequests (manager p1) =
          if mine
          then List.filter (λ e, negb (String.eqb e.1 (msg_id msg))) (pendingRequests (manager p))
          else pendingRequests (manager p)) as Hpend.
  { subst p1 mine. destruct (Map.get _ _) as [pending|]; [|done].
    by destruct (workerIndex pending =? index)%nat. }
  assert (effects (manager p1) = effects (manager p)) as Heff.
  { subst p1. destruct (Map.get _ _) as [pending|]; [|done].
    by destruct (workerIndex pending =? index)%nat. }
  assert (mine = false → p1 = p) as Hsame.
  { subst p1 mine. destruct (Map.get _ _) as [pending|]; [|done].
    by destruct (workerIndex pending =? index)%nat. }
  assert (NoDup (pendingRequests (manager p1)).*1) as Hnd1.
  { rewrite Hpend. destruct mine; [by apply filter_keys_NoDup|done]. }
  assert (mine = true → Map.get (pendingRequests (manager p1)) (msg_id msg) = None) as Hgone.
  { intros Hmine. rewrite Hpend, Hmine. by rewrite get_forget, String.eqb_refl. }
  assert (∀ id pending,
            Map.get (pendingRequests (manager p)) id = Some pending →
            workerIndex pending ≠ index →
            Map.get (pendingRequests (manager p1)) id = Some pending) as Hother.
  { intros id pending Hget Hslot. rewrite Hpend.
    destruct mine eqn:Hmine; [|done]. rewrite get_forget.
    destruct (String.eqb_spec id (msg_id msg)) as [->|_]; [|done].
    subst mine. rewrite Hget in Hmine. apply Nat.eqb_eq in Hmine. done. }
  clearbody p1.
  destruct (msg_memory msg) as [rss|]; [destruct (MAX_WORKER_RSS <? rss) eqn:Hrss|].
  - subst restarts. split_and!.
    + done.
    + intros Hmine. simpl. apply restartWorker_get_None. simpl. by apply Hgone.
    + intros id pending Hget Hslot. simpl.
      apply restartWorker_get_other; simpl; [done|by apply Hother|done].
    + done.
  - subst restarts. split_and!; [done|done|done|]. intros _. split_and!; [|done|done].
    intros id Hid. rewrite Hpend. destruct mine; [|done].
    rewrite get_forget. by destruct (String.eqb_spec id (msg_id msg)).
  - subst restarts. split_and!; [done|done|done|]. intros _. split_and!; [|done|done].
    intros id Hid. rewrite Hpend. destruct mine; [|done].
    rewrite get_forget. by destruct (String.eqb_spec id (msg_id msg)).
Qed.

Lemma reply_settles_the_request_of_its_slot_example :
  settlements (onMessage 0 (Scenarios.reply "r1" (Some 1024)) Scenarios.pool) =
    [Resolved "r1" (Vectors [[0%Q; 1%Q]])] ∧
  onMessage 1 (Scenarios.reply "r1" (Some 1024)) Scenarios.pool = Scenarios.pool ∧
  settlements (onMessage 1 (Scenarios.reply "r1" (Some 6442450945)) Scenarios.pool) = [] ∧
  Map.get (pendingRequests (manager
             (onMessage 1 (Scenarios.reply "r1" (Some 6442450945)) Scenarios.pool))) "r1" =
    Some {| payload := EmbedBatch "r1" ["let y = 2"]; workerIndex := 0 |}.
Proof.
  assert (NoDup (pendingRequests (manager Scenarios.pool)).*1) as Hnd.
  { apply (bool_decide_unpack _). vm_compute. exact I. }
  destruct (reply_settles_the_request_of_its_slot 0 (Scenarios.reply "r1" (Some 1024))
              Scenarios.pool Hnd) as (Hown & _).
  destruct (reply_settles_the_request_of_its_slot 1 (Scenarios.reply "r1" (Some 1024))
              Scenarios.pool Hnd) as (_ & _ & _ & Hquiet).
  destruct (reply_settles_the_request_of_its_slot 1 (Scenarios.reply "r1" (Some 6442450945))
              Scenarios.pool Hnd) as (Hloud & _ & Hkept & _).
  split_and!.
  - exact Hown.
  - by apply Hquiet.
  - exact Hloud.
  - apply Hkept; [reflexivity|]. simpl. lia.
Defined.

(** *** The memory limit *)

(** X18. A worker is restarted for its memory only when the [rss] it
    reports is above 6 GiB, the limit itself being allowed; the reply
    that carries the report is delivered all the same, before the
    restart starts, and the restart then leaves no request pending on
    the slot. *)
Theorem memory_report_restarts_the_worker
    (index : nat) (msg : Message) (p : Pool) (rss : Z) :
  msg_memory msg = Some rss →
  restartInFlight (manager p) !! index = None →
  let quiet :=
    {| msg_id := msg_id msg; msg_vector := msg_vector msg; msg_vectors := msg_vectors msg;
       msg_scores := msg_scores msg; msg_error := msg_error msg; msg_memory := None |} in
  MAX_WORKER_RSS = 6442450944 ∧
  (rss ≤ MAX_WORKER_RSS → onMessage index msg p = onMessage index quiet p) ∧
  (MAX_WORKER_RSS < rss →
   settlements (onMessage index msg p) = settlements (onMessage index quiet p) ∧
   is_Some (restartInFlight (manager (onMessage index msg p)) !! index) ∧
   pendingOn index (manager (onMessage index msg p)) = []).
Proof.
  intros Hmemory Hfree quiet. split; [done|].
  unfold onMessage. cbv zeta. rewrite Hmemory.
  assert (resolution quiet = resolution msg) as Hres by done.
  simpl. rewrite Hres.
  set (p1 := match Map.get (pendingRequests (manager p)) (msg_id msg) with
             | Some pending =>
                 if (workerIndex pending =? index)%nat
                 then settled_with (resolution msg)
                        (with_manager p (forget (msg_id msg) (manager p)))
                 else p
             | None => p
             end).
  assert (restartInFlight (manager p1) !! index = None) as Hfree1.
  { subst p1. destruct (Map.get _ _) as [pending|]; [|done].
    by destruct (workerIndex pending =? index)%nat. }
  split.
  - intros Hle. by destruct (Z.ltb_spec MAX_WORKER_RSS rss); [lia|].
  - intros Hlt. destruct (Z.ltb_spec MAX_WORKER_RSS rss); [|lia].
    match goal with |- context [restartWorker index ?reason ?m0] =>
      destruct (restartWorker_starts index reason m0 Hfree1) as (_ & Hmap & _ & Hclear & _)
    end.
    cbv zeta in Hmap, Hclear.
    split_and!; [done| |exact Hclear].
    simpl. rewrite Hmap, lookup_insert_eq. by eexists.
Qed.

Lemma memory_report_restarts_the_worker_example :
  onMessage 0 (Scenarios.reply "r1" (Some 6442450944)) Scenarios.pool =
    onMessage 0 (Scenarios.reply "r1" None) Scenarios.pool ∧
  settlements (onMessage 0 (Scenarios.reply "r1" (Some 6442450945)) Scenarios.pool) =
    settlements (onMessage 0 (Scenarios.reply "r1" None) Scenarios.pool) ∧
  is_Some (restartInFlight
             (manager (onMessage 0 (Scenarios.reply "r1" (Some 6442450945)) Scenarios.pool))
           !! 0%nat).
Proof.
  destruct (memory_report_restarts_the_worker 0 (Scenarios.reply "r1" (Some 6442450944))
              Scenarios.pool 6442450944 eq_refl ltac:(vm_compute; reflexivity))
    as (_ & Hlimit & _).
  destruct (memory_report_restarts_the_worker 0 (Scenarios.reply "r1" (Some 6442450945))
              Scenarios.pool 6442450945 eq_refl ltac:(vm_compute; reflexivity))
    as (_ & _ & Habove).
  split; [apply Hlimit; vm_compute; intros [=]|].
  destruct (Habove eq_refl) as (Hsettled & Hflight & _). by split.
Defined.

(** *** Shutdown *)

Lemma close_begin_posted p :
  posted (close_begin p) =
  (posted p ++ ((λ w, (w, Shutdown)) <$> omap id (workers (manager p))))%list.
Proof.
  assert (∀ slots q,
    posted (foldl (λ p slot, match slot with Some w => post w Shutdown p | None => p end)
              q slots) =
    (posted q ++ ((λ w, (w, Shutdown)) <$> omap id slots))%list) as Hloop.
  { intros slots. induction slots as [|[w|] slots IH]; intros q; simpl.
    - by rewrite app_nil_r.
    - rewrite IH. simpl. by rewrite <- app_assoc.
    - apply IH. }
  unfold close_begin. cbv zeta. by rewrite Hloop.
Qed.

Lemma close_finish_effects p :
  effects (manager (close_finish p)) =
  (effects (manager p) ++ (TerminateCalled <$> omap id (workers (manager p))))%list ∧
  isClosing (manager (close_finish p)) = isClosing (manager p).
Proof.
  unfold close_finish. generalize (workers (manager p)). intros slots. revert p.
  induction slots as [|[w|] slots IH]; intros p; simpl.
  - by rewrite app_nil_r.
  - destruct (IH (with_manager p (emit (TerminateCalled w) (manager p)))) as [-> ->].
    simpl. by rewrite <- app_assoc.
  - apply IH.
Qed.

(** X19. [close] tells every worker to shut down and then terminates
    every worker, and from its first step on the exit of a worker no
    longer restarts it, whatever the exit code; before [close] an exit
    with code 0 does not restart the worker either, any other code does.
    An error of a worker restarts it even while closing. *)
Theorem close_stops_the_restarts_on_exit
    (p : Pool) (index : nat) (code : Z) (message : string) :
  isClosing (manager (close_begin p)) = true ∧
  posted (close_begin p) =
    (posted p ++ ((λ w, (w, Shutdown)) <$> omap id (workers (manager p))))%list ∧
  effects (manager (close_finish (close_begin p))) =
    (effects (manager p) ++ (TerminateCalled <$> omap id (workers (manager p))))%list ∧
  onExit index code (close_begin p) = close_begin p ∧
  onExit index code (close_finish (close_begin p)) = close_finish (close_begin p) ∧
  onExit index 0 p = p ∧
  (isClosing (manager p) = false → code ≠ 0 → restartInFlight (manager p) !! index = None →
   is_Some (restartInFlight (manager (onExit index code p)) !! index)) ∧
  (restartInFlight (manager p) !! index = None →
   is_Some (restartInFlight (manager (onError index message (close_begin p))) !! index)).
Proof.
  destruct (close_begin_fields p) as (_ & _ & Heffects & Hworkers & Hflight & Hclosing).
  destruct (close_finish_effects (close_begin p)) as [Hfinish Hclosing'].
  split_and!.
  - done.
  - apply close_begin_posted.
  - by rewrite Hfinish, Heffects, Hworkers.
  - unfold onExit. by rewrite Hclosing, andb_false_r.
  - unfold onExit. by rewrite Hclosing', Hclosing, andb_false_r.
  - done.
  - intros Hopen Hcode Hfree. unfold onExit. rewrite Hopen.
    destruct (Z.eqb_spec code 0) as [?|_]; [done|]. simpl.
    match goal with |- context [restartWorker index ?reason ?m0] =>
      destruct (restartWorker_starts index reason m0 Hfree) as (_ & Hmap & _) end.
    cbv zeta in Hmap. rewrite Hmap, lookup_insert_eq. by eexists.
  - intros Hfree. unfold onError. simpl.
    match goal with |- context [restartWorker index ?reason ?m0] =>
      destruct (restartWorker_starts index reason m0) as (_ & Hmap & _);
        [simpl; by rewrite Hflight|] end.
    cbv zeta in Hmap. rewrite Hmap, lookup_insert_eq. by eexists.
Qed.

(** *** The worker file *)

(** X20. The worker file that is chosen exists whenever one of the two
    worker files exists; [ts-node] is registered only together with the
    TypeScript worker, and only when that file exists; and code that
    does not run from TypeScript sources takes the compiled worker
    whenever it is there. *)
Theorem worker_file_exists_when_one_does
    (existsSync : string → bool) (dirname : string) (runningTs : bool) :
  let config := getWorkerConfig existsSync dirname runningTs in
  (existsSync (dirname ++ "/worker.ts") = true ∨ existsSync (dirname ++ "/worker.js") = true →
   existsSync config.1 = true) ∧
  (config.2 = [] ∧ config.1 = dirname ++ "/worker.js" ∨
   config.2 = ["-r"; "ts-node/register"] ∧ config.1 = dirname ++ "/worker.ts" ∧
   existsSync (dirname ++ "/worker.ts") = true) ∧
  (runningTs = false → existsSync (dirname ++ "/worker.js") = true →
   config = (dirname ++ "/worker.js", [])).
Proof.
  unfold getWorkerConfig. cbv zeta.
  destruct runningTs, (existsSync (dirname ++ "/worker.ts")) eqn:Hts,
    (existsSync (dirname ++ "/worker.js")) eqn:Hjs; simpl;
    split_and!; try done; try (by intros [?|?]); try (by left); by right.
Qed.

(** *** A request and its reply *)

Lemma forget_set {V} (l : list (string * V)) id v :
  Map.has l id = false →
  List.filter (λ e, negb (String.eqb e.1 id)) (Map.set l id v) = l.
Proof.
  unfold Map.has. induction l as [|[k x] l IH]; simpl.
  - by rewrite String.eqb_refl.
  - destruct (String.eqb_spec id k) as [->|Hne]; [done|].
    intros Hfresh. simpl. destruct (String.eqb_spec k id) as [?|_]; [congruence|].
    simpl. by rewrite IH.
Qed.

(** X21. A request goes to a worker and comes back: [sendToWorker]
    posts the payload built for a fresh id to the worker it was given
    and waits on that worker's slot; when that slot answers under the
    id, the promise is settled with the answer, the request is no
    longer pending and nothing more is posted. When the answer reports
    no [rss] above the limit, the pending requests are those there were
    before; when it does, the slot is restarted, and if no restart of
    the slot was under way no request of the slot is left pending. *)
Theorem request_is_posted_and_answered
    (id : string) (buildPayload : string → WorkerRequest) (worker : Worker) (index : nat)
    (msg : Message) (p : Pool) :
  Map.has (pendingRequests (manager p)) id = false →
  msg_id msg = id →
  let sent := dispatch id buildPayload worker index p in
  let restarts :=
    match msg_memory msg with
    | Some rss => MAX_WORKER_RSS <? rss
    | None => false
    end in
  posted sent = (posted p ++ [(worker, Request (buildPayload id))])%list ∧
  Map.get (pendingRequests (manager sent)) id =
    Some {| payload := buildPayload id; workerIndex := index |} ∧
  settlements (onMessage index msg sent) = (settlements p ++ [resolution msg])%list ∧
  Map.get (pendingRequests (manager (onMessage index msg sent))) id = None ∧
  posted (onMessage index msg sent) = posted sent ∧
  (restarts = false →
   pendingRequests (manager (onMessage index msg sent)) = pendingRequests (manager p)) ∧
  (restarts = true → restartInFlight (manager p) !! index = None →
   pendingOn index (manager (onMessage index msg sent)) = []).
Proof.
  intros Hfresh Hid sent restarts.
  assert (Map.get (pendingRequests (manager sent)) id =
          Some {| payload := buildPayload id; workerIndex := index |}) as Hget.
  { subst sent. unfold dispatch. simpl. by rewrite get_set, String.eqb_refl. }
  assert (List.filter (λ e, negb (String.eqb e.1 id)) (pendingRequests (manager sent)) =
          pendingRequests (manager p)) as Hforget.
  { subst sent. unfold dispatch. simpl. by apply forget_set. }
  assert (Map.get (pendingRequests (manager p)) id = None) as Hnone.
  { unfold Map.has in Hfresh. by destruct (Map.get _ _). }
  assert (restartInFlight (manager sent) = restartInFlight (manager p)) as Hflight by done.
  assert (settlements sent = settlements p) as Hsett by done.
  split_and!; [done|done|..]; clearbody sent.
  all: unfold onMessage; cbv zeta; rewrite Hid, Hget; simpl; rewrite Nat.eqb_refl.
  all: subst restarts.
  all: destruct (msg_memory msg) as [rss|] eqn:Hmemory;
    [destruct (MAX_WORKER_RSS <? rss) eqn:Hrss|]; simpl; try done.
  all: rewrite ?Hforget, ?Hsett; try done.
  - apply restartWorker_get_None. simpl. by rewrite Hforget.
  - intros _ Hfree. rewrite <- Hflight in Hfree.
    match goal with |- context [restartWorker index ?reason ?m0] =>
      by destruct (restartWorker_starts index reason m0 Hfree) as (_ & _ & _ & Hclear & _)
    end.
Qed.

Lemma request_is_posted_and_answered_example :
  let sent :=
    dispatch "r3" (λ id, Rerank id "q" ["doc"]) 2 2 Scenarios.pool in
  let answer :=
    {| msg_id := "r3"; msg_vector := None; msg_vectors := None;
       msg_scores := Some [0.5%Q]; msg_error := None; msg_memory := None |} in
  posted sent = (posted Scenarios.pool ++ [(2%nat, Request (Rerank "r3" "q" ["doc"]))])%list ∧
  Map.get (pendingRequests (manager sent)) "r3" =
    Some {| payload := Rerank "r3" "q" ["doc"]; workerIndex := 2 |} ∧
  settlements (onMessage 2 answer sent) =
    (settlements Scenarios.pool ++ [resolution answer])%list ∧
  Map.get (pendingRequests (manager (onMessage 2 answer sent))) "r3" = None ∧
  posted (onMessage 2 answer sent) = posted sent ∧
  pendingRequests (manager (onMessage 2 answer sent)) =
    pendingRequests (manager Scenarios.pool).
Proof.
  intros sent answer.
  destruct (request_is_posted_and_answered "r3" (λ id, Rerank id "q" ["doc"]) 2 2 answer
              Scenarios.pool eq_refl eq_refl) as (H1 & H2 & H3 & H4 & H5 & H6 & _).
  split_and!; [exact H1|exact H2|exact H3|exact H4|exact H5|by apply H6].
Defined.
End WorkerEventFacts.

(** ** The traversal: what it yields, and that it ends *)
Module TraversalFacts.
Import JS NodeFileSystem NodeFileSystemFacts StringFacts.

(** What the loop over the entries of a directory yields comes from a
    subdirectory, is an entry that is not hidden, or was listed by git
    for a nested repository. *)
Lemma forEntries_yields (P : string → Prop) w recurse dir root :
  (∀ name seen fs seen' f,
     recurse (join dir name) seen = Some (fs, seen') → f ∈ fs → P f) →
  (∀ name, isHiddenFile (join dir name) root = false → P (join dir name)) →
  (∀ name f,
     isGitRepository w (join dir name) = true → f ∈ getGitFiles w (join dir name) → P f) →
  ∀ entries visited files visited',
    forEntries w recurse dir root entries visited = Some (files, visited') →
    ∀ f, f ∈ files → P f.
Proof.
  intros Hrec Hfile Hgit entries.
  induction entries as [|entry rest IH]; intros visited files visited'; simpl.
  { intros [= <- <-] f Hf. by apply elem_of_nil in Hf. }
  assert (∀ (here : Walk),
            (∀ fs seen f, here = Some (fs, seen) → f ∈ fs → P f) →
            match here with
            | Some (fs, visited0) =>
                match forEntries w recurse dir root rest visited0 with
                | Some (more, visited1) => Some ((fs ++ more)%list, visited1)
                | None => None
                end
            | None => None
            end = Some (files, visited') →
            ∀ f, f ∈ files → P f) as Hyield.
  { intros [[fs seen]|] Hhere; [|done].
    destruct (forEntries w recurse dir root rest seen) as [[more seen']|] eqn:Hrest; [|done].
    intros [= <- <-] f [Hf|Hf]%elem_of_app; [by eapply Hhere|by eapply IH]. }
  destruct (isHiddenFile (join dir (name entry)) root) eqn:Hhidden; [apply IH|].
  destruct (resolveEntry w _ entry) as [resolved|]; [|apply IH].
  destruct (isDir resolved).
  - destruct (decide (realPath resolved ∈ visited)); [apply IH|].
    destruct (isGitRepository w (join dir (name entry))) eqn:Hrepo.
    + destruct (getGitFiles w (join dir (name entry))) as [|file listed] eqn:Hlisted.
      * apply Hyield. intros fs seen f Hsub. by eapply Hrec.
      * apply (Hyield (Some (file :: listed, visited))).
        intros fs seen f [= <- <-] Hf. apply (Hgit (name entry)); [done|by rewrite Hlisted].
    + apply Hyield. intros fs seen f Hsub. by eapply Hrec.
  - destruct (isFile_ resolved); [|apply IH].
    apply (Hyield (Some ([join dir (name entry)], visited))).
    intros fs seen f [= <- <-] ->%list_elem_of_singleton. by apply Hfile.
Qed.

(** X22. Every path the traversal yields lies below the directory it
    started from and has no hidden part relative to the root, unless git
    listed it for a nested repository: what git lists is yielded as it
    is. *)
Theorem traversal_yields_no_hidden_path
    (fuel : nat) (w : World) (dir root : string) (visited visited' : gset string)
    (files : list string) (f : string) :
  getAllFilesRecursive fuel w dir root visited = Some (files, visited') →
  f ∈ files →
  (isHiddenFile f root = false ∧ ∃ rest, f = dir ++ "/" ++ rest) ∨
  (∃ repo, isGitRepository w repo = true ∧ f ∈ getGitFiles w repo).
Proof.
  revert dir visited visited' files f.
  induction fuel as [|fuel IH]; intros dir visited visited' files f; simpl; [done|].
  destruct (realpathSync w dir) as [realDir|];
    [|intros [= <- <-] Hf; by apply elem_of_nil in Hf].
  destruct (decide (realDir ∈ visited));
    [intros [= <- <-] Hf; by apply elem_of_nil in Hf|].
  destruct (readdir w dir) as [entries|];
    [|intros [= <- <-] Hf; by apply elem_of_nil in Hf].
  intros Hwalk Hf. revert Hwalk f Hf.
  apply (forEntries_yields (λ f,
    (isHiddenFile f root = false ∧ ∃ rest, f = dir ++ "/" ++ rest) ∨
    (∃ repo, isGitRepository w repo = true ∧ f ∈ getGitFiles w repo))).
  - intros name seen fs seen' f Hsub Hf.
    destruct (IH _ _ _ _ _ Hsub Hf) as [[Hvisible [rest ->]]|Hgit]; [left|by right].
    split; [done|]. exists (name ++ "/" ++ rest). unfold join.
    by rewrite <- !append_assoc.
  - intros name Hvisible. left. split; [done|]. by exists name.
  - intros name f Hrepo Hf. right. by eexists.
Qed.

Lemma traversal_yields_no_hidden_path_example :
  (isHiddenFile "/r/circular/file.txt" "/r" = false ∧
   ∃ rest, "/r/circular/file.txt" = "/r" ++ "/" ++ rest) ∨
  (∃ repo, isGitRepository Scenarios.circular_tree repo = true ∧
           "/r/circular/file.txt" ∈ getGitFiles Scenarios.circular_tree repo).
Proof.
  refine (traversal_yields_no_hidden_path 3 Scenarios.circular_tree "/r" "/r" ∅ _
            ["/r/circular/file.txt"] "/r/circular/file.txt" _ _).
  - vm_compute. reflexivity.
  - left.
Defined.

(** X23. [getFiles] comes to an end on every tree, links that lead back
    into the tree included: when the real paths of the tree are finitely
    many, more nested calls than there are real paths are never needed. *)
Theorem getFiles_terminates
    (w : World) (universe : gset string) (fuel : nat) (dirRoot : string) :
  (∀ p real, realpathSync w p = Some real → real ∈ universe) →
  (size universe < fuel)%nat →
  ∃ files, getFiles fuel w dirRoot = Some files.
Proof.
  intros Huniverse Hfuel.
  destruct (traversal_terminates w universe fuel dirRoot dirRoot ∅ Huniverse)
    as (files & visited' & Hwalk & _).
  { by rewrite difference_empty_L. }
  unfold getFiles. rewrite Hwalk. simpl.
  destruct (isGitRepository w dirRoot); [|by eexists].
  destruct (getGitFiles w dirRoot); by eexists.
Qed.

Lemma getFiles_terminates_example :
  ∃ files, getFiles 4 Scenarios.circular_tree "/r" = Some files.
Proof.
  refine (getFiles_terminates Scenarios.circular_tree
            {["/r"; "/r/circular"; "/r/circular/file.txt"]} 4 "/r" _ _).
  - intros p real. unfold Scenarios.circular_tree, realpathSync.
    repeat case_bool_decide; intros [= <-]; set_solver.
  - vm_compute. lia.
Defined.
End TraversalFacts.

(** ** What is ignored *)
Module IgnoreFacts.
Import JS NodeFileSystem IgnoreRules StringFacts.

Lemma strip_prefix_app (a b : string) : strip_prefix a (a ++ b) = Some b.
Proof.
  induction a as [|c a IH]; [by destruct b|].
  change (strip_prefix (String c a) (String c (a ++ b)) = Some b).
  simpl. by rewrite Ascii.eqb_refl.
Qed.

(** [path.relative] takes a path below the root back to what was joined
    to the root. *)
Lemma relative_below (root rest : string) : relative root (root ++ "/" ++ rest) = rest.
Proof.
  unfold relative.
  destruct (String.eqb_spec root (root ++ "/" ++ rest)) as [Heq|_].
  - apply (f_equal String.length) in Heq. rewrite !string_length_app in Heq.
    simpl in Heq. lia.
  - by rewrite append_assoc, strip_prefix_app.
Qed.

Lemma split_single (name : string) : includes name "/" = false → split "/" name = [name].
Proof.
  induction name as [|c name IH]; [done|].
  change (includes (String c name) "/") with
    (String.prefix "/" (String c name) || includes name "/").
  intros [Hc Hrest]%orb_false_iff. simpl in Hc.
  change (split "/" (String c name)) with
    (if Ascii.eqb c "/" then EmptyString :: split "/" name
     else match split "/" name with
          | seg :: segs => String c seg :: segs
          | [] => [String c EmptyString]
          end).
  destruct (Ascii.eqb_spec c "/") as [->|_].
  - simpl in Hc. by destruct name.
  - by rewrite IH.
Qed.

(** X24. The root itself is never ignored, whatever the patterns say,
    and an entry of the root whose name begins with a dot is always
    ignored, with no pattern asked. *)
Theorem root_is_kept_and_dot_entries_are_ignored
    (w : World) (filters : Filters) (root name : string) :
  hidden_part name = true →
  includes name "/" = false →
  isIgnored w filters root root = false ∧
  isIgnored w filters (join root name) root = true.
Proof.
  intros Hhidden Hslash. split.
  - unfold isIgnored, isHiddenFile, relative. rewrite String.eqb_refl. done.
  - unfold isIgnored, isHiddenFile, join. rewrite relative_below, split_single by done.
    simpl. by rewrite Hhidden.
Qed.

Lemma root_is_kept_and_dot_entries_are_ignored_example :
  let everything := {| customIgnores := λ _, true; gitIgnored := λ _ _, true |} in
  let nothing := {| customIgnores := λ _, false; gitIgnored := λ _ _, false |} in
  isIgnored Scenarios.plain_tree everything "/r" "/r" = false ∧
  isIgnored Scenarios.plain_tree nothing (join "/r" ".env") "/r" = true.
Proof.
  intros everything nothing. split.
  - exact (proj1 (root_is_kept_and_dot_entries_are_ignored Scenarios.plain_tree everything
                    "/r" ".env" eq_refl eq_refl)).
  - exact (proj2 (root_is_kept_and_dot_entries_are_ignored Scenarios.plain_tree nothing
                    "/r" ".env" eq_refl eq_refl)).
Defined.

(** The first segment of a normalised path with no hidden part does
    not begin with a dot. *)
Lemma split_head (s : string) : ∃ seg segs, split "/" s = seg :: segs.
Proof.
  destruct s as [|c s]; [by eexists _, _|]. simpl.
  destruct (Ascii.eqb c "/"); [by eexists _, _|].
  destruct (split "/" s); by eexists _, _.
Qed.

Lemma normalized_head (rest : string) :
  normalized rest = true →
  existsb hidden_part (split "/" rest) = false →
  nonempty rest = true ∧ isAbsolute rest = false ∧ String.prefix ".." rest = false.
Proof.
  unfold normalized, isAbsolute. intros Hnorm Hvisible.
  destruct rest as [|c rest]; [done|]. split; [done|].
  change (split "/" (String c rest)) with
    (if Ascii.eqb c "/" then EmptyString :: split "/" rest
     else match split "/" rest with
          | seg :: segs => String c seg :: segs
          | [] => [String c EmptyString]
          end) in Hnorm, Hvisible.
  destruct (Ascii.eqb_spec c "/") as [->|Hc]; [by simpl in Hnorm|].
  split.
  { change (String.prefix "/" (String c rest)) with
      (if ascii_dec "/" c then String.prefix EmptyString rest else false).
    by destruct (ascii_dec "/" c) as [Heq|_]; [destruct Hc|]. }
  destruct (split_head rest) as (seg & segs & Hsplit). rewrite Hsplit in Hnorm, Hvisible.
  simpl in Hnorm, Hvisible.
  apply andb_true_iff in Hnorm as [Hseg _]. apply orb_false_iff in Hvisible as [Hhidden _].
  unfold hidden_part in Hhidden.
  change (String.prefix ".." (String c rest)) with
    (if ascii_dec "." c then String.prefix "." rest else false).
  destruct (ascii_dec "." c) as [<-|_]; [|done].
  simpl in Hhidden, Hseg. apply andb_true_iff in Hseg as [Hdot Hdots].
  rewrite Hdot, Hdots in Hhidden. by destruct seg.
Qed.

(** X25. For a path below the root that is normalised (no segment after
    the root is empty, [.] or [..]) and has no hidden part, the patterns
    are asked about the path relative to the root, with forward slashes
    and, for a directory, a slash at its end; the configured patterns
    are asked first, and those of git only inside a git repository. *)
Theorem patterns_see_the_relative_path
    (w : World) (filters : Filters) (root rest : string) :
  nonempty root = true →
  normalized rest = true →
  existsb hidden_part (split "/" rest) = false →
  isIgnored w filters (root ++ "/" ++ rest) root =
  customIgnores filters
    (forwardSlashes rest ++
     match statSync w (root ++ "/" ++ rest) with
     | Some stat => if stat_isDirectory stat then "/" else EmptyString
     | None => EmptyString
     end)
  || (isGitRepository w root && gitIgnored filters (root ++ "/" ++ rest) root).
Proof.
  intros _ Hnorm Hvisible.
  destruct (normalized_head rest Hnorm Hvisible) as (Hrest & Habsolute & Hparent).
  unfold isIgnored, isHiddenFile. rewrite relative_below, Hvisible, Habsolute, Hparent.
  assert (nonempty (forwardSlashes rest) = true) as -> by (by destruct rest).
  simpl.
  assert (∀ s : string, s ++ EmptyString = s) as Hnil.
  { intros s. induction s as [|c s IH]; [done|].
    change (String c (s ++ EmptyString) = String c s). by rewrite IH. }
  destruct (statSync w (root ++ "/" ++ rest)) as [stat|];
    [destruct (stat_isDirectory stat)|]; rewrite ?Hnil;
    destruct (customIgnores filters _); simpl; try done;
    by destruct (isGitRepository w root).
Qed.

Lemma patterns_see_the_relative_path_example :
  let build := {| customIgnores := String.prefix "repo/"; gitIgnored := λ _ _, false |} in
  isIgnored Scenarios.plain_tree build "/r/repo" "/r" = true ∧
  isIgnored Scenarios.plain_tree build "/r/link/x.ts" "/r" = false.
Proof.
  intros build. split.
  - exact (patterns_see_the_relative_path Scenarios.plain_tree build "/r" "repo"
             eq_refl eq_refl eq_refl).
  - exact (patterns_see_the_relative_path Scenarios.plain_tree build "/r" "link/x.ts"
             eq_refl eq_refl eq_refl).
Defined.
End IgnoreFacts.
